(** * A shallow embedding of [vector.h]: [RawMemory<T>] and [Vector<T>]

    The C++ program manipulates raw storage, placement-constructed
    objects and exceptions.  The embedding keeps all three visible:

    - memory is a finite map from block addresses to arrays of slots, a
      slot being either uninitialised ([None]) or a live object
      ([Some x]);
    - [Vector] objects live in an object store indexed by their address
      ([this]), so that [this != &rhs] is a comparison of addresses;
    - every operation runs in a state-and-outcome monad whose outcomes are
      normal return, a thrown exception (the state reached so far is
      kept, as in C++), or undefined behaviour;
    - the element type [T] is abstract: its special member functions are
      the fields of the class [Elem], each of which may throw.

    A ghost trace records every allocation, construction, assignment and
    destruction, so that statements such as "no element is copied" can
    be made about a run. *)

From Stdlib Require Import ZArith Lia.
From stdpp Require Import gmap list.

Local Open Scope Z_scope.

(** ** [size_t] *)

(** [size_t] is a 64-bit unsigned integer: arithmetic wraps around. *)
Definition size_t_bits : Z := 64.
Definition size_t_mod : Z := 2 ^ size_t_bits.
Definition wrap (z : Z) : Z := z mod size_t_mod.

(** ** The element type *)

(** The special member functions of [T] and the two traits that
    [vector.h] inspects.  [None] means that the function throws.  A move
    returns the new object together with the state it leaves in its
    source.  [copy_ctor] and [copy_assign] are meaningful only when the
    type is copyable. *)
Class Elem (T : Type) := {
  sizeof : Z;
  sizeof_pos : 0 < sizeof;
  is_nothrow_move_constructible : bool;
  is_copy_constructible : bool;
  value_ctor : option T;
  copy_ctor : T -> option T;
  move_ctor : T -> option (T * T);
  copy_assign : T -> T -> option T;
  move_assign : T -> T -> option (T * T)
}.

(** The global allocation function behind [operator new]: which byte
    counts it is able to supply. *)
Class Allocator := { can_allocate : Z -> bool }.

(** ** Pointers, objects and the machine state *)

Definition addr := nat.
Definition ref := nat.

(** A [T*]: null, or the slot [off] of block [a]. *)
Inductive ptr := nullptr | Ptr (a : addr) (off : Z).

#[global] Instance ptr_eq_dec : EqDecision ptr.
Proof. solve_decision. Defined.

(** Pointer arithmetic.  On a null pointer only [+ 0] is defined in
    C++; any later access through the result is undefined behaviour
    here as well. *)
Definition ptr_add (p : ptr) (n : Z) : ptr :=
  match p with
  | nullptr => nullptr
  | Ptr a off => Ptr a (off + n)
  end.

(** [p - q], defined for two pointers into one array. *)
Definition ptr_diff (p q : ptr) : option Z :=
  match p, q with
  | nullptr, nullptr => Some 0
  | Ptr a i, Ptr b j => if decide (a = b) then Some (i - j) else None
  | _, _ => None
  end.

(** The arguments from which a [T] is constructed in place:
    [T(const T&)], [T(T&&)], or any other constructor, given by its
    result. *)
Inductive init (T : Type) :=
| InitCopy (x : T)
| InitMove (x : T)
| InitArgs (r : option T).
Arguments InitCopy {T} x.
Arguments InitMove {T} x.
Arguments InitArgs {T} r.

Inductive exn := bad_alloc | elem_exn.

#[global] Instance exn_eq_dec : EqDecision exn.
Proof. solve_decision. Defined.

Inductive event (T : Type) :=
| EvNew (a : addr) (bytes : Z)
| EvDelete (a : addr)
| EvValueCtor (x : T)
| EvArgsCtor (x : T)
| EvCopyCtor (src : T)
| EvMoveCtor (src : T)
| EvCopyAssign (dst src : T)
| EvMoveAssign (dst src : T)
| EvDtor (x : T).
Arguments EvNew {T} a bytes.
Arguments EvDelete {T} a.
Arguments EvValueCtor {T} x.
Arguments EvArgsCtor {T} x.
Arguments EvCopyCtor {T} src.
Arguments EvMoveCtor {T} src.
Arguments EvCopyAssign {T} dst src.
Arguments EvMoveAssign {T} dst src.
Arguments EvDtor {T} x.

(** The events in which an element is duplicated or destroyed. *)
Definition copies_or_destroys {T} (e : event T) : bool :=
  match e with
  | EvCopyCtor _ | EvCopyAssign _ _ | EvDtor _ => true
  | _ => false
  end.

(** [class RawMemory]: [T* buffer_ = nullptr; size_t capacity_ = 0;] *)
Record RawMemory := mkRawMemory { buffer_ : ptr; capacity_ : Z }.

(** [class Vector]: [RawMemory<T> data_; size_t size_ = 0;] *)
Record Vector := mkVector { data_ : RawMemory; size_ : Z }.

Record state (T : Type) := mkState {
  heap : gmap addr (list (option T));
  objs : gmap ref Vector;
  trace : list (event T)
}.
Arguments mkState {T} heap objs trace.
Arguments heap {T} s.
Arguments objs {T} s.
Arguments trace {T} s.

(** ** The monad *)

Inductive result (A : Type) :=
| Ok (a : A)
| Throw (e : exn)
| UB.
Arguments Ok {A} a.
Arguments Throw {A} e.
Arguments UB {A}.

Definition M (T A : Type) : Type := state T -> result A * state T.

Definition ret {T A} (a : A) : M T A := fun st => (Ok a, st).

Definition bind {T A B} (m : M T A) (k : A -> M T B) : M T B :=
  fun st =>
    match m st with
    | (Ok a, st') => k a st'
    | (Throw e, st') => (Throw e, st')
    | (UB, st') => (UB, st')
    end.

Definition throw {T A} (e : exn) : M T A := fun st => (Throw e, st).

Definition undefined {T A} : M T A := fun st => (UB, st).

(** [try { m } catch (...) { h }]: the handler runs in the state the
    exception left behind; it rethrows only if [h] does. *)
Definition try_catch {T A} (m : M T A) (h : exn -> M T A) : M T A :=
  fun st =>
    match m st with
    | (Throw e, st') => h e st'
    | r => r
    end.

(** Stack unwinding: when [m] throws, the destructor [cleanup] of a
    local object runs and the exception continues. *)
Definition unwind {T A} (m : M T A) (cleanup : M T unit) : M T A :=
  try_catch m (fun e => bind cleanup (fun _ => throw e)).

Declare Scope cpp_scope.
Delimit Scope cpp_scope with cpp.
Notation "'let*' x ':=' m 'in' k" := (bind m (fun x => k))
  (at level 10, x pattern, m at level 100, k at level 200) : cpp_scope.
Notation "m ';;;' k" := (bind m (fun _ => k))
  (at level 100, k at level 200, right associativity) : cpp_scope.
Local Open Scope cpp_scope.

Definition get_state {T} : M T (state T) := fun st => (Ok st, st).

Definition log {T} (e : event T) : M T unit :=
  fun st => (Ok tt, mkState (heap st) (objs st) (trace st ++ [e])).

Definition from_option {T A} (o : option A) : M T A :=
  match o with
  | Some a => ret a
  | None => undefined
  end.

(** ** Memory primitives *)

Section Memory.
Context {T : Type} `{Elem T} `{Allocator}.

(** The slots of the array that [p] points into, and the index of [p]'s
    slot, when [p] points into a live block at a non-negative offset. *)
Definition slots_of (st : state T) (p : ptr) : option (list (option T) * nat) :=
  match p with
  | nullptr => None
  | Ptr a off =>
      if off <? 0 then None
      else match heap st !! a with
           | Some l => Some (l, Z.to_nat off)
           | None => None
           end
  end.

Definition set_slot (p : ptr) (v : option T) : M T unit :=
  fun st =>
    match p with
    | nullptr => (UB, st)
    | Ptr a off =>
        match slots_of st p with
        | Some (l, i) =>
            (Ok tt, mkState (<[a := <[i := v]> l]> (heap st)) (objs st) (trace st))
        | None => (UB, st)
        end
    end.

(** Reading the object [*p]: undefined unless the slot holds a live
    object. *)
Definition load (p : ptr) : M T T :=
  fun st =>
    match slots_of st p with
    | Some (l, i) =>
        match l !! i with
        | Some (Some x) => (Ok x, st)
        | _ => (UB, st)
        end
    | None => (UB, st)
    end.

(** Updating the value of the live object [*p]. *)
Definition store (p : ptr) (x : T) : M T unit :=
  let* _ := load p in set_slot p (Some x).

(** Beginning the lifetime of an object in the slot [p], which must
    lie inside its block. *)
Definition construct (p : ptr) (x : T) : M T unit :=
  fun st =>
    match slots_of st p with
    | Some (l, i) =>
        if decide (i < length l)%nat then set_slot p (Some x) st else (UB, st)
    | None => (UB, st)
    end.

(** [std::destroy_at(p)], [p->~T()]: the destructor does not throw. *)
Definition destroy_at (p : ptr) : M T unit :=
  let* x := load p in
  log (EvDtor x) ;;;
  set_slot p None.

(** [operator new(bytes)]: a fresh block of uninitialised storage, with
    room for [bytes / sizeof(T)] objects, or [std::bad_alloc]. *)
Definition operator_new (bytes : Z) : M T ptr :=
  fun st =>
    if can_allocate bytes then
      let a := fresh (dom (heap st)) in
      (Ok (Ptr a 0),
       mkState (<[a := replicate (Z.to_nat (bytes / sizeof)) None]> (heap st))
               (objs st) (trace st ++ [EvNew a bytes]))
    else (Throw bad_alloc, st).

(** [operator delete(p)]: nothing for a null pointer; otherwise [p] must
    be the start of a live block. *)
Definition operator_delete (p : ptr) : M T unit :=
  fun st =>
    match p with
    | nullptr => (Ok tt, st)
    | Ptr a off =>
        if decide (off = 0) then
          match heap st !! a with
          | Some _ =>
              (Ok tt, mkState (delete a (heap st)) (objs st) (trace st ++ [EvDelete a]))
          | None => (UB, st)
          end
        else (UB, st)
    end.

(** *** Constructing and assigning elements *)

(** [new (dst) T()] *)
Definition value_construct_at (dst : ptr) : M T unit :=
  match value_ctor with
  | Some x => log (EvValueCtor x) ;;; construct dst x
  | None => throw elem_exn
  end.

(** Copy construction at [dst] from the object at [src], a [const T*]. *)
Definition copy_construct_at (dst src : ptr) : M T unit :=
  let* x := load src in
  match copy_ctor x with
  | Some y => log (EvCopyCtor x) ;;; construct dst y
  | None => throw elem_exn
  end.

(** Move construction at [dst] from the object at [src], a [T*]. *)
Definition move_construct_at (dst src : ptr) : M T unit :=
  let* x := load src in
  match move_ctor x with
  | Some (y, r) => log (EvMoveCtor x) ;;; store src r ;;; construct dst y
  | None => throw elem_exn
  end.

(** Copy assignment of the object at [src] to the object at [dst]. *)
Definition copy_assign_at (dst src : ptr) : M T unit :=
  let* d := load dst in
  let* s := load src in
  match copy_assign d s with
  | Some d' => log (EvCopyAssign d s) ;;; store dst d'
  | None => throw elem_exn
  end.

(** Move assignment of the object at [src] to the object at [dst]. *)
Definition move_assign_at (dst src : ptr) : M T unit :=
  let* d := load dst in
  let* s := load src in
  match move_assign d s with
  | Some (d', r) => log (EvMoveAssign d s) ;;; store src r ;;; store dst d'
  | None => throw elem_exn
  end.

(** Running the constructor selected by [i]; the value of the new
    object, or an exception. *)
Definition run_init (i : init T) : M T T :=
  match i with
  | InitCopy x =>
      match copy_ctor x with
      | Some y => log (EvCopyCtor x) ;;; ret y
      | None => throw elem_exn
      end
  | InitMove x =>
      match move_ctor x with
      | Some (y, _) => log (EvMoveCtor x) ;;; ret y
      | None => throw elem_exn
      end
  | InitArgs r =>
      match r with
      | Some y => log (EvArgsCtor y) ;;; ret y
      | None => throw elem_exn
      end
  end.

(** [new (dst) T(std::forward<Args>(ctor_args)...)] *)
Definition construct_from (dst : ptr) (i : init T) : M T unit :=
  let* x := run_init i in construct dst x.

End Memory.

(** ** The algorithms of [<memory>] and [<algorithm>] used by [vector.h]

    They are modelled from the C++ standard: an iterator range
    [first, last) has to be valid ([last] reachable from [first]),
    otherwise the behaviour is undefined. *)

Section Algorithms.
Context {T : Type} `{Elem T} `{Allocator}.

Fixpoint destroy_loop (first : ptr) (n : nat) : M T unit :=
  match n with
  | O => ret tt
  | S n' => destroy_at first ;;; destroy_loop (ptr_add first 1) n'
  end.

(** [std::destroy_n(first, n)] *)
Definition destroy_n (first : ptr) (n : Z) : M T unit :=
  destroy_loop first (Z.to_nat n).

(** The common shape of [std::uninitialized_..._n], as libstdc++
    implements it: [n] objects are constructed one after the other at
    [cur], which starts at [result]; if a constructor throws, the
    objects constructed so far, the range from [result] to [cur], are
    destroyed front to back ([std::_Destroy(result, cur)]; the standard
    leaves the order open) and the exception is rethrown.  [done] is
    the number of objects constructed so far, [cur - result]. *)
Fixpoint construct_loop (ctor : ptr -> ptr -> M T unit)
    (result : ptr) (done : nat) (first cur : ptr) (n : nat) : M T unit :=
  match n with
  | O => ret tt
  | S n' =>
      unwind (ctor cur first) (destroy_loop result done) ;;;
      construct_loop ctor result (S done) (ptr_add first 1) (ptr_add cur 1) n'
  end.

Definition uninitialized_loop (ctor : ptr -> ptr -> M T unit)
    (first d_first : ptr) (n : nat) : M T unit :=
  construct_loop ctor d_first 0 first d_first n.

(** [std::uninitialized_copy_n(first, n, d_first)] *)
Definition uninitialized_copy_n (first : ptr) (n : Z) (d_first : ptr) : M T unit :=
  uninitialized_loop copy_construct_at first d_first (Z.to_nat n).

(** [std::uninitialized_move_n(first, n, d_first)] constructs each
    object from [std::move] of its source.  When [first] is a
    [const T*] that expression is a [const T&&], which only the copy
    constructor accepts; when it is a [T*] the move constructor is
    chosen. *)
Definition uninitialized_move_n (src_const : bool) (first : ptr) (n : Z)
    (d_first : ptr) : M T unit :=
  uninitialized_loop
    (if src_const then copy_construct_at else move_construct_at)
    first d_first (Z.to_nat n).

(** [std::uninitialized_value_construct_n(first, n)] *)
Definition uninitialized_value_construct_n (first : ptr) (n : Z) : M T unit :=
  uninitialized_loop (fun d _ => value_construct_at d) nullptr first (Z.to_nat n).

Fixpoint move_loop (first d_first : ptr) (n : nat) : M T unit :=
  match n with
  | O => ret tt
  | S n' =>
      move_assign_at d_first first ;;;
      move_loop (ptr_add first 1) (ptr_add d_first 1) n'
  end.

(** [std::move(first, last, d_first)], front to back. *)
Definition std_move (first last d_first : ptr) : M T unit :=
  match ptr_diff last first with
  | Some n => if n <? 0 then undefined else move_loop first d_first (Z.to_nat n)
  | None => undefined
  end.

Fixpoint move_backward_loop (last d_last : ptr) (n : nat) : M T unit :=
  match n with
  | O => ret tt
  | S n' =>
      move_assign_at (ptr_add d_last (-1)) (ptr_add last (-1)) ;;;
      move_backward_loop (ptr_add last (-1)) (ptr_add d_last (-1)) n'
  end.

(** [std::move_backward(first, last, d_last)], back to front. *)
Definition move_backward (first last d_last : ptr) : M T unit :=
  match ptr_diff last first with
  | Some n => if n <? 0 then undefined else move_backward_loop last d_last (Z.to_nat n)
  | None => undefined
  end.

End Algorithms.

(** ** [class RawMemory] *)

Module RawMemory.
Section RawMemory.
Context {T : Type} `{Elem T} `{Allocator}.

(** [RawMemory() = default] *)
Definition empty : RawMemory := mkRawMemory nullptr 0.

Definition Allocate (n : Z) : M T ptr :=
  if n =? 0 then ret nullptr else operator_new (wrap (n * sizeof)).

Definition Deallocate (buf : ptr) : M T unit := operator_delete buf.

(** [explicit RawMemory(size_t capacity)] *)
Definition ctor (capacity : Z) : M T RawMemory :=
  let* b := Allocate capacity in
  ret (mkRawMemory b capacity).

(** [RawMemory(RawMemory&& other)]: the new object and what is left in
    [other]. *)
Definition ctor_move (other : RawMemory) : RawMemory * RawMemory :=
  (mkRawMemory (buffer_ other) (capacity_ other), mkRawMemory nullptr 0).

(** [void Swap(RawMemory& other)]: both objects afterwards. *)
Definition Swap (this other : RawMemory) : RawMemory * RawMemory :=
  (mkRawMemory (buffer_ other) (capacity_ other),
   mkRawMemory (buffer_ this) (capacity_ this)).

(** [RawMemory& operator=(RawMemory&& rhs)].  The two objects are
    passed with their addresses, which the self-assignment test
    compares; the result is the pair of objects afterwards. *)
Definition operator_assign_move (this_addr rhs_addr : ref) (this rhs : RawMemory)
    : M T (RawMemory * RawMemory) :=
  if decide (this_addr ≠ rhs_addr) then
    Deallocate (buffer_ this) ;;;
    ret (Swap (mkRawMemory nullptr 0) rhs)
  else ret (this, rhs).

(** [~RawMemory()] *)
Definition dtor (this : RawMemory) : M T unit :=
  if decide (buffer_ this ≠ nullptr) then Deallocate (buffer_ this) else ret tt.

(** [T* operator+(size_t offset)]; the assertion is compiled out. *)
Definition plus (this : RawMemory) (offset : Z) : ptr :=
  ptr_add (buffer_ this) offset.

(** [T& operator[](size_t index)]: the reference is the address of the
    slot. *)
Definition at_ (this : RawMemory) (index : Z) : ptr :=
  ptr_add (buffer_ this) index.

Definition GetAddress (this : RawMemory) : ptr := buffer_ this.

Definition Capacity (this : RawMemory) : Z := capacity_ this.

End RawMemory.
End RawMemory.

(** ** [class Vector] *)

(** A [std::initializer_list<T>]: a constant array (its elements are
    [const T]) and its length. *)
Record initializer_list := mkList { il_begin : ptr; il_size : Z }.

Module Vector.
Section Vector.
Context {T : Type} `{Elem T} `{Allocator}.

(** Access to the object at [this]. *)
Definition get_obj (this : ref) : M T Vector :=
  fun st =>
    match objs st !! this with
    | Some v => (Ok v, st)
    | None => (UB, st)
    end.

Definition set_obj (this : ref) (v : Vector) : M T unit :=
  fun st => (Ok tt, mkState (heap st) (<[this := v]> (objs st)) (trace st)).

Definition del_obj (this : ref) : M T unit :=
  fun st => (Ok tt, mkState (heap st) (delete this (objs st)) (trace st)).

Definition set_size (this : ref) (n : Z) : M T unit :=
  let* v := get_obj this in set_obj this (mkVector (data_ v) n).

Definition set_data (this : ref) (d : RawMemory) : M T unit :=
  let* v := get_obj this in set_obj this (mkVector d (size_ v)).

(** [Vector() noexcept = default] *)
Definition ctor_default (this : ref) : M T unit :=
  set_obj this (mkVector RawMemory.empty 0).

(** [explicit Vector(size_t size)] *)
Definition ctor_size (this : ref) (size : Z) : M T unit :=
  let* d := RawMemory.ctor size in
  unwind (uninitialized_value_construct_n (RawMemory.GetAddress d) size)
         (RawMemory.dtor d) ;;;
  set_obj this (mkVector d size).

(** [explicit Vector(std::initializer_list<T> list)]; [list.begin()] is
    a [const T*]. *)
Definition ctor_list (this : ref) (list : initializer_list) : M T unit :=
  let* d := RawMemory.ctor (il_size list) in
  unwind
    (if is_nothrow_move_constructible || negb is_copy_constructible
     then uninitialized_move_n true (il_begin list) (il_size list) (RawMemory.GetAddress d)
     else uninitialized_copy_n (il_begin list) (il_size list) (RawMemory.GetAddress d))
    (RawMemory.dtor d) ;;;
  set_obj this (mkVector d (il_size list)).

(** [explicit Vector(const Vector& other)] *)
Definition ctor_copy (this other : ref) : M T unit :=
  let* o := get_obj other in
  let* d := RawMemory.ctor (size_ o) in
  unwind
    (uninitialized_copy_n (RawMemory.GetAddress (data_ o)) (size_ o) (RawMemory.GetAddress d))
    (RawMemory.dtor d) ;;;
  set_obj this (mkVector d (size_ o)).

(** [Vector(Vector&& other) noexcept] *)
Definition ctor_move (this other : ref) : M T unit :=
  let* o := get_obj other in
  let '(d, od) := RawMemory.ctor_move (data_ o) in
  set_obj other (mkVector od (size_ o)) ;;;
  set_obj this (mkVector d (size_ o)) ;;;
  set_size other 0.

(** [~Vector()], followed by the destructor of the member [data_]. *)
Definition dtor (this : ref) : M T unit :=
  let* v := get_obj this in
  (if decide (RawMemory.GetAddress (data_ v) ≠ nullptr)
   then destroy_n (RawMemory.GetAddress (data_ v)) (size_ v)
   else ret tt) ;;;
  RawMemory.dtor (data_ v) ;;;
  del_obj this.

(** [void Swap(Vector& other) noexcept] *)
Definition Swap (this other : ref) : M T unit :=
  let* a := get_obj this in
  let* b := get_obj other in
  let '(d1, d2) := RawMemory.Swap (data_ a) (data_ b) in
  set_obj this (mkVector d1 (size_ a)) ;;;
  set_data other d2 ;;;
  let* a' := get_obj this in
  let* b' := get_obj other in
  set_size this (size_ b') ;;;
  set_size other (size_ a').

Definition Size (this : ref) : M T Z :=
  let* v := get_obj this in ret (size_ v).

Definition Capacity (this : ref) : M T Z :=
  let* v := get_obj this in ret (RawMemory.Capacity (data_ v)).

(** [begin()], [cbegin()] *)
Definition begin (this : ref) : M T ptr :=
  let* v := get_obj this in ret (RawMemory.GetAddress (data_ v)).

(** [end()], [cend()] *)
Definition end_ (this : ref) : M T ptr :=
  let* v := get_obj this in ret (ptr_add (RawMemory.GetAddress (data_ v)) (size_ v)).

(** [T& operator[](size_t index)]; the assertion is compiled out. *)
Definition at_ (this : ref) (index : Z) : M T ptr :=
  let* v := get_obj this in ret (RawMemory.at_ (data_ v) index).

(** The loop [for (; i < n; ++i) data_[i] = rhs[i];] of the copy
    assignment, from index [i], [n] more times. *)
Fixpoint assign_loop (dst src : RawMemory) (i : Z) (n : nat) : M T unit :=
  match n with
  | O => ret tt
  | S n' =>
      copy_assign_at (RawMemory.at_ dst i) (RawMemory.at_ src i) ;;;
      assign_loop dst src (wrap (i + 1)) n'
  end.

(** [Vector& operator=(const Vector& rhs)] *)
Definition operator_assign (this rhs : ref) : M T unit :=
  if decide (this ≠ rhs) then
    let* v := get_obj this in
    let* r := get_obj rhs in
    if size_ r >? RawMemory.Capacity (data_ v) then
      let* st := get_state in
      let rhs_copy := fresh (dom (objs st)) in
      ctor_copy rhs_copy rhs ;;;
      Swap this rhs_copy ;;;
      dtor rhs_copy
    else if size_ r >=? size_ v then
      assign_loop (data_ v) (data_ r) 0 (Z.to_nat (size_ v)) ;;;
      let i := size_ v in
      uninitialized_copy_n (ptr_add (RawMemory.GetAddress (data_ r)) i)
                           (wrap (size_ r - size_ v))
                           (ptr_add (RawMemory.GetAddress (data_ v)) i) ;;;
      set_size this (size_ r)
    else
      assign_loop (data_ v) (data_ r) 0 (Z.to_nat (size_ r)) ;;;
      let i := size_ r in
      destroy_n (ptr_add (RawMemory.GetAddress (data_ v)) i) (wrap (size_ v - size_ r)) ;;;
      set_size this (size_ r)
  else ret tt.

(** [Vector& operator=(Vector&& rhs)] *)
Definition operator_assign_move (this rhs : ref) : M T unit :=
  if decide (this ≠ rhs) then
    let* v := get_obj this in
    let* r := get_obj rhs in
    let* (d, rd) := RawMemory.operator_assign_move this rhs (data_ v) (data_ r) in
    set_obj this (mkVector d (size_ v)) ;;;
    set_data rhs rd ;;;
    let* r' := get_obj rhs in
    set_size this (size_ r') ;;;
    set_size rhs 0
  else ret tt.

(** [void FillNewData(RawMemory<T>& new_data, size_t from, size_t to, size_t count)];
    the source [data_.GetAddress() + from] is a [T*]. *)
Definition FillNewData (this : ref) (new_data : RawMemory) (from to count : Z) : M T unit :=
  let* v := get_obj this in
  if is_nothrow_move_constructible || negb is_copy_constructible
  then uninitialized_move_n false (ptr_add (RawMemory.GetAddress (data_ v)) from) count
                            (ptr_add (RawMemory.GetAddress new_data) to)
  else uninitialized_copy_n (ptr_add (RawMemory.GetAddress (data_ v)) from) count
                            (ptr_add (RawMemory.GetAddress new_data) to).

(** [void FillBehindIndex(RawMemory<T>& new_data, size_t index)] *)
Definition FillBehindIndex (this : ref) (new_data : RawMemory) (index : Z) : M T unit :=
  try_catch (FillNewData this new_data 0 0 index)
            (fun _ => destroy_at (RawMemory.at_ new_data index)).

(** The loop [for (size_t i = 0; i <= index; ++i) new_data[i].~T();]
    from [i], [n] more times. *)
Fixpoint destroy_upto (new_data : RawMemory) (i : Z) (n : nat) : M T unit :=
  match n with
  | O => ret tt
  | S n' => destroy_at (RawMemory.at_ new_data i) ;;; destroy_upto new_data (wrap (i + 1)) n'
  end.

(** [void FillAfterIndex(RawMemory<T>& new_data, size_t index)] *)
Definition FillAfterIndex (this : ref) (new_data : RawMemory) (index : Z) : M T unit :=
  let* v := get_obj this in
  try_catch (FillNewData this new_data index (wrap (index + 1)) (wrap (size_ v - index)))
            (fun _ => destroy_upto new_data 0 (Z.to_nat (index + 1))).

(** [void Reserve(size_t new_capacity)] *)
Definition Reserve (this : ref) (new_capacity : Z) : M T unit :=
  let* v := get_obj this in
  if new_capacity <=? RawMemory.Capacity (data_ v) then ret tt
  else
    let* new_data := RawMemory.ctor new_capacity in
    unwind (FillNewData this new_data 0 0 (size_ v) ;;;
            destroy_n (RawMemory.GetAddress (data_ v)) (size_ v))
           (RawMemory.dtor new_data) ;;;
    let '(d, new_data') := RawMemory.Swap (data_ v) new_data in
    set_data this d ;;;
    RawMemory.dtor new_data'.

(** [void Resize(size_t new_size)] *)
Definition Resize (this : ref) (new_size : Z) : M T unit :=
  let* v := get_obj this in
  (if new_size <=? size_ v then
     let left_elems := wrap (size_ v - new_size) in
     if left_elems =? 0 then ret tt
     else destroy_n (ptr_add (RawMemory.GetAddress (data_ v)) new_size) left_elems
   else
     Reserve this new_size ;;;
     let* v' := get_obj this in
     uninitialized_value_construct_n
       (ptr_add (RawMemory.GetAddress (data_ v')) (size_ v'))
       (wrap (new_size - size_ v'))) ;;;
  set_size this new_size.

(** [template <typename... Args> T& EmplaceBack(Args&&... ctor_args)] *)
Definition EmplaceBack (this : ref) (ctor_args : init T) : M T ptr :=
  let* v := get_obj this in
  (if size_ v =? RawMemory.Capacity (data_ v) then
     let* new_data := RawMemory.ctor (if size_ v =? 0 then 1 else wrap (size_ v * 2)) in
     unwind (FillNewData this new_data 0 0 (size_ v) ;;;
             construct_from (ptr_add (RawMemory.GetAddress new_data) (size_ v)) ctor_args ;;;
             destroy_n (RawMemory.GetAddress (data_ v)) (size_ v))
            (RawMemory.dtor new_data) ;;;
     let '(d, new_data') := RawMemory.Swap (data_ v) new_data in
     set_data this d ;;;
     RawMemory.dtor new_data'
   else
     construct_from (ptr_add (RawMemory.GetAddress (data_ v)) (size_ v)) ctor_args) ;;;
  set_size this (wrap (size_ v + 1)) ;;;
  let* v' := get_obj this in
  ret (RawMemory.at_ (data_ v') (wrap (size_ v' - 1))).

(** [void PushBack(const T& value)] for an argument that is not an
    object of the modelled heap (a local variable, a temporary): such
    an object is out of the reach of the vector, so the argument is
    given by its value.  [PushBack_ref] below takes the reference. *)
Definition PushBack (this : ref) (value : T) : M T unit :=
  EmplaceBack this (InitCopy value) ;;; ret tt.

(** [void PushBack(T&& value)], likewise for an argument outside the
    modelled heap. *)
Definition PushBack_rv (this : ref) (value : T) : M T unit :=
  EmplaceBack this (InitMove value) ;;; ret tt.

(** The statement [data_[index] = std::move(elem);] for the local
    object [elem]; returns the state the move leaves in [elem]. *)
Definition move_assign_from (dst : ptr) (elem : T) : M T T :=
  let* d := load dst in
  match move_assign d elem with
  | Some (d', r) => log (EvMoveAssign d elem) ;;; store dst d' ;;; ret r
  | None => throw elem_exn
  end.

(** [template <typename... Args> iterator Emplace(const_iterator pos, Args&&... ctor_args)] *)
Definition Emplace (this : ref) (pos : ptr) (ctor_args : init T) : M T ptr :=
  let* v := get_obj this in
  let* diff := from_option (ptr_diff pos (RawMemory.GetAddress (data_ v))) in
  let index := wrap diff in
  (if size_ v =? RawMemory.Capacity (data_ v) then
     let* new_data := RawMemory.ctor (if size_ v =? 0 then 1 else wrap (size_ v * 2)) in
     unwind (construct_from (RawMemory.plus new_data index) ctor_args ;;;
             FillBehindIndex this new_data index ;;;
             FillAfterIndex this new_data index ;;;
             destroy_n (RawMemory.GetAddress (data_ v)) (size_ v))
            (RawMemory.dtor new_data) ;;;
     let '(d, new_data') := RawMemory.Swap (data_ v) new_data in
     set_data this d ;;;
     RawMemory.dtor new_data'
   else
     if negb (size_ v =? 0) then
       let* elem := run_init ctor_args in
       let* b := begin this in
       let* e := end_ this in
       let* elem' :=
         unwind (move_construct_at e (RawMemory.at_ (data_ v) (wrap (size_ v - 1))) ;;;
                 move_backward (ptr_add b index) (ptr_add e (-1)) e ;;;
                 move_assign_from (RawMemory.at_ (data_ v) index) elem)
                (log (EvDtor elem)) in
       log (EvDtor elem')
     else
       construct_from (RawMemory.GetAddress (data_ v)) ctor_args) ;;;
  set_size this (wrap (size_ v + 1)) ;;;
  let* b := begin this in
  ret (ptr_add b index).

(** [iterator Insert(const_iterator pos, const T& value)] *)
Definition Insert (this : ref) (pos : ptr) (value : T) : M T ptr :=
  Emplace this pos (InitCopy value).

(** [iterator Insert(const_iterator pos, T&& value)] *)
Definition Insert_rv (this : ref) (pos : ptr) (value : T) : M T ptr :=
  Emplace this pos (InitMove value).

(** [iterator Erase(const_iterator pos)] *)
Definition Erase (this : ref) (pos : ptr) : M T ptr :=
  let* v := get_obj this in
  let* diff := from_option (ptr_diff pos (RawMemory.GetAddress (data_ v))) in
  let index := wrap diff in
  let* b := begin this in
  let* e := end_ this in
  std_move (ptr_add (ptr_add b index) 1) e (ptr_add b index) ;;;
  destroy_at (RawMemory.at_ (data_ v) (wrap (size_ v - 1))) ;;;
  set_size this (wrap (size_ v - 1)) ;;;
  let* b' := begin this in
  ret (ptr_add b' index).

(** [void PopBack() noexcept] *)
Definition PopBack (this : ref) : M T unit :=
  let* v := get_obj this in
  destroy_at (ptr_add (ptr_add (RawMemory.GetAddress (data_ v)) (size_ v)) (-1)) ;;;
  set_size this (wrap (size_ v - 1)).

(** [EmplaceBack(value)] for an lvalue [value], which is passed by
    reference: the instance [EmplaceBack<const T&>].  The argument is
    the address of the referenced object, and the new element is
    copy-constructed from whatever that object holds at the point where
    the code constructs it. *)
Definition EmplaceBack_ref (this : ref) (value : ptr) : M T ptr :=
  let* v := get_obj this in
  (if size_ v =? RawMemory.Capacity (data_ v) then
     let* new_data := RawMemory.ctor (if size_ v =? 0 then 1 else wrap (size_ v * 2)) in
     unwind (FillNewData this new_data 0 0 (size_ v) ;;;
             copy_construct_at (ptr_add (RawMemory.GetAddress new_data) (size_ v)) value ;;;
             destroy_n (RawMemory.GetAddress (data_ v)) (size_ v))
            (RawMemory.dtor new_data) ;;;
     let '(d, new_data') := RawMemory.Swap (data_ v) new_data in
     set_data this d ;;;
     RawMemory.dtor new_data'
   else
     copy_construct_at (ptr_add (RawMemory.GetAddress (data_ v)) (size_ v)) value) ;;;
  set_size this (wrap (size_ v + 1)) ;;;
  let* v' := get_obj this in
  ret (RawMemory.at_ (data_ v') (wrap (size_ v' - 1))).

(** [void PushBack(const T& value)], [value] referring to the object
    at the given address, as in [v.PushBack(v[0])]. *)
Definition PushBack_ref (this : ref) (value : ptr) : M T unit :=
  EmplaceBack_ref this value ;;; ret tt.

End Vector.
End Vector.

(** ** Concrete element types and allocators *)

(** [int]: trivially copyable, nothing throws, a move is a copy. *)
#[export] Instance int_elem : Elem Z := {|
  sizeof := 4;
  sizeof_pos := eq_refl;
  is_nothrow_move_constructible := true;
  is_copy_constructible := true;
  value_ctor := Some 0;
  copy_ctor := fun x => Some x;
  move_ctor := fun x => Some (x, x);
  copy_assign := fun _ s => Some s;
  move_assign := fun _ s => Some (s, s)
|}.

(** A class with a user-declared copy constructor that may throw and no
    move constructor: copyable, not nothrow-move-constructible, and
    [T(std::move(x))] calls the copy constructor.  Copying an object
    whose flag [throw_on_copy] is set throws. *)
Record Fragile := mkFragile { fr_id : Z; throw_on_copy : bool }.

Definition fragile_copy (x : Fragile) : option Fragile :=
  if throw_on_copy x then None else Some x.

Definition fragile_elem : Elem Fragile := {|
  sizeof := 16;
  sizeof_pos := eq_refl;
  is_nothrow_move_constructible := false;
  is_copy_constructible := true;
  value_ctor := Some (mkFragile 0 false);
  copy_ctor := fragile_copy;
  move_ctor := fun x => match fragile_copy x with Some y => Some (y, x) | None => None end;
  copy_assign := fun _ s => fragile_copy s;
  move_assign := fun _ s => match fragile_copy s with Some y => Some (y, s) | None => None end
|}.

(** A string-like class: copyable, with a [noexcept] move constructor
    that leaves its source empty. *)
Definition Str := list nat.

Definition str_elem : Elem Str := {|
  sizeof := 32;
  sizeof_pos := eq_refl;
  is_nothrow_move_constructible := true;
  is_copy_constructible := true;
  value_ctor := Some [];
  copy_ctor := fun x => Some x;
  move_ctor := fun x => Some (x, []);
  copy_assign := fun _ s => Some s;
  move_assign := fun _ s => Some (s, [])
|}.

(** A class whose default constructor throws; its other operations are
    those of [int]. *)
Definition picky_elem : Elem Z := {|
  sizeof := 4;
  sizeof_pos := eq_refl;
  is_nothrow_move_constructible := true;
  is_copy_constructible := true;
  value_ctor := None;
  copy_ctor := fun x => Some x;
  move_ctor := fun x => Some (x, x);
  copy_assign := fun _ s => Some s;
  move_assign := fun _ s => Some (s, s)
|}.

(** An allocator that never fails, and one that supplies at most
    [limit] bytes per request. *)
Definition unbounded : Allocator := {| can_allocate := fun _ => true |}.

Definition bounded (limit : Z) : Allocator := {| can_allocate := fun b => b <=? limit |}.

Definition empty_state {T} : state T := mkState ∅ ∅ [].

(** The outcome and final state of running [m] from [st]. *)
Definition run {T A} (m : M T A) (st : state T) : result A * state T := m st.

(** The sequence of live elements of the vector at [this], when its
    first [size_] slots all hold objects. *)
Definition elements {T} (st : state T) (this : ref) : option (list T) :=
  match objs st !! this with
  | Some v =>
      match buffer_ (data_ v) with
      | nullptr => if decide (size_ v = 0) then Some [] else None
      | Ptr a off =>
          match heap st !! a with
          | Some l =>
              if decide (off = 0) then
                mapM id (take (Z.to_nat (size_ v)) l)
                ≫= fun xs => if decide (length xs = Z.to_nat (size_ v)) then Some xs else None
              else None
          | None => None
          end
      end
  | None => None
  end.

(** ** The class invariant and well-behaved element types *)

Section Invariant.
Context {T : Type} `{Elem T}.

(** The contents of a block of [cap] slots whose first slots hold the
    objects [xs], the others being uninitialised. *)
Definition block_of (xs : list T) (cap : Z) : list (option T) :=
  (Some <$> xs) ++ replicate (Z.to_nat cap - length xs) None.

(** The storage [d] holds exactly the live objects [xs]: they fit in
    its capacity, a null buffer has capacity 0, and otherwise the
    buffer is the start of a block with [xs] in front and
    uninitialised slots behind. *)
Definition owns (st : state T) (d : RawMemory) (xs : list T) : Prop :=
  Z.of_nat (length xs) <= capacity_ d < size_t_mod /\
  match buffer_ d with
  | nullptr => capacity_ d = 0
  | Ptr a off => off = 0 /\ heap st !! a = Some (block_of xs (capacity_ d))
  end.

(** The invariant of the vector at [this], with its abstract value: the
    capacity is [cap], the size is the length of [xs] (so
    [0 <= size <= capacity]), slots [0, size) hold [xs] in order and
    slots [size, capacity) are uninitialised. *)
Definition vec_at (st : state T) (this : ref) (cap : Z) (xs : list T) : Prop :=
  exists buf,
    objs st !! this = Some (mkVector (mkRawMemory buf cap) (Z.of_nat (length xs))) /\
    owns st (mkRawMemory buf cap) xs.

(** The block, if any, that the vector at [this] owns. *)
Definition block_addr (st : state T) (this : ref) : option addr :=
  match objs st !! this with
  | Some v => match buffer_ (data_ v) with Ptr a _ => Some a | nullptr => None end
  | None => None
  end.

(** What [run_init] constructs, and the event it records. *)
Definition init_result (i : init T) : option T :=
  match i with
  | InitCopy x => copy_ctor x
  | InitMove x => fst <$> move_ctor x
  | InitArgs r => r
  end.

Definition init_event (i : init T) (y : T) : event T :=
  match i with
  | InitCopy x => EvCopyCtor x
  | InitMove x => EvMoveCtor x
  | InitArgs _ => EvArgsCtor y
  end.

(** Element types none of whose operations throws and whose copies and
    moves transfer the value. *)
Class Regular := {
  value_ctor_ok : is_Some value_ctor;
  copy_ctor_ok : forall x, copy_ctor x = Some x;
  move_ctor_ok : forall x, exists r, move_ctor x = Some (x, r);
  copy_assign_ok : forall d s, copy_assign d s = Some s;
  move_assign_ok : forall d s, exists r, move_assign d s = Some (s, r)
}.

(** The test of [FillNewData]: relocation moves. *)
Definition relocation_moves : bool :=
  is_nothrow_move_constructible || negb is_copy_constructible.

End Invariant.
Arguments Regular T {_}.

(** The capacity after [k] appends to an empty vector, by the growth
    rule of [EmplaceBack]. *)
Fixpoint capacity_after (k : nat) : Z :=
  match k with
  | O => 0
  | S k' =>
      let c := capacity_after k' in
      if Z.of_nat k' =? c then (if Z.of_nat k' =? 0 then 1 else Z.of_nat k' * 2) else c
  end.

(** [k] appends in a row. *)
Fixpoint emplace_all {T} `{Elem T} `{Allocator} (this : ref) (args : list (init T)) : M T unit :=
  match args with
  | [] => ret tt
  | i :: args' => Vector.EmplaceBack this i ;;; emplace_all this args'
  end.

(** One append to a vector: [PushBack(const T&)] of the object at an
    address, or [PushBack(const T&)], [PushBack(T&&)] and
    [EmplaceBack(args...)] with arguments outside the modelled heap. *)
Inductive append (T : Type) :=
| PushBackRef (value : ptr)
| PushBackCopy (value : T)
| PushBackMove (value : T)
| EmplaceBackArgs (ctor_args : init T).
Arguments PushBackRef {T} value.
Arguments PushBackCopy {T} value.
Arguments PushBackMove {T} value.
Arguments EmplaceBackArgs {T} ctor_args.

Section Appending.
Context {T : Type} `{Elem T} `{Allocator}.

Definition run_append (this : ref) (op : append T) : M T unit :=
  match op with
  | PushBackRef value => Vector.PushBack_ref this value
  | PushBackCopy value => Vector.PushBack this value
  | PushBackMove value => Vector.PushBack_rv this value
  | EmplaceBackArgs ctor_args => Vector.EmplaceBack this ctor_args ;;; ret tt
  end.

Fixpoint run_appends (this : ref) (ops : list (append T)) : M T unit :=
  match ops with
  | [] => ret tt
  | op :: ops' => run_append this op ;;; run_appends this ops'
  end.

(** The live object that [p] points to in [st], if any. *)
Definition object_at (st : state T) (p : ptr) : option T :=
  match slots_of st p with
  | Some (l, i) => match l !! i with Some (Some x) => Some x | _ => None end
  | None => None
  end.

(** The value that an append constructs from its argument, a
    reference being read in [st]. *)
Definition append_value (st : state T) (op : append T) : option T :=
  match op with
  | PushBackRef value =>
      match object_at st value with Some x => copy_ctor x | None => None end
  | PushBackCopy value => copy_ctor value
  | PushBackMove value => fst <$> move_ctor value
  | EmplaceBackArgs ctor_args => init_result ctor_args
  end.

(** Relocating the object [x] by the rule of [FillNewData] does not
    fail and transfers its value. *)
Definition relocation_preserves (x : T) : Prop :=
  if relocation_moves then exists r, move_ctor x = Some (x, r)
  else copy_ctor x = Some x.

End Appending.

Section Relocation.
Context {T : Type} `{Elem T}.

(** Relocating the objects [xs] by the rule of [FillNewData] succeeds,
    constructs [zs] and leaves [rs] in the sources: by moves when
    [relocation_moves], by copies otherwise. *)
Definition relocated (xs zs rs : list T) : Prop :=
  if relocation_moves
  then exists zrs : list (T * T),
         Forall2 (fun y zr => move_ctor y = Some zr) xs zrs /\ zs = zrs.*1 /\ rs = zrs.*2
  else Forall2 (fun y z => copy_ctor y = Some z) xs zs /\ rs = xs.

(** The events of such a relocation. *)
Definition relocation_events (xs : list T) : list (event T) :=
  if relocation_moves then EvMoveCtor <$> xs else EvCopyCtor <$> xs.

End Relocation.

(** The capacity that an append leaves behind: [(size_ == 0 ? 1 : size_ * 2)]
    when the vector is full. *)
Definition grown (size cap : Z) : Z :=
  if size =? cap then (if size =? 0 then 1 else size * 2) else cap.

(** The events of a copy assignment of [ys] to the vector at [this],
    which holds [xs] in storage of capacity [cap]: either a fresh copy
    is built and the old contents are destroyed and released, or the
    common prefix is assigned and then the rest of [ys] is
    copy-constructed or the rest of [xs] destroyed. *)
Definition assign_events {T} `{Elem T} (st : state T) (this : ref) (cap : Z)
    (xs ys : list T) : list (event T) :=
  if cap <? Z.of_nat (length ys) then
    [EvNew (fresh (dom (heap st))) (Z.of_nat (length ys) * sizeof)]
      ++ (EvCopyCtor <$> ys) ++ (EvDtor <$> xs)
      ++ match block_addr st this with Some a => [EvDelete a] | None => [] end
  else
    zip_with EvCopyAssign xs ys
      ++ (EvCopyCtor <$> drop (length xs) ys)
      ++ (EvDtor <$> drop (length ys) xs).

(** ** Scenarios *)

Module Scenario.

(** A [Vector<Fragile>] with two elements in storage for exactly two,
    the first of which throws when copied. *)
Definition a_bad : Fragile := mkFragile 1 true.
Definition b_ok : Fragile := mkFragile 2 false.
Definition c_new : Fragile := mkFragile 3 false.

Definition fragile_full : M Fragile unit :=
  let _ := fragile_elem in
  let _ := unbounded in
  Vector.ctor_default 0%nat ;;;
  Vector.Reserve 0%nat 2 ;;;
  Vector.EmplaceBack 0%nat (InitArgs (Some a_bad)) ;;;
  Vector.EmplaceBack 0%nat (InitArgs (Some b_ok)) ;;;
  ret tt.

(** [v.Emplace(v.begin() + 1, c_new)] *)
Definition fragile_emplace : M Fragile ptr :=
  let _ := fragile_elem in
  let _ := unbounded in
  let* b := Vector.begin 0%nat in
  Vector.Emplace 0%nat (ptr_add b 1) (InitArgs (Some c_new)).

(** A [Vector<int>] holding 1, 2, 3 in storage for four. *)
Definition int_123 : M Z unit :=
  let _ := unbounded in
  Vector.ctor_default 0%nat ;;;
  Vector.Reserve 0%nat 4 ;;;
  Vector.PushBack 0%nat 1 ;;;
  Vector.PushBack 0%nat 2 ;;;
  Vector.PushBack 0%nat 3.

(** [v.Insert(v.begin() + index, value)] *)
Definition int_insert (index value : Z) : M Z ptr :=
  let _ := unbounded in
  let* b := Vector.begin 0%nat in
  Vector.Insert 0%nat (ptr_add b index) value.

(** [v.Erase(v.begin() + index)] *)
Definition int_erase (index : Z) : M Z ptr :=
  let _ := unbounded in
  let* b := Vector.begin 0%nat in
  Vector.Erase 0%nat (ptr_add b index).

(** Three strings. *)
Definition s1 : Str := [1; 2]%nat.
Definition s2 : Str := [3]%nat.
Definition s3 : Str := [4; 5; 6]%nat.

(** A [Vector<Str>] holding [s1], [s2] in storage for four. *)
Definition str_12 : M Str unit :=
  let _ := str_elem in
  let _ := unbounded in
  Vector.ctor_default 0%nat ;;;
  Vector.Reserve 0%nat 4 ;;;
  Vector.PushBack 0%nat s1 ;;;
  Vector.PushBack 0%nat s2.

(** [v.Insert(v.end(), s3)] *)
Definition str_insert_at_end : M Str ptr :=
  let _ := str_elem in
  let _ := unbounded in
  let* e := Vector.end_ 0%nat in
  Vector.Insert 0%nat e s3.

(** The array behind the list [{s1, s2}], and the construction
    [Vector<Str> v{s1, s2}]. *)
Definition list_array : state Str :=
  mkState {[ 0%nat := [Some s1; Some s2] ]} ∅ [].

Definition str_from_list : M Str unit :=
  let _ := str_elem in
  let _ := unbounded in
  Vector.ctor_list 0%nat (mkList (Ptr 0%nat 0) 2).

(** The array behind the list [{1, 2, 3}], and the construction
    [Vector<int> v{1, 2, 3}]. *)
Definition int_list_array : state Z :=
  mkState {[ 0%nat := [Some 1; Some 2; Some 3] ]} ∅ [].

Definition int_from_list : M Z unit :=
  let _ := unbounded in
  Vector.ctor_list 0%nat (mkList (Ptr 0%nat 0) 3).

(** Two vectors of [int]: the one at 0 holds 1, 2, 3 in storage for
    four, the one at 1 holds 7, 8 in storage for two. *)
Definition two_vectors : M Z unit :=
  let _ := unbounded in
  Vector.ctor_default 0%nat ;;;
  Vector.Reserve 0%nat 4 ;;;
  Vector.PushBack 0%nat 1 ;;;
  Vector.PushBack 0%nat 2 ;;;
  Vector.PushBack 0%nat 3 ;;;
  Vector.ctor_default 1%nat ;;;
  Vector.PushBack 1%nat 7 ;;;
  Vector.PushBack 1%nat 8.

(** The state in which both exist. *)
Definition st2 : state Z := (run two_vectors empty_state).2.

(** A [Vector<Fragile>] with two elements in storage for exactly two,
    the second of which throws when copied. *)
Definition fragile_second_bad : M Fragile unit :=
  let _ := fragile_elem in
  let _ := unbounded in
  Vector.ctor_default 0%nat ;;;
  Vector.Reserve 0%nat 2 ;;;
  Vector.EmplaceBack 0%nat (InitArgs (Some b_ok)) ;;;
  Vector.EmplaceBack 0%nat (InitArgs (Some a_bad)) ;;;
  ret tt.

(** [Vector<Str> v; v.PushBack(s1); v.PushBack(v[0]);] *)
Definition push_own_first : M Str unit :=
  let _ := str_elem in
  let _ := unbounded in
  Vector.ctor_default 0%nat ;;;
  Vector.PushBack 0%nat s1 ;;;
  let* p := Vector.at_ 0%nat 0 in
  Vector.PushBack_ref 0%nat p.

(** A [Vector<Fragile>] with three elements in storage for exactly
    three, the last of which throws when copied. *)
Definition fragile_third_bad : M Fragile unit :=
  let _ := fragile_elem in
  let _ := unbounded in
  Vector.ctor_default 0%nat ;;;
  Vector.Reserve 0%nat 3 ;;;
  Vector.EmplaceBack 0%nat (InitArgs (Some b_ok)) ;;;
  Vector.EmplaceBack 0%nat (InitArgs (Some c_new)) ;;;
  Vector.EmplaceBack 0%nat (InitArgs (Some a_bad)) ;;;
  ret tt.

(** A [Vector<Str>] holding [s1], [s2] in storage for exactly two. *)
Definition str_full : M Str unit :=
  let _ := str_elem in
  let _ := unbounded in
  Vector.ctor_default 0%nat ;;;
  Vector.PushBack 0%nat s1 ;;;
  Vector.PushBack 0%nat s2.

(** An empty [Vector<int>] with storage for four. *)
Definition int_reserved : M Z unit :=
  let _ := unbounded in
  Vector.ctor_default 0%nat ;;;
  Vector.Reserve 0%nat 4.

(** A vector of the class without default constructor, holding 5, 6 in
    storage for two. *)
Definition picky_56 : M Z unit :=
  let _ := picky_elem in
  let _ := unbounded in
  Vector.ctor_default 0%nat ;;;
  Vector.PushBack 0%nat 5 ;;;
  Vector.PushBack 0%nat 6.

End Scenario.

(** [int] and [Str] are regular. *)
#[export] Instance int_regular : @Regular Z int_elem.
Proof. split; cbn; eauto. Qed.

Definition str_regular : @Regular Str str_elem.
Proof. split; cbn; eauto. Qed.

(** * Reasoning about runs *)

Section Runs.
Context {T : Type}.

Lemma run_bind_ok {A B} (m : M T A) (k : A -> M T B) st a st1 :
  run m st = (Ok a, st1) -> run (bind m k) st = run (k a) st1.
Proof. unfold run, bind. by intros ->. Qed.

Lemma run_bind_throw {A B} (m : M T A) (k : A -> M T B) st e st1 :
  run m st = (Throw e, st1) -> run (bind m k) st = (Throw e, st1).
Proof. unfold run, bind. by intros ->. Qed.

Lemma run_bind_assoc {A B C} (m : M T A) (k : A -> M T B) (k' : B -> M T C) st :
  run (bind (bind m k) k') st = run (bind m (fun x => bind (k x) k')) st.
Proof. unfold run, bind. by destruct (m st) as [[] ?]. Qed.

Lemma run_try_ok {A} (m : M T A) h st a st1 :
  run m st = (Ok a, st1) -> run (try_catch m h) st = (Ok a, st1).
Proof. unfold run, try_catch. by intros ->. Qed.

Lemma run_try_throw {A} (m : M T A) h st e st1 :
  run m st = (Throw e, st1) -> run (try_catch m h) st = run (h e) st1.
Proof. unfold run, try_catch. by intros ->. Qed.

Lemma run_unwind_ok {A} (m : M T A) c st a st1 :
  run m st = (Ok a, st1) -> run (unwind m c) st = (Ok a, st1).
Proof. apply run_try_ok. Qed.

Lemma run_unwind_throw {A} (m : M T A) c st e st1 st2 :
  run m st = (Throw e, st1) -> run c st1 = (Ok tt, st2) ->
  run (unwind m c) st = (Throw e, st2).
Proof.
  intros Hm Hc. unfold unwind. rewrite (run_try_throw _ _ _ _ _ Hm).
  by rewrite (run_bind_ok _ _ _ _ _ Hc).
Qed.

Lemma run_ret {A} (a : A) (st : state T) : run (ret a) st = (Ok a, st).
Proof. done. Qed.

Lemma run_log (e : event T) st :
  run (log e) st = (Ok tt, mkState (heap st) (objs st) (trace st ++ [e])).
Proof. done. Qed.

End Runs.

Lemma size_t_mod_pos : 0 < size_t_mod.
Proof. done. Qed.

Lemma wrap_small z : 0 <= z < size_t_mod -> wrap z = z.
Proof. intros. unfold wrap. by apply Z.mod_small. Qed.

Section Prims.
Context {T : Type} `{Elem T} `{Allocator}.

Lemma slots_of_nat (st : state T) a (i : nat) l :
  heap st !! a = Some l -> slots_of st (Ptr a (Z.of_nat i)) = Some (l, i).
Proof.
  intros Ha. unfold slots_of. rewrite Ha.
  destruct (Z.ltb_spec (Z.of_nat i) 0); [lia|]. by rewrite Nat2Z.id.
Qed.

Lemma run_load (st : state T) a (i : nat) l x :
  heap st !! a = Some l -> l !! i = Some (Some x) ->
  run (load (Ptr a (Z.of_nat i))) st = (Ok x, st).
Proof.
  intros Ha Hi. unfold run, load. rewrite (slots_of_nat _ _ _ _ Ha). by rewrite Hi.
Qed.

Lemma run_set_slot (st : state T) a (i : nat) l v :
  heap st !! a = Some l ->
  run (set_slot (Ptr a (Z.of_nat i)) v) st
  = (Ok tt, mkState (<[a := <[i := v]> l]> (heap st)) (objs st) (trace st)).
Proof.
  intros Ha. unfold run, set_slot. by rewrite (slots_of_nat _ _ _ _ Ha).
Qed.

Lemma run_store (st : state T) a (i : nat) l x y :
  heap st !! a = Some l -> l !! i = Some (Some x) ->
  run (store (Ptr a (Z.of_nat i)) y) st
  = (Ok tt, mkState (<[a := <[i := Some y]> l]> (heap st)) (objs st) (trace st)).
Proof.
  intros Ha Hi. unfold store.
  rewrite (run_bind_ok _ _ _ _ _ (run_load _ _ _ _ _ Ha Hi)).
  by apply run_set_slot.
Qed.

Lemma run_construct (st : state T) a (i : nat) l y :
  heap st !! a = Some l -> (i < length l)%nat ->
  run (construct (Ptr a (Z.of_nat i)) y) st
  = (Ok tt, mkState (<[a := <[i := Some y]> l]> (heap st)) (objs st) (trace st)).
Proof.
  intros Ha Hi. unfold run, construct. rewrite (slots_of_nat _ _ _ _ Ha).
  rewrite decide_True by done. by apply run_set_slot.
Qed.

Lemma run_destroy_at (st : state T) a (i : nat) l x :
  heap st !! a = Some l -> l !! i = Some (Some x) ->
  run (destroy_at (Ptr a (Z.of_nat i))) st
  = (Ok tt, mkState (<[a := <[i := None]> l]> (heap st)) (objs st) (trace st ++ [EvDtor x])).
Proof.
  intros Ha Hi. unfold destroy_at.
  rewrite (run_bind_ok _ _ _ _ _ (run_load _ _ _ _ _ Ha Hi)).
  rewrite (run_bind_ok _ _ _ _ _ (run_log _ _)).
  by rewrite (run_set_slot _ _ _ l).
Qed.

End Prims.

(** * List shapes and the loops of the standard algorithms *)

Section ListShapes.
Context {A : Type}.
Implicit Types (pre post : list A).

Lemma lookup_at_pre pre x post : (pre ++ x :: post) !! length pre = Some x.
Proof. by rewrite list_lookup_middle. Qed.

Lemma insert_at_pre pre x y post :
  <[length pre := y]> (pre ++ x :: post) = pre ++ y :: post.
Proof. by rewrite insert_app_r_alt, Nat.sub_diag by lia. Qed.

Lemma snoc_app pre x post : (pre ++ [x]) ++ post = pre ++ x :: post.
Proof. by rewrite <- app_assoc. Qed.

End ListShapes.

(** Equality of heaps built from insertions and deletions. *)
Ltac heap_eq :=
  apply map_eq; intros ?;
  rewrite ?lookup_insert, ?lookup_delete;
  repeat case_decide; subst; congruence.

Section Loops.
Context {T : Type} `{Elem T} `{Allocator}.
Implicit Types (st : state T) (ys zs : list T) (pre post : list (option T)).

Lemma of_nat_snoc {A} (pre : list A) x :
  Z.of_nat (length pre) + 1 = Z.of_nat (length (pre ++ [x])).
Proof. rewrite length_app. simpl. lia. Qed.

Lemma run_destroy_loop ys : forall pre post st a,
  heap st !! a = Some (pre ++ (Some <$> ys) ++ post) ->
  run (destroy_loop (Ptr a (Z.of_nat (length pre))) (length ys)) st
  = (Ok tt, mkState (<[a := pre ++ replicate (length ys) None ++ post]> (heap st))
                    (objs st) (trace st ++ (EvDtor <$> ys))).
Proof.
  induction ys as [|y ys IH]; intros pre post st a Ha.
  - simpl. rewrite app_nil_r. rewrite insert_id by done. by destruct st.
  - rewrite fmap_cons in *. simpl in *.
    rewrite (run_bind_ok _ _ _ _ _ (run_destroy_at _ _ _ _ y Ha (lookup_at_pre _ _ _))).
    rewrite insert_at_pre, (of_nat_snoc pre None).
    rewrite (IH (pre ++ [None]) post); simpl.
    + rewrite insert_insert_eq, snoc_app, <- app_assoc. done.
    + rewrite lookup_insert_eq, snoc_app. done.
Qed.

Lemma run_copy_construct_at st a b (i j : nat) la lb x y :
  a <> b -> heap st !! a = Some la -> heap st !! b = Some lb ->
  la !! i = Some (Some x) -> (j < length lb)%nat -> copy_ctor x = Some y ->
  run (copy_construct_at (Ptr b (Z.of_nat j)) (Ptr a (Z.of_nat i))) st
  = (Ok tt, mkState (<[b := <[j := Some y]> lb]> (heap st)) (objs st)
                    (trace st ++ [EvCopyCtor x])).
Proof.
  intros Hab Ha Hb Hi Hj Hc. unfold copy_construct_at.
  rewrite (run_bind_ok _ _ _ _ _ (run_load _ _ _ _ _ Ha Hi)), Hc.
  rewrite (run_bind_ok _ _ _ _ _ (run_log _ _)).
  by rewrite (run_construct _ _ _ lb).
Qed.

Lemma run_copy_construct_at_throw st a (i : nat) la x dst :
  heap st !! a = Some la -> la !! i = Some (Some x) -> copy_ctor x = None ->
  run (copy_construct_at dst (Ptr a (Z.of_nat i))) st = (Throw elem_exn, st).
Proof.
  intros Ha Hi Hc. unfold copy_construct_at.
  by rewrite (run_bind_ok _ _ _ _ _ (run_load _ _ _ _ _ Ha Hi)), Hc.
Qed.

Lemma run_move_construct_at st a b (i j : nat) la lb x y r :
  a <> b -> heap st !! a = Some la -> heap st !! b = Some lb ->
  la !! i = Some (Some x) -> (j < length lb)%nat -> move_ctor x = Some (y, r) ->
  run (move_construct_at (Ptr b (Z.of_nat j)) (Ptr a (Z.of_nat i))) st
  = (Ok tt, mkState (<[b := <[j := Some y]> lb]> (<[a := <[i := Some r]> la]> (heap st)))
                    (objs st) (trace st ++ [EvMoveCtor x])).
Proof.
  intros Hab Ha Hb Hi Hj Hc. unfold move_construct_at.
  rewrite (run_bind_ok _ _ _ _ _ (run_load _ _ _ _ _ Ha Hi)), Hc.
  rewrite (run_bind_ok _ _ _ _ _ (run_log _ _)).
  erewrite run_bind_ok; [|by eapply (run_store _ _ _ la x r)].
  rewrite (run_construct _ _ _ lb); [done| |done].
  simpl. by rewrite lookup_insert_ne.
Qed.

Lemma length_mid pre post (n : nat) (mid : list (option T)) :
  length mid = S n -> (length pre < length (pre ++ mid ++ post))%nat.
Proof. intros. rewrite !length_app. lia. Qed.

(** The loops of [std::uninitialized_..._n] when every constructor
    succeeds. *)
Lemma run_construct_loop_copy ys zs :
  Forall2 (fun y z => copy_ctor y = Some z) ys zs ->
  forall result k spre spost pre post st a b,
  a <> b ->
  heap st !! a = Some (spre ++ (Some <$> ys) ++ spost) ->
  heap st !! b = Some (pre ++ replicate (length ys) None ++ post) ->
  run (construct_loop copy_construct_at result k (Ptr a (Z.of_nat (length spre)))
         (Ptr b (Z.of_nat (length pre))) (length ys)) st
  = (Ok tt, mkState (<[b := pre ++ (Some <$> zs) ++ post]> (heap st)) (objs st)
                    (trace st ++ (EvCopyCtor <$> ys))).
Proof.
  induction 1 as [|y z ys zs Hy Hys IH]; intros result k spre spost pre post st a b Hab Ha Hb.
  - simpl in *. rewrite app_nil_r, insert_id by done. by destruct st.
  - rewrite fmap_cons in *. cbn [length construct_loop replicate app ptr_add] in *.
    rewrite (run_bind_ok _ _ _ _ _
      (run_unwind_ok _ _ _ _ _
        (run_copy_construct_at _ _ _ _ _ _ _ y z Hab Ha Hb (lookup_at_pre _ _ _)
           (length_mid pre post (length ys) (None :: replicate (length ys) None)
              ltac:(by rewrite length_cons, length_replicate)) Hy))).
    rewrite insert_at_pre, (of_nat_snoc pre (Some z)), (of_nat_snoc spre (Some y)).
    rewrite (IH _ _ (spre ++ [Some y]) spost (pre ++ [Some z]) post); cbn [heap objs trace].
    + rewrite insert_insert_eq, snoc_app, <- app_assoc. done.
    + done.
    + rewrite lookup_insert_ne by done. by rewrite snoc_app.
    + rewrite lookup_insert_eq. by rewrite snoc_app.
Qed.

Lemma run_uninitialized_copy ys zs :
  Forall2 (fun y z => copy_ctor y = Some z) ys zs ->
  forall spre spost pre post st a b,
  a <> b ->
  heap st !! a = Some (spre ++ (Some <$> ys) ++ spost) ->
  heap st !! b = Some (pre ++ replicate (length ys) None ++ post) ->
  run (uninitialized_loop copy_construct_at (Ptr a (Z.of_nat (length spre)))
         (Ptr b (Z.of_nat (length pre))) (length ys)) st
  = (Ok tt, mkState (<[b := pre ++ (Some <$> zs) ++ post]> (heap st)) (objs st)
                    (trace st ++ (EvCopyCtor <$> ys))).
Proof. intros Hall *. by apply run_construct_loop_copy. Qed.

(** The copying loop when the copy of [y] throws, [ds] having been
    constructed before the loop is entered at [cur]: all objects from
    [result] on are destroyed, front to back. *)
Lemma run_construct_loop_copy_throw ys zs y ys2 :
  Forall2 (fun y z => copy_ctor y = Some z) ys zs ->
  copy_ctor y = None ->
  forall ds spre spost pre post st a b,
  a <> b ->
  heap st !! a = Some (spre ++ (Some <$> ys ++ y :: ys2) ++ spost) ->
  heap st !! b = Some (pre ++ (Some <$> ds)
                         ++ replicate (length (ys ++ y :: ys2)) None ++ post) ->
  run (construct_loop copy_construct_at (Ptr b (Z.of_nat (length pre))) (length ds)
         (Ptr a (Z.of_nat (length spre)))
         (Ptr b (Z.of_nat (length (pre ++ (Some <$> ds)))))
         (length (ys ++ y :: ys2))) st
  = (Throw elem_exn,
     mkState (<[b := pre ++ replicate (length ds) None
                       ++ replicate (length (ys ++ y :: ys2)) None ++ post]> (heap st))
             (objs st)
             (trace st ++ (EvCopyCtor <$> ys) ++ (EvDtor <$> ds ++ zs))).
Proof.
  intros Hall Hy.
  induction Hall as [|y1 z1 ys zs Hy1 Hys IH]; intros ds spre spost pre post st a b Hab Ha Hb.
  - rewrite app_nil_l, fmap_cons in *. cbn [app length construct_loop] in *.
    erewrite run_bind_throw; cycle 1.
    { eapply run_unwind_throw.
      - apply (run_copy_construct_at_throw _ _ _ _ y _ Ha (lookup_at_pre _ _ _) Hy).
      - apply (run_destroy_loop ds pre _ st b Hb). }
    by rewrite app_nil_r.
  - rewrite <- app_comm_cons, fmap_cons in *.
    cbn [app length construct_loop replicate ptr_add] in *.
    rewrite app_assoc in Hb.
    erewrite run_bind_ok; cycle 1.
    { apply run_unwind_ok.
      apply (run_copy_construct_at _ _ _ _ _ _ _ y1 z1 Hab Ha Hb (lookup_at_pre _ _ _)).
      - rewrite !length_app. cbn [length]. lia.
      - exact Hy1. }
    rewrite insert_at_pre, (of_nat_snoc (pre ++ (Some <$> ds)) (Some z1)),
      (of_nat_snoc spre (Some y1)).
    replace (S (length ds)) with (length (ds ++ [z1]))
      by (rewrite length_app; cbn [length]; lia).
    replace ((pre ++ (Some <$> ds)) ++ [Some z1]) with (pre ++ (Some <$> ds ++ [z1]))
      by (by rewrite fmap_app, app_assoc).
    rewrite (IH (ds ++ [z1]) (spre ++ [Some y1]) spost pre post); cbn [heap objs trace].
    + rewrite insert_insert_eq. f_equal. f_equal.
      * do 2 f_equal. rewrite length_app. cbn [length].
        rewrite replicate_add. cbn [replicate]. by rewrite <- app_assoc.
      * rewrite <- !app_assoc. cbn [app fmap list_fmap]. done.
    + done.
    + rewrite lookup_insert_ne by done. by rewrite snoc_app.
    + rewrite lookup_insert_eq. f_equal.
      rewrite fmap_app, <- !app_assoc. done.
Qed.

Lemma run_uninitialized_copy_throw ys zs y ys2 :
  Forall2 (fun y z => copy_ctor y = Some z) ys zs ->
  copy_ctor y = None ->
  forall spre spost pre post st a b,
  a <> b ->
  heap st !! a = Some (spre ++ (Some <$> ys ++ y :: ys2) ++ spost) ->
  heap st !! b = Some (pre ++ replicate (length (ys ++ y :: ys2)) None ++ post) ->
  run (uninitialized_loop copy_construct_at (Ptr a (Z.of_nat (length spre)))
         (Ptr b (Z.of_nat (length pre))) (length (ys ++ y :: ys2))) st
  = (Throw elem_exn,
     mkState (heap st) (objs st)
             (trace st ++ (EvCopyCtor <$> ys) ++ (EvDtor <$> zs))).
Proof.
  intros Hall Hy spre spost pre post st a b Hab Ha Hb. unfold uninitialized_loop.
  pose proof (run_construct_loop_copy_throw ys zs y ys2 Hall Hy [] spre spost pre post
                st a b Hab Ha) as Hrun.
  cbn [fmap list_fmap app length replicate] in Hrun. rewrite app_nil_r in Hrun.
  rewrite (Hrun Hb). by rewrite insert_id.
Qed.

Lemma run_construct_loop_move ys (zrs : list (T * T)) :
  Forall2 (fun y zr => move_ctor y = Some zr) ys zrs ->
  forall result k spre spost pre post st a b,
  a <> b ->
  heap st !! a = Some (spre ++ (Some <$> ys) ++ spost) ->
  heap st !! b = Some (pre ++ replicate (length ys) None ++ post) ->
  run (construct_loop move_construct_at result k (Ptr a (Z.of_nat (length spre)))
         (Ptr b (Z.of_nat (length pre))) (length ys)) st
  = (Ok tt, mkState (<[b := pre ++ (Some <$> zrs.*1) ++ post]>
                       (<[a := spre ++ (Some <$> zrs.*2) ++ spost]> (heap st)))
                    (objs st) (trace st ++ (EvMoveCtor <$> ys))).
Proof.
  induction 1 as [|y [z r] ys zrs Hy Hys IH];
    intros result k spre spost pre post st a b Hab Ha Hb.
  - simpl in *. rewrite app_nil_r, !insert_id; [by destruct st|done|].
    by rewrite lookup_insert_ne.
  - rewrite !fmap_cons in *. cbn [length construct_loop replicate app ptr_add fst snd] in *.
    rewrite (run_bind_ok _ _ _ _ _
      (run_unwind_ok _ _ _ _ _
        (run_move_construct_at _ _ _ _ _ _ _ y z r Hab Ha Hb (lookup_at_pre _ _ _)
           (length_mid pre post (length ys) (None :: replicate (length ys) None)
              ltac:(by rewrite length_cons, length_replicate)) Hy))).
    rewrite !insert_at_pre, (of_nat_snoc pre (Some z)), (of_nat_snoc spre (Some r)).
    rewrite (IH _ _ (spre ++ [Some r]) spost (pre ++ [Some z]) post); cbn [heap objs trace].
    + rewrite !snoc_app. do 2 f_equal. heap_eq.
    + done.
    + rewrite lookup_insert_ne by done. rewrite lookup_insert_eq. by rewrite snoc_app.
    + rewrite lookup_insert_eq. by rewrite snoc_app.
Qed.

Lemma run_uninitialized_move ys (zrs : list (T * T)) :
  Forall2 (fun y zr => move_ctor y = Some zr) ys zrs ->
  forall spre spost pre post st a b,
  a <> b ->
  heap st !! a = Some (spre ++ (Some <$> ys) ++ spost) ->
  heap st !! b = Some (pre ++ replicate (length ys) None ++ post) ->
  run (uninitialized_loop move_construct_at (Ptr a (Z.of_nat (length spre)))
         (Ptr b (Z.of_nat (length pre))) (length ys)) st
  = (Ok tt, mkState (<[b := pre ++ (Some <$> zrs.*1) ++ post]>
                       (<[a := spre ++ (Some <$> zrs.*2) ++ spost]> (heap st)))
                    (objs st) (trace st ++ (EvMoveCtor <$> ys))).
Proof. intros Hall *. by apply run_construct_loop_move. Qed.

End Loops.

(** * Vector objects, raw storage and relocation *)

Section Objects.
Context {T : Type} `{Elem T} `{Allocator}.
Implicit Types (st : state T) (xs ys zs rs : list T).

Lemma run_get_obj st this v :
  objs st !! this = Some v -> run (Vector.get_obj this) st = (Ok v, st).
Proof. intros Hv. unfold run, Vector.get_obj. by rewrite Hv. Qed.

Lemma run_set_obj st this v :
  run (Vector.set_obj this v) st
  = (Ok tt, mkState (heap st) (<[this := v]> (objs st)) (trace st)).
Proof. done. Qed.

Lemma run_set_size st this v n :
  objs st !! this = Some v ->
  run (Vector.set_size this n) st
  = (Ok tt, mkState (heap st) (<[this := mkVector (data_ v) n]> (objs st)) (trace st)).
Proof.
  intros Hv. unfold Vector.set_size. by rewrite (run_bind_ok _ _ _ _ _ (run_get_obj _ _ _ Hv)).
Qed.

Lemma run_set_data st this v d :
  objs st !! this = Some v ->
  run (Vector.set_data this d) st
  = (Ok tt, mkState (heap st) (<[this := mkVector d (size_ v)]> (objs st)) (trace st)).
Proof.
  intros Hv. unfold Vector.set_data. by rewrite (run_bind_ok _ _ _ _ _ (run_get_obj _ _ _ Hv)).
Qed.

Lemma run_begin st this v :
  objs st !! this = Some v -> run (Vector.begin this) st = (Ok (buffer_ (data_ v)), st).
Proof.
  intros Hv. unfold Vector.begin. by rewrite (run_bind_ok _ _ _ _ _ (run_get_obj _ _ _ Hv)).
Qed.

Lemma run_end st this v :
  objs st !! this = Some v ->
  run (Vector.end_ this) st = (Ok (ptr_add (buffer_ (data_ v)) (size_ v)), st).
Proof.
  intros Hv. unfold Vector.end_. by rewrite (run_bind_ok _ _ _ _ _ (run_get_obj _ _ _ Hv)).
Qed.

Lemma fresh_block st : heap st !! fresh (dom (heap st)) = None.
Proof. apply not_elem_of_dom, is_fresh. Qed.

Lemma run_RawMemory_ctor st n :
  0 < n -> n * sizeof < size_t_mod -> can_allocate (n * sizeof) = true ->
  run (RawMemory.ctor n) st
  = (Ok (mkRawMemory (Ptr (fresh (dom (heap st))) 0) n),
     mkState (<[fresh (dom (heap st)) := replicate (Z.to_nat n) None]> (heap st))
             (objs st) (trace st ++ [EvNew (fresh (dom (heap st))) (n * sizeof)])).
Proof.
  intros Hn Hlt Hcan. unfold run, RawMemory.ctor, RawMemory.Allocate, bind, operator_new.
  destruct (Z.eqb_spec n 0); [lia|].
  pose proof sizeof_pos.
  rewrite wrap_small by nia. rewrite Hcan. rewrite Z.div_mul by lia. done.
Qed.

Lemma run_RawMemory_ctor_bad_alloc st n :
  0 < n -> can_allocate (wrap (n * sizeof)) = false ->
  run (RawMemory.ctor n) st = (Throw bad_alloc, st).
Proof.
  intros Hn Hcan. unfold run, RawMemory.ctor, RawMemory.Allocate, bind, operator_new.
  destruct (Z.eqb_spec n 0); [lia|]. by rewrite Hcan.
Qed.

Lemma run_RawMemory_dtor st a l cap :
  heap st !! a = Some l ->
  run (RawMemory.dtor (mkRawMemory (Ptr a 0) cap)) st
  = (Ok tt, mkState (delete a (heap st)) (objs st) (trace st ++ [EvDelete a])).
Proof.
  intros Ha. unfold run, RawMemory.dtor, RawMemory.Deallocate, operator_delete. simpl.
  by rewrite Ha.
Qed.

Lemma run_RawMemory_dtor_null st cap :
  run (RawMemory.dtor (mkRawMemory nullptr cap)) st = (Ok tt, st).
Proof. done. Qed.

Lemma relocated_length xs zs rs :
  relocated xs zs rs -> length zs = length xs /\ length rs = length xs.
Proof.
  unfold relocated. destruct relocation_moves.
  - intros (zrs & Hall & -> & ->). rewrite !length_fmap.
    apply Forall2_length in Hall. lia.
  - intros [Hall ->]. apply Forall2_length in Hall. lia.
Qed.

Lemma relocated_regular `{!Regular T} xs : exists rs, relocated xs xs rs.
Proof.
  unfold relocated. destruct relocation_moves.
  - induction xs as [|x xs (rs & zrs & Hall & Hz & Hr)].
    + exists [], []. by repeat split.
    + destruct (move_ctor_ok x) as [r Hx].
      exists (r :: rs), ((x, r) :: zrs). repeat split.
      * by constructor.
      * simpl. by f_equal.
      * simpl. by f_equal.
  - exists xs. split; [|done]. induction xs; constructor; auto using copy_ctor_ok.
Qed.

Lemma block_of_length xs cap :
  Z.of_nat (length xs) <= cap -> length (block_of xs cap) = Z.to_nat cap.
Proof. intros. unfold block_of. rewrite length_app, length_fmap, length_replicate. lia. Qed.

(** Relocation of a run of live elements into free slots of another
    block. *)
Lemma run_FillNewData st this a b cap capb size xs zs rs spre spost pre post :
  objs st !! this = Some (mkVector (mkRawMemory (Ptr a 0) cap) size) ->
  heap st !! a = Some (spre ++ (Some <$> xs) ++ spost) ->
  heap st !! b = Some (pre ++ replicate (length xs) None ++ post) ->
  a <> b ->
  relocated xs zs rs ->
  run (Vector.FillNewData this (mkRawMemory (Ptr b 0) capb)
         (Z.of_nat (length spre)) (Z.of_nat (length pre)) (Z.of_nat (length xs))) st
  = (Ok tt, mkState (<[b := pre ++ (Some <$> zs) ++ post]>
                       (<[a := spre ++ (Some <$> rs) ++ spost]> (heap st)))
                    (objs st) (trace st ++ relocation_events xs)).
Proof.
  intros Hthis Ha Hb Hab Hrel. unfold Vector.FillNewData.
  rewrite (run_bind_ok _ _ _ _ _ (run_get_obj _ _ _ Hthis)).
  unfold relocated, relocation_events, relocation_moves in *.
  cbn [data_ RawMemory.GetAddress buffer_ ptr_add]. rewrite !Z.add_0_l.
  destruct (is_nothrow_move_constructible || negb is_copy_constructible).
  - destruct Hrel as (zrs & Hall & -> & ->).
    unfold uninitialized_move_n. rewrite Nat2Z.id.
    exact (run_uninitialized_move xs zrs Hall spre spost pre post st a b Hab Ha Hb).
  - destruct Hrel as (Hall & ->).
    unfold uninitialized_copy_n. rewrite Nat2Z.id.
    rewrite (insert_id _ a) by done.
    exact (run_uninitialized_copy xs zs Hall spre spost pre post st a b Hab Ha Hb).
Qed.

(** Relocation of all live elements into the front of a fresh block. *)
Lemma run_FillNewData_front st this a b cap capb xs zs rs post :
  objs st !! this = Some (mkVector (mkRawMemory (Ptr a 0) cap) (Z.of_nat (length xs))) ->
  heap st !! a = Some (block_of xs cap) ->
  heap st !! b = Some (replicate (length xs) None ++ post) ->
  a <> b ->
  relocated xs zs rs ->
  run (Vector.FillNewData this (mkRawMemory (Ptr b 0) capb) 0 0 (Z.of_nat (length xs))) st
  = (Ok tt, mkState (<[b := (Some <$> zs) ++ post]> (<[a := block_of rs cap]> (heap st)))
                    (objs st) (trace st ++ relocation_events xs)).
Proof.
  intros Hthis Ha Hb Hab Hrel.
  pose proof (relocated_length _ _ _ Hrel) as [_ Hlr].
  unfold block_of at 1. rewrite Hlr.
  exact (run_FillNewData st this a b cap capb _ xs zs rs [] _ [] post Hthis Ha Hb Hab Hrel).
Qed.

End Objects.

(** * Reserve *)

Section Reserve.
Context {T : Type} `{Elem T} `{Allocator}.
Implicit Types (st : state T) (xs ys zs rs ws : list T) (x y : T).

Lemma run_destroy_n_front st a ys post n :
  heap st !! a = Some ((Some <$> ys) ++ post) -> n = Z.of_nat (length ys) ->
  run (destroy_n (Ptr a 0) n) st
  = (Ok tt, mkState (<[a := replicate (length ys) None ++ post]> (heap st))
                    (objs st) (trace st ++ (EvDtor <$> ys))).
Proof.
  intros Ha ->. unfold destroy_n. rewrite Nat2Z.id.
  exact (run_destroy_loop ys [] post st a Ha).
Qed.

Lemma owns_null st cap xs : owns st (mkRawMemory nullptr cap) xs -> cap = 0 /\ xs = [].
Proof.
  intros [Hle Hc]. simpl in *. subst. split; [done|]. destruct xs; [done|simpl in *; lia].
Qed.

Lemma relocated_nil zs rs : relocated (T:=T) [] zs rs -> zs = [] /\ rs = [].
Proof.
  intros Hrel. apply relocated_length in Hrel as [Hz Hr].
  by destruct zs, rs.
Qed.

Lemma replicate_split (n m : nat) (x : option T) :
  (n <= m)%nat -> replicate m x = replicate n x ++ replicate (m - n) x.
Proof. intros. rewrite <- replicate_add. f_equal. lia. Qed.

Lemma run_FillNewData_none st this v nd from to :
  objs st !! this = Some v ->
  run (Vector.FillNewData this nd from to 0) st = (Ok tt, st).
Proof.
  intros Hv. unfold Vector.FillNewData.
  rewrite (run_bind_ok _ _ _ _ _ (run_get_obj _ _ _ Hv)).
  by destruct (is_nothrow_move_constructible || negb is_copy_constructible).
Qed.

(** [Reserve] beyond the capacity: the state it leaves. *)
Lemma Reserve_grows_trace st this cap xs zs rs n :
  vec_at st this cap xs ->
  cap < n -> n * sizeof < size_t_mod -> can_allocate (n * sizeof) = true ->
  relocated xs zs rs ->
  exists st',
    run (Vector.Reserve this n) st = (Ok tt, st') /\
    vec_at st' this n zs /\
    block_addr st' this = Some (fresh (dom (heap st))) /\
    (forall a, block_addr st this = Some a -> heap st' !! a = None) /\
    trace st' = trace st
      ++ [EvNew (fresh (dom (heap st))) (n * sizeof)]
      ++ relocation_events xs ++ (EvDtor <$> rs)
      ++ match block_addr st this with Some a => [EvDelete a] | None => [] end /\
    (forall r, r <> this -> objs st' !! r = objs st !! r) /\
    (forall c, block_addr st this <> Some c -> heap st !! c <> None ->
               heap st' !! c = heap st !! c).
Proof.
  intros (buf & Hthis & Hown) Hcap Hn Hcan Hrel.
  pose proof (relocated_length _ _ _ Hrel) as [Hlz Hlr].
  pose proof sizeof_pos as Hsz.
  assert (0 < n) as Hn0 by (destruct Hown as [? _]; simpl in *; lia).
  assert (Hnb : n < size_t_mod) by nia.
  unfold Vector.Reserve.
  rewrite (run_bind_ok _ _ _ _ _ (run_get_obj _ _ _ Hthis)). simpl.
  destruct (Z.leb_spec n cap); [lia|].
  rewrite (run_bind_ok _ _ _ _ _ (run_RawMemory_ctor st n Hn0 Hn Hcan)).
  pose proof (fresh_block st) as Hfresh.
  unfold block_addr at 2 3 4. rewrite Hthis. cbn [data_ buffer_].
  set (b := fresh (dom (heap st))) in *.
  destruct buf as [|a off].
  - (* no storage yet: nothing to relocate *)
    apply owns_null in Hown as [-> ->].
    apply relocated_nil in Hrel as [-> ->].
    erewrite run_bind_ok; cycle 1.
    { apply run_unwind_ok. erewrite run_bind_ok; cycle 1.
      { eapply run_FillNewData_none. simpl. done. }
      reflexivity. }
    simpl.
    erewrite run_bind_ok; cycle 1.
    { eapply run_set_data. simpl. done. }
    rewrite run_RawMemory_dtor_null.
    eexists. split; [reflexivity|]. simpl.
    split; [|split; [|split; [|split; [|split]]]].
    + exists (Ptr b 0). simpl. rewrite lookup_insert_eq. split; [done|].
      split; [simpl; lia|]. simpl. rewrite lookup_insert_eq.
      split; [done|]. unfold block_of. simpl. do 2 f_equal. lia.
    + unfold block_addr. simpl. by rewrite lookup_insert_eq.
    + done.
    + unfold relocation_events. by destruct relocation_moves.
    + intros r Hr. simpl. by rewrite lookup_insert_ne.
    + intros c _ Hc. simpl. rewrite lookup_insert_ne; [done|]. congruence.
  - destruct Hown as [Hle [-> Ha]]. simpl in Hle, Ha.
    assert (a <> b) as Hab by congruence.
    erewrite run_bind_ok; cycle 1.
    { apply run_unwind_ok. erewrite run_bind_ok; cycle 1.
      { eapply (run_FillNewData_front _ this a b cap n xs zs rs
                  (replicate (Z.to_nat n - length xs) None)); simpl; eauto.
        - by rewrite lookup_insert_ne.
        - rewrite lookup_insert_eq. f_equal. apply replicate_split. lia. }
      eapply (run_destroy_n_front _ a rs); simpl.
      - rewrite lookup_insert_ne by done. rewrite lookup_insert_eq. done.
      - lia. }
    simpl.
    erewrite run_bind_ok; cycle 1.
    { eapply run_set_data. simpl. done. }
    erewrite run_RawMemory_dtor; cycle 1.
    { simpl. apply lookup_insert_eq. }
    eexists. split; [reflexivity|]. simpl.
    split; [|split; [|split; [|split; [|split]]]].
    + exists (Ptr b 0). simpl. rewrite lookup_insert_eq. rewrite Hlz. split; [done|].
      split; [simpl; lia|]. simpl. split; [done|].
      rewrite lookup_delete_ne by done. rewrite lookup_insert_ne by done.
      rewrite lookup_insert_eq. unfold block_of. by rewrite Hlz.
    + unfold block_addr. simpl. by rewrite lookup_insert_eq.
    + intros a' [= <-]. by rewrite lookup_delete_eq.
    + by rewrite <- !app_assoc.
    + intros r Hr. simpl. by rewrite lookup_insert_ne.
    + intros c Hc Hc'. simpl.
      assert (c <> a) by congruence. assert (c <> b) by congruence.
      by rewrite lookup_delete_ne, !lookup_insert_ne by done.
Qed.

Lemma Reserve_grows st this cap xs zs rs n :
  vec_at st this cap xs ->
  cap < n -> n * sizeof < size_t_mod -> can_allocate (n * sizeof) = true ->
  relocated xs zs rs ->
  exists st',
    run (Vector.Reserve this n) st = (Ok tt, st') /\
    vec_at st' this n zs /\
    (forall r, r <> this -> objs st' !! r = objs st !! r) /\
    (forall c, block_addr st this <> Some c -> heap st !! c <> None ->
               heap st' !! c = heap st !! c).
Proof.
  intros Hvec Hcap Hn Hcan Hrel.
  destruct (Reserve_grows_trace st this cap xs zs rs n Hvec Hcap Hn Hcan Hrel)
    as (st' & Hrun & Hv & _ & _ & _ & Hobjs & Hheap).
  by exists st'.
Qed.

Lemma Reserve_noop st this v n :
  objs st !! this = Some v -> n <= capacity_ (data_ v) ->
  run (Vector.Reserve this n) st = (Ok tt, st).
Proof.
  intros Hv Hn. unfold Vector.Reserve.
  rewrite (run_bind_ok _ _ _ _ _ (run_get_obj _ _ _ Hv)).
  unfold RawMemory.Capacity. by destruct (Z.leb_spec n (capacity_ (data_ v))); [|lia].
Qed.

Lemma first_failure xs :
  Exists (fun x => copy_ctor x = None) xs ->
  exists ys y ys2 zs,
    xs = ys ++ y :: ys2 /\
    Forall2 (fun y z => copy_ctor y = Some z) ys zs /\ copy_ctor y = None.
Proof.
  induction xs as [|x xs IH]; intros Hex; [by apply Exists_nil in Hex|].
  destruct (copy_ctor x) as [z|] eqn:Hx.
  - apply Exists_cons in Hex as [Hex|Hex]; [congruence|].
    destruct (IH Hex) as (ys & y & ys2 & zs & -> & Hall & Hy).
    exists (x :: ys), y, ys2, (z :: zs). repeat split; [|done]. by constructor.
  - exists [], x, xs, []. by repeat split.
Qed.

Lemma Reserve_copy_throws st this cap n ys y ys2 zs :
  vec_at st this cap (ys ++ y :: ys2) ->
  cap < n -> n * sizeof < size_t_mod -> can_allocate (n * sizeof) = true ->
  relocation_moves = false ->
  Forall2 (fun y z => copy_ctor y = Some z) ys zs -> copy_ctor y = None ->
  run (Vector.Reserve this n) st
  = (Throw elem_exn,
     mkState (heap st) (objs st)
       (trace st ++ [EvNew (fresh (dom (heap st))) (n * sizeof)]
          ++ (EvCopyCtor <$> ys) ++ (EvDtor <$> zs)
          ++ [EvDelete (fresh (dom (heap st)))])).
Proof.
  intros (buf & Hthis & Hown) Hcap Hn Hcan Hmv Hall Hy.
  pose proof sizeof_pos as Hsz.
  assert (0 < n) as Hn0 by (destruct Hown as [? _]; simpl in *; lia).
  unfold Vector.Reserve.
  rewrite (run_bind_ok _ _ _ _ _ (run_get_obj _ _ _ Hthis)). simpl.
  destruct (Z.leb_spec n cap); [lia|].
  rewrite (run_bind_ok _ _ _ _ _ (run_RawMemory_ctor st n Hn0 Hn Hcan)).
  pose proof (fresh_block st) as Hfresh.
  set (b := fresh (dom (heap st))) in *.
  destruct buf as [|a off].
  { apply owns_null in Hown as [_ Hnil]. by destruct ys. }
  destruct Hown as [Hle [-> Ha]]. simpl in Hle, Ha.
  assert (a <> b) as Hab by congruence.
  erewrite run_bind_throw; cycle 1.
  { eapply run_unwind_throw.
    - eapply run_bind_throw. unfold Vector.FillNewData.
      erewrite run_bind_ok; [|by apply run_get_obj].
      unfold relocation_moves in Hmv. rewrite Hmv.
      unfold uninitialized_copy_n. rewrite Nat2Z.id.
      refine (run_uninitialized_copy_throw ys zs y ys2 Hall Hy [] _ []
                (replicate (Z.to_nat n - length (ys ++ y :: ys2)) None) _ a b Hab _ _); simpl.
      + rewrite lookup_insert_ne by done. exact Ha.
      + rewrite lookup_insert_eq. f_equal. apply replicate_split. lia.
    - eapply run_RawMemory_dtor. simpl. apply lookup_insert_eq. }
  simpl. rewrite delete_insert_eq, delete_id by done.
  by rewrite <- !app_assoc.
Qed.

Lemma Reserve_bad_alloc st this v n :
  objs st !! this = Some v -> capacity_ (data_ v) < n -> 0 <= capacity_ (data_ v) ->
  can_allocate (wrap (n * sizeof)) = false ->
  run (Vector.Reserve this n) st = (Throw bad_alloc, st).
Proof.
  intros Hv Hn Hc Hcan. unfold Vector.Reserve.
  rewrite (run_bind_ok _ _ _ _ _ (run_get_obj _ _ _ Hv)).
  unfold RawMemory.Capacity. destruct (Z.leb_spec n (capacity_ (data_ v))); [lia|].
  by rewrite (run_bind_throw _ _ _ _ _ (run_RawMemory_ctor_bad_alloc st n ltac:(lia) Hcan)).
Qed.

End Reserve.

(** * EmplaceBack *)

Section EmplaceBack.
Context {T : Type} `{Elem T} `{Allocator}.
Implicit Types (st : state T) (xs ys zs rs : list T) (x y : T).

Lemma run_run_init st i x :
  init_result i = Some x ->
  run (run_init i) st
  = (Ok x, mkState (heap st) (objs st) (trace st ++ [init_event i x])).
Proof.
  unfold run_init, init_result. destruct i as [y|y|r]; simpl.
  - by intros ->.
  - destruct (move_ctor y) as [[z r]|]; [|done]. simpl. by intros [= ->].
  - by intros ->.
Qed.

Lemma run_construct_from st a (j : nat) l i x :
  init_result i = Some x -> heap st !! a = Some l -> (j < length l)%nat ->
  run (construct_from (Ptr a (Z.of_nat j)) i) st
  = (Ok tt, mkState (<[a := <[j := Some x]> l]> (heap st)) (objs st)
                    (trace st ++ [init_event i x])).
Proof.
  intros Hi Ha Hj. unfold construct_from.
  rewrite (run_bind_ok _ _ _ _ _ (run_run_init _ _ _ Hi)).
  by rewrite (run_construct _ _ _ l).
Qed.

Lemma block_of_snoc xs x cap :
  Z.of_nat (length xs) < cap ->
  <[length xs := Some x]> (block_of xs cap) = block_of (xs ++ [x]) cap.
Proof.
  intros Hlt. unfold block_of.
  replace (Z.to_nat cap - length xs)%nat with (S (Z.to_nat cap - length (xs ++ [x])))
    by (rewrite length_app; simpl; lia).
  simpl. rewrite <- (length_fmap Some xs) at 1.
  rewrite insert_at_pre, fmap_app, <- app_assoc. done.
Qed.

(** [EmplaceBack] of an object that is not an element of the vector:
    the vector afterwards, the reference returned, and what it leaves
    alone.  On a full vector the elements are relocated to [zs]. *)
Lemma EmplaceBack_relocating st this cap xs zs rs i x :
  vec_at st this cap xs ->
  init_result i = Some x ->
  (Z.of_nat (length xs) = cap ->
   relocated xs zs rs /\
   grown cap cap * sizeof < size_t_mod /\ can_allocate (grown cap cap * sizeof) = true) ->
  exists st' a,
    run (Vector.EmplaceBack this i) st = (Ok (Ptr a (Z.of_nat (length xs))), st') /\
    vec_at st' this (grown (Z.of_nat (length xs)) cap)
           ((if Z.of_nat (length xs) =? cap then zs else xs) ++ [x]) /\
    block_addr st' this = Some a /\
    (block_addr st this = Some a \/ heap st !! a = None) /\
    (forall r, r <> this -> objs st' !! r = objs st !! r) /\
    (forall c, block_addr st this <> Some c -> heap st !! c <> None ->
               heap st' !! c = heap st !! c).
Proof.
  intros (buf & Hthis & Hown) Hi Hgrow.
  pose proof sizeof_pos as Hsz.
  unfold Vector.EmplaceBack.
  rewrite (run_bind_ok _ _ _ _ _ (run_get_obj _ _ _ Hthis)). simpl.
  unfold grown in *. unfold RawMemory.Capacity. simpl.
  unfold block_addr at 2 3. rewrite Hthis. cbn [data_ buffer_].
  destruct (Z.eqb_spec (Z.of_nat (length xs)) cap) as [Heq|Hne].
  - (* reallocation *)
    destruct (Hgrow Heq) as (Hrel & Hlt & Hcan). clear Hgrow.
    pose proof (relocated_length _ _ _ Hrel) as [Hlz Hlr].
    rewrite Z.eqb_refl in Hlt, Hcan. rewrite <- Heq in Hlt, Hcan.
    set (cap' := if Z.of_nat (length xs) =? 0 then 1 else Z.of_nat (length xs) * 2) in *.
    assert (Z.of_nat (length xs) < cap' < size_t_mod) as Hcap'.
    { subst cap'. destruct (Z.eqb_spec (Z.of_nat (length xs)) 0); nia. }
    assert ((if Z.of_nat (length xs) =? 0 then 1 else wrap (Z.of_nat (length xs) * 2)) = cap')
      as ->.
    { subst cap'. destruct (Z.eqb_spec (Z.of_nat (length xs)) 0); [done|].
      apply wrap_small. lia. }
    rewrite ?run_bind_assoc; simpl.
    rewrite (run_bind_ok _ _ _ _ _ (run_RawMemory_ctor st cap' ltac:(lia) Hlt Hcan)).
    pose proof (fresh_block st) as Hfresh.
    set (b := fresh (dom (heap st))) in *.
    rewrite ?run_bind_assoc; simpl.
    destruct buf as [|a off].
    + apply owns_null in Hown as [-> ->].
      apply relocated_nil in Hrel as [-> ->]. simpl in *.
      erewrite run_bind_ok; cycle 1.
      { apply run_unwind_ok. erewrite run_bind_ok; cycle 1.
        { eapply run_FillNewData_none. simpl. done. }
        erewrite run_bind_ok; cycle 1.
        { eapply (run_construct_from _ b 0 _ i x Hi); simpl.
          - apply lookup_insert_eq.
          - simpl. lia. }
        reflexivity. }
      simpl. rewrite ?run_bind_assoc; simpl.
      erewrite run_bind_ok; cycle 1.
      { eapply run_set_data. simpl. done. }
      rewrite ?run_bind_assoc; simpl.
      rewrite (run_bind_ok _ _ _ _ _ (run_RawMemory_dtor_null _ _)).
      erewrite run_bind_ok; cycle 1.
      { eapply run_set_size. simpl. apply lookup_insert_eq. }
      erewrite run_bind_ok; cycle 1.
      { eapply run_get_obj. simpl. apply lookup_insert_eq. }
      eexists; exists b. split; [reflexivity|]. simpl.
      split; [|split; [|split; [|split]]].
      * exists (Ptr b 0). simpl. rewrite lookup_insert_eq. split; [done|].
        split; [simpl; lia|]. simpl. split; [done|].
        by rewrite insert_insert_eq, lookup_insert_eq.
      * unfold block_addr. simpl. by rewrite lookup_insert_eq.
      * by right.
      * intros r Hr. by rewrite !lookup_insert_ne.
      * intros c _ Hc. rewrite insert_insert_eq, lookup_insert_ne; [done|]. congruence.
    + destruct Hown as [Hle [-> Ha]]. simpl in Hle, Ha.
      assert (a <> b) as Hab by congruence.
      erewrite run_bind_ok; cycle 1.
      { apply run_unwind_ok. erewrite run_bind_ok; cycle 1.
        { eapply (run_FillNewData_front _ this a b cap cap' xs zs rs
                    (replicate (Z.to_nat cap' - length xs) None)); simpl; eauto.
          - by rewrite lookup_insert_ne.
          - rewrite lookup_insert_eq. f_equal. apply replicate_split. lia. }
        erewrite run_bind_ok; cycle 1.
        { eapply (run_construct_from _ b (length xs) _ i x Hi); simpl.
          - apply lookup_insert_eq.
          - rewrite length_app, length_fmap, length_replicate. lia. }
        eapply (run_destroy_n_front _ a rs); simpl.
        - rewrite lookup_insert_ne by done. rewrite lookup_insert_ne by done.
          rewrite lookup_insert_eq. done.
        - lia. }
      simpl. rewrite ?run_bind_assoc; simpl.
      erewrite run_bind_ok; cycle 1.
      { eapply run_set_data. simpl. done. }
      rewrite ?run_bind_assoc; simpl.
      erewrite run_bind_ok; cycle 1.
      { eapply run_RawMemory_dtor. simpl. apply lookup_insert_eq. }
      erewrite run_bind_ok; cycle 1.
      { eapply run_set_size. simpl. apply lookup_insert_eq. }
      erewrite run_bind_ok; cycle 1.
      { eapply run_get_obj. simpl. apply lookup_insert_eq. }
      eexists; exists b. split.
      { simpl. rewrite (wrap_small (Z.of_nat (length xs) + 1)) by lia.
        rewrite wrap_small by lia. unfold RawMemory.at_. cbn [buffer_ ptr_add].
        replace (0 + (Z.of_nat (length xs) + 1 - 1)) with (Z.of_nat (length xs)) by lia.
        reflexivity. }
      simpl. split; [|split; [|split; [|split]]].
      * exists (Ptr b 0). simpl. rewrite insert_insert_eq, lookup_insert_eq.
        split.
        { do 2 f_equal. rewrite length_app. simpl. lia. }
        split; [simpl; rewrite length_app; simpl; lia|]. simpl. split; [done|].
        rewrite lookup_delete_ne by done. rewrite lookup_insert_ne by done.
        rewrite insert_insert_eq, lookup_insert_eq.
        f_equal. pose proof (block_of_snoc zs x cap' ltac:(lia)) as Hs.
        unfold block_of in Hs at 1. rewrite Hlz in Hs. exact Hs.
      * unfold block_addr. simpl. by rewrite insert_insert_eq, lookup_insert_eq.
      * by right.
      * intros r Hr. by rewrite !lookup_insert_ne.
      * intros c Hc Hc'.
        assert (c <> a) by congruence. assert (c <> b) by congruence.
        by rewrite lookup_delete_ne, !lookup_insert_ne by done.
  - (* spare capacity *)
    clear Hgrow. destruct buf as [|a off].
    { apply owns_null in Hown as [-> ->]. done. }
    destruct Hown as [Hle [-> Ha]]. simpl in Hle, Ha.
    erewrite run_bind_ok; cycle 1.
    { eapply (run_construct_from _ a (length xs) _ i x Hi); [done|].
      rewrite block_of_length; lia. }
    erewrite run_bind_ok; cycle 1.
    { eapply run_set_size. simpl. done. }
    erewrite run_bind_ok; cycle 1.
    { eapply run_get_obj. simpl. apply lookup_insert_eq. }
    eexists; exists a. split.
    { simpl. rewrite (wrap_small (Z.of_nat (length xs) + 1)) by lia.
      rewrite wrap_small by lia. unfold RawMemory.at_. cbn [buffer_ ptr_add].
      replace (0 + (Z.of_nat (length xs) + 1 - 1)) with (Z.of_nat (length xs)) by lia.
      reflexivity. }
    simpl. split; [|split; [|split; [|split]]].
    + exists (Ptr a 0). simpl. rewrite lookup_insert_eq.
      split.
      { do 2 f_equal. rewrite length_app. simpl. lia. }
      split; [simpl; rewrite length_app; simpl; lia|]. simpl. split; [done|].
      rewrite lookup_insert_eq. f_equal. apply block_of_snoc. lia.
    + unfold block_addr. simpl. by rewrite lookup_insert_eq.
    + by left.
    + intros r Hr. by rewrite lookup_insert_ne.
    + intros c Hc Hc'. rewrite lookup_insert_ne; [done|]. congruence.
Qed.


End EmplaceBack.

(** * The growth rule of appends *)

Lemma capacity_after_ge k : Z.of_nat k <= capacity_after k.
Proof.
  induction k as [|k IH]; [done|].
  cbn [capacity_after]. cbv zeta.
  destruct (Z.eqb_spec (Z.of_nat k) (capacity_after k));
    [destruct (Z.eqb_spec (Z.of_nat k) 0)|]; lia.
Qed.

Lemma capacity_after_le k : capacity_after k <= 2 * Z.of_nat k.
Proof.
  induction k as [|k IH]; [done|].
  cbn [capacity_after]. cbv zeta.
  destruct (Z.eqb_spec (Z.of_nat k) (capacity_after k));
    [destruct (Z.eqb_spec (Z.of_nat k) 0)|]; lia.
Qed.

Lemma capacity_after_S k :
  capacity_after (S k) = grown (Z.of_nat k) (capacity_after k).
Proof. done. Qed.

Lemma grown_max size cap :
  0 <= size -> grown size cap = if size =? cap then Z.max 1 (size * 2) else cap.
Proof.
  intros. unfold grown. destruct (size =? cap); [|done].
  destruct (Z.eqb_spec size 0); lia.
Qed.

(** * Copy construction, swap and destruction *)

Section CopyAssign.
Context {T : Type} `{Elem T} `{Allocator}.
Implicit Types (st : state T) (xs ys zs rs ds ss : list T) (x y : T)
  (pre post spre spost : list (option T)).

Lemma run_copy_assign_at st a c (i j : nat) la lc d s d' :
  a <> c -> heap st !! a = Some la -> heap st !! c = Some lc ->
  la !! i = Some (Some d) -> lc !! j = Some (Some s) -> copy_assign d s = Some d' ->
  run (copy_assign_at (Ptr a (Z.of_nat i)) (Ptr c (Z.of_nat j))) st
  = (Ok tt, mkState (<[a := <[i := Some d']> la]> (heap st)) (objs st)
                    (trace st ++ [EvCopyAssign d s])).
Proof.
  intros Hac Ha Hc Hi Hj Hcp. unfold copy_assign_at.
  rewrite (run_bind_ok _ _ _ _ _ (run_load _ _ _ _ _ Ha Hi)).
  rewrite (run_bind_ok _ _ _ _ _ (run_load _ _ _ _ _ Hc Hj)), Hcp.
  rewrite (run_bind_ok _ _ _ _ _ (run_log _ _)).
  by rewrite (run_store _ _ _ la d d').
Qed.

Lemma run_assign_loop ds ss :
  Forall2 (fun d s => copy_assign d s = Some s) ds ss ->
  forall pre post spre spost st a c capa capc,
  a <> c -> length spre = length pre ->
  Z.of_nat (length pre + length ds) < size_t_mod ->
  heap st !! a = Some (pre ++ (Some <$> ds) ++ post) ->
  heap st !! c = Some (spre ++ (Some <$> ss) ++ spost) ->
  run (Vector.assign_loop (mkRawMemory (Ptr a 0) capa) (mkRawMemory (Ptr c 0) capc)
         (Z.of_nat (length pre)) (length ds)) st
  = (Ok tt, mkState (<[a := pre ++ (Some <$> ss) ++ post]> (heap st)) (objs st)
                    (trace st ++ zip_with EvCopyAssign ds ss)).
Proof.
  induction 1 as [|d s ds ss Hd Hds IH];
    intros pre post spre spost st a c capa capc Hac Hlen Hlt Ha Hc.
  - simpl in *. rewrite app_nil_r, insert_id by done. by destruct st.
  - rewrite fmap_cons in *. cbn [Vector.assign_loop app length zip_with] in *.
    unfold RawMemory.at_. cbn [buffer_ ptr_add Z.add].
    erewrite run_bind_ok; cycle 1.
    { eapply (run_copy_assign_at _ a c (length pre) (length pre) _ _ d s s Hac Ha Hc).
      - apply lookup_at_pre.
      - rewrite <- Hlen. apply lookup_at_pre.
      - done. }
    rewrite insert_at_pre, wrap_small by lia. rewrite (of_nat_snoc pre (Some s)).
    erewrite (IH (pre ++ [Some s]) post (spre ++ [Some s]) spost); cbn [heap objs trace].
    + rewrite insert_insert_eq, snoc_app, <- app_assoc. done.
    + done.
    + rewrite !length_app. simpl. lia.
    + rewrite length_app. simpl. lia.
    + rewrite lookup_insert_eq, snoc_app. done.
    + rewrite lookup_insert_ne by done. by rewrite snoc_app.
Qed.

Lemma run_destroy_n_at st a pre ys post (i : nat) n :
  heap st !! a = Some (pre ++ (Some <$> ys) ++ post) ->
  i = length pre -> n = Z.of_nat (length ys) ->
  run (destroy_n (Ptr a (Z.of_nat i)) n) st
  = (Ok tt, mkState (<[a := pre ++ replicate (length ys) None ++ post]> (heap st))
                    (objs st) (trace st ++ (EvDtor <$> ys))).
Proof.
  intros Ha -> ->. unfold destroy_n. rewrite Nat2Z.id. by apply run_destroy_loop.
Qed.

Lemma Forall2_copy_regular `{!Regular T} ys :
  Forall2 (fun y z => copy_ctor y = Some z) ys ys.
Proof. induction ys; constructor; auto using copy_ctor_ok. Qed.

Lemma Forall2_assign_regular `{!Regular T} ds ss :
  length ds = length ss -> Forall2 (fun d s => copy_assign d s = Some s) ds ss.
Proof.
  revert ss. induction ds as [|d ds IH]; intros [|s ss] Hl; simplify_eq/=;
    constructor; auto using copy_assign_ok.
Qed.

(** The copy constructor, for a non-empty source. *)
Lemma run_ctor_copy `{!Regular T} st this other rcap ys :
  vec_at st other rcap ys -> ys <> [] ->
  Z.of_nat (length ys) * sizeof < size_t_mod ->
  can_allocate (Z.of_nat (length ys) * sizeof) = true ->
  run (Vector.ctor_copy this other) st
  = (Ok tt,
     mkState (<[fresh (dom (heap st)) := block_of ys (Z.of_nat (length ys))]> (heap st))
             (<[this := mkVector (mkRawMemory (Ptr (fresh (dom (heap st))) 0)
                                    (Z.of_nat (length ys)))
                                 (Z.of_nat (length ys))]> (objs st))
             (trace st ++ [EvNew (fresh (dom (heap st))) (Z.of_nat (length ys) * sizeof)]
                ++ (EvCopyCtor <$> ys))).
Proof.
  intros (buf & Hother & Hown) Hne Hlt Hcan.
  assert (0 < Z.of_nat (length ys)) as Hpos by (destruct ys; [done|simpl; lia]).
  unfold Vector.ctor_copy.
  rewrite (run_bind_ok _ _ _ _ _ (run_get_obj _ _ _ Hother)). cbn [size_ data_].
  rewrite (run_bind_ok _ _ _ _ _ (run_RawMemory_ctor st _ Hpos Hlt Hcan)).
  pose proof (fresh_block st) as Hfresh.
  set (b := fresh (dom (heap st))) in *.
  destruct buf as [|c off].
  { apply owns_null in Hown as [_ ?]. done. }
  destruct Hown as [Hle [-> Hc]]. simpl in Hle, Hc.
  assert (c <> b) as Hcb by congruence.
  erewrite run_bind_ok; cycle 1.
  { apply run_unwind_ok. unfold uninitialized_copy_n, RawMemory.GetAddress.
    cbn [buffer_]. rewrite Nat2Z.id.
    refine (run_uninitialized_copy ys ys (Forall2_copy_regular ys) [] _ [] [] _ c b Hcb _ _);
      cbn [heap].
    - rewrite lookup_insert_ne by done. exact Hc.
    - rewrite lookup_insert_eq. simpl. by rewrite app_nil_r. }
  cbn. rewrite insert_insert_eq. unfold block_of.
  rewrite Nat2Z.id, Nat.sub_diag, <- app_assoc. simpl. done.
Qed.

Lemma run_Swap st this other a b :
  this <> other -> objs st !! this = Some a -> objs st !! other = Some b ->
  run (Vector.Swap this other) st
  = (Ok tt, mkState (heap st)
              (<[other := mkVector (mkRawMemory (buffer_ (data_ a)) (capacity_ (data_ a)))
                                   (size_ a)]>
                 (<[this := mkVector (mkRawMemory (buffer_ (data_ b)) (capacity_ (data_ b)))
                                     (size_ b)]> (objs st)))
              (trace st)).
Proof.
  intros Hne Ha Hb. unfold Vector.Swap.
  rewrite (run_bind_ok _ _ _ _ _ (run_get_obj _ _ _ Ha)).
  rewrite (run_bind_ok _ _ _ _ _ (run_get_obj _ _ _ Hb)).
  cbn [RawMemory.Swap].
  rewrite (run_bind_ok _ _ _ _ _ (run_set_obj _ _ _)).
  erewrite run_bind_ok; cycle 1.
  { eapply run_set_data. cbn [objs]. rewrite lookup_insert_ne by done. exact Hb. }
  erewrite run_bind_ok; cycle 1.
  { eapply run_get_obj. cbn [objs]. rewrite lookup_insert_ne by done. apply lookup_insert_eq. }
  erewrite run_bind_ok; cycle 1.
  { eapply run_get_obj. cbn [objs]. apply lookup_insert_eq. }
  erewrite run_bind_ok; cycle 1.
  { eapply run_set_size. cbn [objs]. rewrite lookup_insert_ne by done. apply lookup_insert_eq. }
  erewrite run_set_size; cycle 1.
  { cbn [objs]. rewrite lookup_insert_ne by done. apply lookup_insert_eq. }
  cbn. do 2 f_equal. apply map_eq. intros k.
  rewrite !lookup_insert. repeat case_decide; subst; congruence.
Qed.

(** The destructor of a vector that owns a block. *)
Lemma run_dtor st this a cap xs :
  objs st !! this = Some (mkVector (mkRawMemory (Ptr a 0) cap) (Z.of_nat (length xs))) ->
  heap st !! a = Some (block_of xs cap) ->
  run (Vector.dtor this) st
  = (Ok tt, mkState (delete a (heap st)) (delete this (objs st))
                    (trace st ++ (EvDtor <$> xs) ++ [EvDelete a])).
Proof.
  intros Hthis Ha. unfold Vector.dtor.
  rewrite (run_bind_ok _ _ _ _ _ (run_get_obj _ _ _ Hthis)).
  cbn [data_ size_ RawMemory.GetAddress buffer_]. rewrite decide_True by done.
  rewrite ?run_bind_assoc.
  rewrite (run_bind_ok _ _ _ _ _ (run_destroy_n_front _ a xs _ _ Ha eq_refl)).
  erewrite run_bind_ok; cycle 1.
  { eapply run_RawMemory_dtor. cbn [heap]. apply lookup_insert_eq. }
  cbn. rewrite delete_insert_eq, <- app_assoc. done.
Qed.

Lemma run_dtor_null st this cap :
  objs st !! this = Some (mkVector (mkRawMemory nullptr cap) 0) ->
  run (Vector.dtor this) st
  = (Ok tt, mkState (heap st) (delete this (objs st)) (trace st)).
Proof.
  intros Hthis. unfold Vector.dtor.
  by rewrite (run_bind_ok _ _ _ _ _ (run_get_obj _ _ _ Hthis)).
Qed.

End CopyAssign.

(** * Copy assignment *)

Section CopyAssignSpec.
Context {T : Type} `{Elem T} `{Allocator} `{!Regular T}.
Implicit Types (st : state T) (xs ys zs rs ds ss : list T) (x y : T)
  (pre post spre spost : list (option T)).

Lemma run_uninitialized_copy_n_at ys spre spost pre post st a b (i j : nat) n :
  a <> b -> i = length spre -> j = length pre -> n = Z.of_nat (length ys) ->
  heap st !! a = Some (spre ++ (Some <$> ys) ++ spost) ->
  heap st !! b = Some (pre ++ replicate (length ys) None ++ post) ->
  run (uninitialized_copy_n (Ptr a (Z.of_nat i)) n (Ptr b (Z.of_nat j))) st
  = (Ok tt, mkState (<[b := pre ++ (Some <$> ys) ++ post]> (heap st)) (objs st)
                    (trace st ++ (EvCopyCtor <$> ys))).
Proof.
  intros Hab -> -> -> Ha Hb. unfold uninitialized_copy_n. rewrite Nat2Z.id.
  exact (run_uninitialized_copy ys ys (Forall2_copy_regular ys) spre spost pre post st a b
           Hab Ha Hb).
Qed.

Lemma operator_assign_reuse st this rhs cap rcap xs ys :
  this <> rhs ->
  vec_at st this cap xs -> vec_at st rhs rcap ys ->
  (forall a, block_addr st this = Some a -> block_addr st rhs <> Some a) ->
  Z.of_nat (length ys) <= cap ->
  exists st',
    run (Vector.operator_assign this rhs) st = (Ok tt, st') /\
    vec_at st' this cap ys /\ vec_at st' rhs rcap ys /\
    trace st' = trace st ++ zip_with EvCopyAssign xs ys
                  ++ (EvCopyCtor <$> drop (length xs) ys)
                  ++ (EvDtor <$> drop (length ys) xs).
Proof.
  intros Hne (buf & Hthis & Hown) (rbuf & Hrhs & Hrown) Hdisj Hfit.
  assert (Hrv : forall st', objs st' = <[this := mkVector (mkRawMemory buf cap)
                                    (Z.of_nat (length ys))]> (objs st) ->
            (forall c l, buffer_ (mkRawMemory rbuf rcap) = Ptr c 0 ->
                         heap st !! c = Some l -> heap st' !! c = Some l) ->
            vec_at st' rhs rcap ys).
  { intros st' Hobjs Hheap. exists rbuf. rewrite Hobjs, lookup_insert_ne by done.
    split; [done|]. destruct Hrown as [Hle Hr]. split; [done|].
    destruct rbuf as [|c off]; [done|]. destruct Hr as [-> Hc]. split; [done|].
    by eapply Hheap. }
  unfold Vector.operator_assign. rewrite decide_True by done.
  rewrite (run_bind_ok _ _ _ _ _ (run_get_obj _ _ _ Hthis)).
  rewrite (run_bind_ok _ _ _ _ _ (run_get_obj _ _ _ Hrhs)).
  cbn [size_ data_ RawMemory.Capacity capacity_ RawMemory.GetAddress buffer_].
  destruct (Z.gtb_spec (Z.of_nat (length ys)) cap) as [|_]; [lia|].
  destruct (Z.geb_spec (Z.of_nat (length ys)) (Z.of_nat (length xs))) as [Hge|Hlt].
  - (* the source is at least as long *)
    rewrite (drop_ge xs) by lia. rewrite app_nil_r.
    destruct (decide (ys = [])) as [->|Hys].
    + assert (xs = []) as -> by (destruct xs; [done|simpl in *; lia]).
      cbn [length Z.to_nat Z.of_nat Vector.assign_loop Z.sub Z.opp Z.add].
      erewrite run_bind_ok; [|reflexivity].
      erewrite run_bind_ok; [|reflexivity].
      erewrite run_set_size; [|exact Hthis].
      eexists. split; [reflexivity|]. repeat split.
      * exists buf. cbn. rewrite lookup_insert_eq. done.
      * apply Hrv; [done|]. by intros.
      * cbn. by rewrite app_nil_r.
    + destruct buf as [|a off].
      { apply owns_null in Hown as [-> _]. destruct ys; [done|simpl in *; lia]. }
      destruct rbuf as [|c roff].
      { apply owns_null in Hrown as [_ ->]. done. }
      destruct Hown as [Hle [-> Ha]]. destruct Hrown as [Hrle [-> Hc]].
      cbn [capacity_ buffer_] in *.
      assert (a <> c) as Hac.
      { intros ->. eapply (Hdisj c); unfold block_addr.
        - by rewrite Hthis.
        - by rewrite Hrhs. }
      rewrite <- (take_drop (length xs) ys) in Hc.
      unfold block_of in Ha, Hc. rewrite fmap_app, <- app_assoc in Hc.
      assert (length (take (length xs) ys) = length xs) as Htk by (rewrite length_take; lia).
      rewrite Nat2Z.id.
      erewrite run_bind_ok; cycle 1.
      { eapply (run_assign_loop xs (take (length xs) ys)
                  (Forall2_assign_regular _ _ (eq_sym Htk)) [] _ [] _ st a c cap rcap Hac
                  eq_refl); [simpl; lia|exact Ha|exact Hc]. }
      cbn [app ptr_add Z.add].
      rewrite wrap_small by lia.
      erewrite run_bind_ok; cycle 1.
      { eapply (run_uninitialized_copy_n_at (drop (length xs) ys)
                  (Some <$> take (length xs) ys) _ (Some <$> take (length xs) ys)
                  (replicate (Z.to_nat cap - length ys) None) _ c a (length xs) (length xs));
          cbn [heap].
        - done.
        - by rewrite length_fmap.
        - by rewrite length_fmap.
        - rewrite length_drop. lia.
        - rewrite lookup_insert_ne by done. exact Hc.
        - rewrite lookup_insert_eq. f_equal. f_equal.
          rewrite <- replicate_add. f_equal. rewrite length_drop. lia. }
      erewrite run_set_size; cycle 1.
      { cbn [objs]. exact Hthis. }
      eexists. split; [reflexivity|]. cbn [heap objs trace data_]. repeat split.
      * exists (Ptr a 0). cbn [objs]. rewrite lookup_insert_eq. split; [done|].
        split; [cbn; lia|]. cbn [buffer_ capacity_ heap]. split; [done|].
        rewrite insert_insert_eq, lookup_insert_eq. f_equal. unfold block_of.
        by rewrite app_assoc, <- fmap_app, take_drop.
      * apply Hrv; [done|]. intros c' l [= <-] Hl. cbn [heap].
        by rewrite !lookup_insert_ne.
      * rewrite zip_with_take_r, <- app_assoc. done.
  - (* the source is shorter *)
    rewrite (drop_ge ys) by lia. rewrite fmap_nil, app_nil_l.
    destruct buf as [|a off].
    { apply owns_null in Hown as [-> ->]. simpl in *. lia. }
    destruct Hown as [Hle [-> Ha]]. cbn [capacity_ buffer_] in *.
    rewrite <- (take_drop (length ys) xs) in Ha.
    unfold block_of in Ha. rewrite fmap_app, <- app_assoc in Ha.
    assert (length (take (length ys) xs) = length ys) as Htk by (rewrite length_take; lia).
    rewrite length_app, Htk, length_drop in Ha.
    rewrite Nat2Z.id.
    assert (exists st1,
      run (Vector.assign_loop (mkRawMemory (Ptr a 0) cap) (mkRawMemory rbuf rcap) 0
             (length ys)) st = (Ok tt, st1) /\
      heap st1 = <[a := (Some <$> ys) ++ (Some <$> drop (length ys) xs)
                     ++ replicate (Z.to_nat cap - (length ys + (length xs - length ys))) None]>
                   (heap st) /\
      objs st1 = objs st /\
      trace st1 = trace st ++ zip_with EvCopyAssign xs ys) as (st1 & Hrun1 & Hh1 & Ho1 & Ht1).
    { destruct (decide (ys = [])) as [->|Hys].
      - exists st. cbn. rewrite zip_with_nil_r, app_nil_r, insert_id by done. done.
      - destruct rbuf as [|c roff].
        { apply owns_null in Hrown as [_ ->]. done. }
        destruct Hrown as [Hrle [-> Hc]]. cbn [capacity_ buffer_] in *.
        assert (a <> c) as Hac.
        { intros ->. eapply (Hdisj c); unfold block_addr.
          - by rewrite Hthis.
          - by rewrite Hrhs. }
        eexists. split.
        { rewrite <- Htk at 1.
          eapply (run_assign_loop (take (length ys) xs) ys
                  (Forall2_assign_regular _ _ Htk) [] _ [] _ st a c cap rcap Hac
                  eq_refl); [simpl; lia|exact Ha|exact Hc]. }
        cbn [heap objs trace]. rewrite zip_with_take_l. done. }
    rewrite (run_bind_ok _ _ _ _ _ Hrun1).
    cbn [app ptr_add]. rewrite Z.add_0_l.
    rewrite wrap_small by lia.
    erewrite run_bind_ok; cycle 1.
    { eapply (run_destroy_n_at st1 a (Some <$> ys) (drop (length ys) xs)).
      - rewrite Hh1, lookup_insert_eq. done.
      - by rewrite length_fmap.
      - rewrite length_drop. lia. }
    erewrite run_set_size; cycle 1.
    { cbn [objs]. rewrite Ho1. exact Hthis. }
    eexists. split; [reflexivity|]. cbn [heap objs trace data_]. repeat split.
    + exists (Ptr a 0). cbn [objs]. rewrite lookup_insert_eq. split; [done|].
      split; [cbn; lia|]. cbn [buffer_ capacity_ heap]. split; [done|].
      rewrite lookup_insert_eq. f_equal. unfold block_of. f_equal.
      rewrite <- replicate_add. f_equal. rewrite length_drop. lia.
    + apply Hrv; [by rewrite Ho1|]. intros c' l -> Hl. cbn [heap].
      assert (a <> c').
      { intros ->. eapply (Hdisj c'); unfold block_addr.
        - by rewrite Hthis.
        - by rewrite Hrhs. }
      by rewrite Hh1, !lookup_insert_ne.
    + rewrite Ht1, <- app_assoc. done.
Qed.

Lemma fresh_obj st r v : objs st !! r = Some v -> fresh (dom (objs st)) <> r.
Proof.
  intros Hr Heq. pose proof (is_fresh (dom (objs st))) as Hf.
  rewrite Heq in Hf. apply Hf, elem_of_dom. eauto.
Qed.

Lemma operator_assign_realloc st this rhs cap rcap xs ys :
  this <> rhs ->
  vec_at st this cap xs -> vec_at st rhs rcap ys ->
  (forall a, block_addr st this = Some a -> block_addr st rhs <> Some a) ->
  cap < Z.of_nat (length ys) ->
  Z.of_nat (length ys) * sizeof < size_t_mod ->
  can_allocate (Z.of_nat (length ys) * sizeof) = true ->
  exists st',
    run (Vector.operator_assign this rhs) st = (Ok tt, st') /\
    vec_at st' this (Z.of_nat (length ys)) ys /\ vec_at st' rhs rcap ys /\
    trace st' = trace st
      ++ [EvNew (fresh (dom (heap st))) (Z.of_nat (length ys) * sizeof)]
      ++ (EvCopyCtor <$> ys) ++ (EvDtor <$> xs)
      ++ match block_addr st this with Some a => [EvDelete a] | None => [] end.
Proof.
  intros Hne Hvthis Hvrhs Hdisj Hcap Hlt Hcan.
  pose proof Hvthis as (buf & Hthis & Hown).
  pose proof Hvrhs as (rbuf & Hrhs & Hrown).
  pose proof sizeof_pos as Hsz.
  assert (ys <> []) as Hys.
  { intros ->. destruct Hown as [? _]. simpl in *. lia. }
  unfold Vector.operator_assign. rewrite decide_True by done.
  rewrite (run_bind_ok _ _ _ _ _ (run_get_obj _ _ _ Hthis)).
  rewrite (run_bind_ok _ _ _ _ _ (run_get_obj _ _ _ Hrhs)).
  cbn [size_ data_ RawMemory.Capacity capacity_].
  destruct (Z.gtb_spec (Z.of_nat (length ys)) cap) as [_|]; [|lia].
  unfold get_state at 1. unfold run at 1, bind at 1.
  pose proof (fresh_obj st this _ Hthis) as Htt.
  pose proof (fresh_obj st rhs _ Hrhs) as Htr.
  set (t := fresh (dom (objs st))) in *.
  fold (run (Vector.ctor_copy t rhs;;; Vector.Swap this t;;; Vector.dtor t) st).
  rewrite (run_bind_ok _ _ _ _ _ (run_ctor_copy st t rhs rcap ys Hvrhs Hys Hlt Hcan)).
  pose proof (fresh_block st) as Hfresh.
  set (b := fresh (dom (heap st))) in *.
  erewrite run_bind_ok; cycle 1.
  { eapply run_Swap; cbn [objs]; [done| |apply lookup_insert_eq].
    rewrite lookup_insert_ne by done. exact Hthis. }
  cbn [data_ size_ buffer_ capacity_ heap objs trace].
  assert (Hrv : forall h o tr,
            o !! rhs = objs st !! rhs ->
            (forall c l, rbuf = Ptr c 0 -> heap st !! c = Some l -> h !! c = Some l) ->
            vec_at (mkState h o tr) rhs rcap ys).
  { intros h o tr Hobjs Hheap. exists rbuf. cbn [objs]. rewrite Hobjs.
    split; [done|]. destruct Hrown as [Hle Hr]. split; [done|].
    destruct rbuf as [|c off]; [done|]. destruct Hr as [-> Hc]. split; [done|].
    by eapply Hheap. }
  assert (Hnew : forall h o tr,
            o !! this = Some (mkVector (mkRawMemory (Ptr b 0) (Z.of_nat (length ys)))
                                       (Z.of_nat (length ys))) ->
            h !! b = Some (block_of ys (Z.of_nat (length ys))) ->
            vec_at (mkState h o tr) this (Z.of_nat (length ys)) ys).
  { intros h o tr Ho Hh. exists (Ptr b 0). split; [done|].
    split; [cbn; nia|]. done. }
  destruct buf as [|a off].
  - apply owns_null in Hown as [-> ->].
    erewrite run_dtor_null; cycle 1.
    { cbn [objs]. apply lookup_insert_eq. }
    eexists. split; [reflexivity|]. cbn [heap objs trace]. repeat split.
    + apply Hnew.
      * rewrite lookup_delete_ne, lookup_insert_ne, lookup_insert_eq by done. done.
      * apply lookup_insert_eq.
    + apply Hrv.
      * by rewrite lookup_delete_ne, !lookup_insert_ne by done.
      * intros c l -> Hl. rewrite lookup_insert_ne; [done|]. congruence.
    + unfold block_addr. rewrite Hthis. cbn. by rewrite app_nil_r.
  - destruct Hown as [Hle [-> Ha]]. cbn [capacity_ buffer_] in *.
    assert (a <> b) as Hab by congruence.
    erewrite (run_dtor _ t a cap xs); cycle 1.
    { cbn [objs]. apply lookup_insert_eq. }
    { cbn [heap]. rewrite lookup_insert_ne by done. exact Ha. }
    eexists. split; [reflexivity|]. cbn [heap objs trace]. repeat split.
    + apply Hnew.
      * rewrite lookup_delete_ne, lookup_insert_ne, lookup_insert_eq by done. done.
      * rewrite lookup_delete_ne by done. apply lookup_insert_eq.
    + apply Hrv.
      * by rewrite lookup_delete_ne, !lookup_insert_ne by done.
      * intros c l -> Hl.
        assert (a <> c).
        { intros ->. eapply (Hdisj c); unfold block_addr.
          - by rewrite Hthis.
          - by rewrite Hrhs. }
        rewrite lookup_delete_ne, lookup_insert_ne; [done| |done]. congruence.
    + unfold block_addr. rewrite Hthis. cbn. by rewrite <- !app_assoc.
Qed.

End CopyAssignSpec.

(** * Move construction, move assignment and allocation *)

Section Moves.
Context {T : Type} `{Elem T} `{Allocator}.
Implicit Types (st : state T) (xs ys zs rs ds ss : list T) (x y : T).

Lemma vec_at_moved_from h o tr this :
  o !! this = Some (mkVector (mkRawMemory nullptr 0) 0) ->
  vec_at (T:=T) (mkState h o tr) this 0 [].
Proof.
  intros Ho. exists nullptr. split; [done|]. split; [|done].
  cbn. pose proof size_t_mod_pos. lia.
Qed.

Lemma ctor_move_spec st this other cap xs :
  this <> other -> vec_at st other cap xs ->
  exists st',
    run (Vector.ctor_move this other) st = (Ok tt, st') /\
    vec_at st' this cap xs /\ vec_at st' other 0 [] /\
    heap st' = heap st /\ trace st' = trace st.
Proof.
  intros Hne (buf & Hother & Hown). unfold Vector.ctor_move.
  rewrite (run_bind_ok _ _ _ _ _ (run_get_obj _ _ _ Hother)).
  cbn [RawMemory.ctor_move data_ size_ buffer_ capacity_].
  rewrite (run_bind_ok _ _ _ _ _ (run_set_obj _ _ _)).
  rewrite (run_bind_ok _ _ _ _ _ (run_set_obj _ _ _)).
  erewrite run_set_size; cycle 1.
  { cbn [objs]. rewrite lookup_insert_ne by done. apply lookup_insert_eq. }
  eexists. split; [reflexivity|]. cbn [heap objs trace data_]. repeat split.
  - exists buf. cbn [objs]. rewrite lookup_insert_ne, lookup_insert_eq by done.
    split; [done|]. exact Hown.
  - apply vec_at_moved_from. by rewrite lookup_insert_eq.
Qed.

Lemma operator_assign_move_spec st this rhs cap rcap xs ys :
  this <> rhs -> vec_at st this cap xs -> vec_at st rhs rcap ys ->
  (forall a, block_addr st this = Some a -> block_addr st rhs <> Some a) ->
  exists st',
    run (Vector.operator_assign_move this rhs) st = (Ok tt, st') /\
    vec_at st' this rcap ys /\ vec_at st' rhs 0 [] /\
    trace st' = trace st
      ++ match block_addr st this with Some a => [EvDelete a] | None => [] end.
Proof.
  intros Hne (buf & Hthis & Hown) (rbuf & Hrhs & Hrown) Hdisj.
  unfold Vector.operator_assign_move. rewrite decide_True by done.
  rewrite (run_bind_ok _ _ _ _ _ (run_get_obj _ _ _ Hthis)).
  rewrite (run_bind_ok _ _ _ _ _ (run_get_obj _ _ _ Hrhs)).
  unfold RawMemory.operator_assign_move. rewrite decide_True by done.
  cbn [data_ size_ buffer_ capacity_ RawMemory.Swap RawMemory.Deallocate].
  rewrite run_bind_assoc.
  assert (exists h,
    run (operator_delete buf) st
    = (Ok tt, mkState h (objs st)
                (trace st ++ match block_addr st this with
                             | Some a => [EvDelete a] | None => [] end)) /\
    (forall c l, rbuf = Ptr c 0 -> heap st !! c = Some l -> h !! c = Some l))
    as (h & Hdel & Hh).
  { unfold block_addr. rewrite Hthis. cbn [data_ buffer_]. destruct buf as [|a off].
    - exists (heap st). split; [|done]. cbn. rewrite app_nil_r. by destruct st.
    - destruct Hown as [_ [-> Ha]]. cbn [capacity_] in Ha.
      exists (delete a (heap st)). split.
      + unfold run, operator_delete. rewrite decide_True by done. by rewrite Ha.
      + intros c l -> Hl. rewrite lookup_delete_ne; [done|].
        intros ->. eapply (Hdisj c); unfold block_addr.
        * by rewrite Hthis.
        * by rewrite Hrhs. }
  rewrite (run_bind_ok _ _ _ _ _ Hdel).
  rewrite (run_bind_ok _ _ _ _ _ (run_ret _ _)). cbn [RawMemory.Swap buffer_ capacity_].
  rewrite (run_bind_ok _ _ _ _ _ (run_set_obj _ _ _)).
  erewrite run_bind_ok; cycle 1.
  { eapply run_set_data. cbn [objs]. rewrite lookup_insert_ne by done. exact Hrhs. }
  erewrite run_bind_ok; cycle 1.
  { eapply run_get_obj. cbn [objs]. apply lookup_insert_eq. }
  erewrite run_bind_ok; cycle 1.
  { eapply run_set_size. cbn [objs]. rewrite lookup_insert_ne by done. apply lookup_insert_eq. }
  erewrite run_set_size; cycle 1.
  { cbn [objs]. rewrite lookup_insert_ne by done. apply lookup_insert_eq. }
  eexists. split; [reflexivity|]. cbn [heap objs trace data_ size_]. repeat split.
  - exists rbuf. cbn [objs]. rewrite lookup_insert_ne, lookup_insert_eq by done.
    split; [done|]. destruct Hrown as [Hle Hr]. split; [done|].
    destruct rbuf as [|c off]; [done|]. destruct Hr as [-> Hc]. split; [done|].
    cbn [heap buffer_ capacity_] in *. by eapply Hh.
  - apply vec_at_moved_from. by rewrite lookup_insert_eq.
Qed.

Lemma self_assign_noop st this :
  run (Vector.operator_assign this this) st = (Ok tt, st) /\
  run (Vector.operator_assign_move this this) st = (Ok tt, st).
Proof.
  unfold Vector.operator_assign, Vector.operator_assign_move.
  by rewrite !decide_False by (intros Hn; by apply Hn).
Qed.

Lemma Allocate_spec st n :
  0 <= n < size_t_mod ->
  (n = 0 -> run (RawMemory.Allocate n) st = (Ok nullptr, st)) /\
  (n <> 0 -> can_allocate (wrap (n * sizeof)) = true ->
     heap st !! fresh (dom (heap st)) = None /\
     run (RawMemory.Allocate n) st
     = (Ok (Ptr (fresh (dom (heap st))) 0),
        mkState (<[fresh (dom (heap st))
                   := replicate (Z.to_nat (wrap (n * sizeof) / sizeof)) None]> (heap st))
                (objs st)
                (trace st ++ [EvNew (fresh (dom (heap st))) (wrap (n * sizeof))])) /\
     (n * sizeof < size_t_mod -> Z.to_nat (wrap (n * sizeof) / sizeof) = Z.to_nat n)) /\
  (n <> 0 -> can_allocate (wrap (n * sizeof)) = false ->
     run (RawMemory.Allocate n) st = (Throw bad_alloc, st)).
Proof.
  intros Hn. pose proof sizeof_pos as Hsz. unfold RawMemory.Allocate.
  split; [by intros ->|]. split.
  - intros Hn0 Hcan. split; [apply fresh_block|]. split.
    + destruct (Z.eqb_spec n 0); [done|]. unfold run, operator_new. by rewrite Hcan.
    + intros Hlt. rewrite wrap_small by nia. by rewrite Z.div_mul by lia.
  - intros Hn0 Hcan.
    destruct (Z.eqb_spec n 0); [done|]. unfold run, operator_new. by rewrite Hcan.
Qed.

End Moves.

(** * Erase, PopBack and in-place Emplace *)

Section Shifts.
Context {T : Type} `{Elem T} `{Allocator} `{!Regular T}.
Implicit Types (st : state T) (xs ys zs rs ds ss : list T) (x y d : T)
  (pre post : list (option T)).

(** Move assignment between two slots of one block. *)
Lemma run_move_assign_at st a (i j : nat) l d s :
  heap st !! a = Some l -> i <> j ->
  l !! i = Some (Some d) -> l !! j = Some (Some s) ->
  exists r,
    run (move_assign_at (Ptr a (Z.of_nat i)) (Ptr a (Z.of_nat j))) st
    = (Ok tt, mkState (<[a := <[i := Some s]> (<[j := Some r]> l)]> (heap st)) (objs st)
                      (trace st ++ [EvMoveAssign d s])).
Proof.
  intros Ha Hij Hi Hj. destruct (move_assign_ok d s) as [r Hr]. exists r.
  unfold move_assign_at.
  rewrite (run_bind_ok _ _ _ _ _ (run_load _ _ _ _ _ Ha Hi)).
  rewrite (run_bind_ok _ _ _ _ _ (run_load _ _ _ _ _ Ha Hj)), Hr.
  rewrite (run_bind_ok _ _ _ _ _ (run_log _ _)).
  erewrite run_bind_ok; [|by eapply (run_store _ _ _ l s r)].
  erewrite (run_store _ _ _ _ d s); cbn [heap objs trace].
  - by rewrite insert_insert_eq.
  - apply lookup_insert_eq.
  - by rewrite list_lookup_insert_ne.
Qed.

Lemma shift_forward_step pre d y r (rest : list (option T)) :
  <[length pre := Some y]> (<[S (length pre) := Some r]> (pre ++ Some d :: Some y :: rest))
  = (pre ++ [Some y]) ++ Some r :: rest.
Proof.
  rewrite <- app_assoc. cbn [app].
  rewrite (insert_app_r_alt _ _ (S (length pre))) by lia.
  replace (S (length pre) - length pre)%nat with 1%nat by lia. cbn.
  by rewrite insert_at_pre.
Qed.

Lemma shift_backward_step (l : list (option T)) (n : nat) y d r post :
  n = length l ->
  <[S n := Some y]> (<[n := Some r]> (l ++ Some y :: Some d :: post))
  = l ++ Some r :: Some y :: post.
Proof.
  intros ->. rewrite insert_at_pre.
  rewrite (insert_app_r_alt _ _ (S (length l))) by lia.
  replace (S (length l) - length l)%nat with 1%nat by lia. done.
Qed.

(** [std::move] towards the front: the objects [ys] behind the slot
    holding [d] each move one slot forward; the last source slot keeps
    a moved-from object. *)
Lemma run_move_loop ys : forall pre d post st a,
  heap st !! a = Some (pre ++ Some d :: (Some <$> ys) ++ post) ->
  exists r evs,
    run (move_loop (Ptr a (Z.of_nat (S (length pre)))) (Ptr a (Z.of_nat (length pre)))
           (length ys)) st
    = (Ok tt, mkState (<[a := pre ++ (Some <$> ys) ++ Some r :: post]> (heap st)) (objs st)
                      (trace st ++ evs)) /\
    Forall (fun e => copies_or_destroys e = false) evs.
Proof.
  induction ys as [|y ys IH]; intros pre d post st a Ha.
  - exists d, []. split; [|constructor]. cbn. rewrite insert_id by done.
    rewrite app_nil_r. by destruct st.
  - rewrite fmap_cons, <- app_comm_cons in *. cbn [length move_loop].
    destruct (run_move_assign_at st a (length pre) (S (length pre)) _ d y Ha ltac:(lia))
      as (r & Hstep).
    { apply lookup_at_pre. }
    { rewrite lookup_app_r by lia.
      replace (S (length pre) - length pre)%nat with 1%nat by lia. done. }
    rewrite (run_bind_ok _ _ _ _ _ Hstep).
    rewrite shift_forward_step.
    cbn [ptr_add].
    replace (Z.of_nat (S (length pre)) + 1) with (Z.of_nat (S (length (pre ++ [Some y]))))
      by (rewrite length_app; simpl; lia).
    rewrite (of_nat_snoc pre (Some y)).
    destruct (IH (pre ++ [Some y]) r post
                (mkState (<[a:=(pre ++ [Some y]) ++ Some r :: (Some <$> ys) ++ post]> (heap st))
                         (objs st) (trace st ++ [EvMoveAssign d y])) a)
      as (r' & evs & Hrun & Hevs).
    { cbn. apply lookup_insert_eq. }
    exists r', (EvMoveAssign d y :: evs). split; [|by constructor].
    rewrite Hrun. cbn [heap objs trace].
    rewrite insert_insert_eq, <- !app_assoc. done.
Qed.

(** [std::move_backward]: the objects [ys] in front of the slot
    holding [d] each move one slot back; the first source slot keeps a
    moved-from object. *)
Lemma run_move_backward_loop ys : forall pre d post st a,
  heap st !! a = Some (pre ++ (Some <$> ys) ++ Some d :: post) ->
  exists r evs,
    run (move_backward_loop (Ptr a (Z.of_nat (length pre + length ys)))
           (Ptr a (Z.of_nat (S (length pre + length ys)))) (length ys)) st
    = (Ok tt, mkState (<[a := pre ++ Some r :: (Some <$> ys) ++ post]> (heap st)) (objs st)
                      (trace st ++ evs)) /\
    Forall (fun e => copies_or_destroys e = false) evs.
Proof.
  induction ys as [|y ys IH] using rev_ind; intros pre d post st a Ha.
  - exists d, []. split; [|constructor]. cbn. rewrite insert_id by done.
    rewrite app_nil_r. by destruct st.
  - rewrite fmap_app, <- app_assoc in Ha. cbn [fmap list_fmap app] in Ha.
    rewrite length_app. cbn [length].
    replace (length ys + 1)%nat with (S (length ys)) by lia.
    cbn [move_backward_loop ptr_add].
    replace (Z.of_nat (S (length pre + S (length ys))) + -1)
      with (Z.of_nat (S (length pre + length ys))) by lia.
    replace (Z.of_nat (length pre + S (length ys)) + -1)
      with (Z.of_nat (length pre + length ys)) by lia.
    assert (length (pre ++ (Some <$> ys)) = (length pre + length ys)%nat) as Hl
      by (by rewrite length_app, length_fmap).
    rewrite app_assoc in Ha.
    destruct (run_move_assign_at st a (S (length pre + length ys)) (length pre + length ys)
                _ d y Ha ltac:(lia)) as (r & Hstep).
    { rewrite lookup_app_r by lia. rewrite Hl.
      replace (S (length pre + length ys) - (length pre + length ys))%nat with 1%nat by lia.
      done. }
    { rewrite <- Hl. apply lookup_at_pre. }
    rewrite (run_bind_ok _ _ _ _ _ Hstep).
    rewrite (shift_backward_step _ _ _ _ _ _ (eq_sym Hl)), <- app_assoc.
    destruct (IH pre r (Some y :: post)
                (mkState (<[a:=pre ++ (Some <$> ys) ++ Some r :: Some y :: post]> (heap st))
                         (objs st) (trace st ++ [EvMoveAssign d y])) a)
      as (r' & evs & Hrun & Hevs).
    { cbn. apply lookup_insert_eq. }
    exists r', (EvMoveAssign d y :: evs). split; [|by constructor].
    rewrite Hrun. cbn [heap objs trace].
    rewrite insert_insert_eq, fmap_app, <- !app_assoc. done.
Qed.

Lemma run_std_move st a pre d ys post (first last d_first : Z) :
  first = Z.of_nat (S (length pre)) -> last = first + Z.of_nat (length ys) ->
  d_first = Z.of_nat (length pre) ->
  heap st !! a = Some (pre ++ Some d :: (Some <$> ys) ++ post) ->
  exists r evs,
    run (std_move (Ptr a first) (Ptr a last) (Ptr a d_first)) st
    = (Ok tt, mkState (<[a := pre ++ (Some <$> ys) ++ Some r :: post]> (heap st)) (objs st)
                      (trace st ++ evs)) /\
    Forall (fun e => copies_or_destroys e = false) evs.
Proof.
  intros -> -> -> Ha. unfold std_move. cbn [ptr_diff]. rewrite decide_True by done.
  destruct (Z.ltb_spec (Z.of_nat (S (length pre)) + Z.of_nat (length ys)
                        - Z.of_nat (S (length pre))) 0); [lia|].
  replace (Z.to_nat (Z.of_nat (S (length pre)) + Z.of_nat (length ys)
                     - Z.of_nat (S (length pre)))) with (length ys) by lia.
  exact (run_move_loop ys pre d post st a Ha).
Qed.

Lemma run_move_backward st a pre d ys post (first last d_last : Z) :
  first = Z.of_nat (length pre) -> last = first + Z.of_nat (length ys) ->
  d_last = last + 1 ->
  heap st !! a = Some (pre ++ (Some <$> ys) ++ Some d :: post) ->
  exists r evs,
    run (move_backward (Ptr a first) (Ptr a last) (Ptr a d_last)) st
    = (Ok tt, mkState (<[a := pre ++ Some r :: (Some <$> ys) ++ post]> (heap st)) (objs st)
                      (trace st ++ evs)) /\
    Forall (fun e => copies_or_destroys e = false) evs.
Proof.
  intros -> -> -> Ha. unfold move_backward. cbn [ptr_diff]. rewrite decide_True by done.
  destruct (Z.ltb_spec (Z.of_nat (length pre) + Z.of_nat (length ys)
                        - Z.of_nat (length pre)) 0); [lia|].
  replace (Z.to_nat (Z.of_nat (length pre) + Z.of_nat (length ys)
                     - Z.of_nat (length pre))) with (length ys) by lia.
  replace (Z.of_nat (length pre) + Z.of_nat (length ys))
    with (Z.of_nat (length pre + length ys)) by lia.
  replace (Z.of_nat (length pre + length ys) + 1)
    with (Z.of_nat (S (length pre + length ys))) by lia.
  exact (run_move_backward_loop ys pre d post st a Ha).
Qed.

Lemma block_of_middle xs (i : nat) x cap :
  xs !! i = Some x ->
  block_of xs cap
  = (Some <$> take i xs) ++ Some x :: (Some <$> drop (S i) xs)
      ++ replicate (Z.to_nat cap - length xs) None.
Proof.
  intros Hi. unfold block_of. rewrite <- (take_drop_middle xs i x Hi) at 1.
  by rewrite fmap_app, fmap_cons, <- app_assoc.
Qed.

Lemma Erase_spec st this a cap xs (i : nat) x :
  vec_at st this cap xs -> block_addr st this = Some a -> xs !! i = Some x ->
  exists st' evs r,
    run (Vector.Erase this (Ptr a (Z.of_nat i))) st = (Ok (Ptr a (Z.of_nat i)), st') /\
    vec_at st' this cap (take i xs ++ drop (S i) xs) /\
    trace st' = trace st ++ evs ++ [EvDtor r] /\
    Forall (fun e => copies_or_destroys e = false) evs.
Proof.
  intros (buf & Hthis & Hown) Hblock Hi.
  pose proof (lookup_lt_Some _ _ _ Hi) as Hlt.
  unfold block_addr in Hblock. rewrite Hthis in Hblock. cbn in Hblock.
  destruct buf as [|a' off]; [done|]. injection Hblock as ->.
  destruct Hown as [Hle [-> Ha]]. cbn [capacity_ buffer_] in *.
  rewrite (block_of_middle xs i x cap Hi) in Ha.
  assert (length (take i xs) = i) as Htk by (rewrite length_take; lia).
  assert (length (drop (S i) xs) = (length xs - S i)%nat) as Hdr by apply length_drop.
  unfold Vector.Erase.
  rewrite (run_bind_ok _ _ _ _ _ (run_get_obj _ _ _ Hthis)).
  cbn [data_ size_ RawMemory.GetAddress buffer_ ptr_diff RawMemory.at_].
  rewrite decide_True by done. unfold from_option.
  rewrite (run_bind_ok _ _ _ _ _ (run_ret _ _)).
  rewrite Z.sub_0_r, (wrap_small (Z.of_nat i)) by lia.
  rewrite (run_bind_ok _ _ _ _ _ (run_begin _ _ _ Hthis)).
  rewrite (run_bind_ok _ _ _ _ _ (run_end _ _ _ Hthis)).
  cbn [data_ size_ RawMemory.GetAddress buffer_ ptr_add].
  destruct (run_std_move st a (Some <$> take i xs) x (drop (S i) xs)
              (replicate (Z.to_nat cap - length xs) None)
              (0 + Z.of_nat i + 1) (0 + Z.of_nat (length xs)) (0 + Z.of_nat i))
    as (r & evs & Hmove & Hevs); [rewrite ?length_fmap; lia..|exact Ha|].
  rewrite (run_bind_ok _ _ _ _ _ Hmove).
  rewrite wrap_small by lia.
  erewrite run_bind_ok; cycle 1.
  { unfold RawMemory.at_. cbn [buffer_ ptr_add].
    replace (0 + (Z.of_nat (length xs) - 1))
      with (Z.of_nat (length ((Some <$> take i xs) ++ (Some <$> drop (S i) xs))))
      by (rewrite length_app, !length_fmap; lia).
    eapply run_destroy_at; cbn [heap].
    - rewrite lookup_insert_eq. by rewrite app_assoc.
    - apply lookup_at_pre. }
  cbn [heap objs trace]. rewrite insert_at_pre, insert_insert_eq.
  erewrite run_bind_ok; cycle 1.
  { eapply run_set_size. cbn [objs]. exact Hthis. }
  erewrite run_bind_ok; cycle 1.
  { eapply run_begin. cbn [objs]. apply lookup_insert_eq. }
  cbn [data_ size_ RawMemory.GetAddress buffer_ ptr_add]. rewrite Z.add_0_l.
  exists (mkState
            (<[a := ((Some <$> take i xs) ++ (Some <$> drop (S i) xs))
                     ++ None :: replicate (Z.to_nat cap - length xs) None]> (heap st))
            (<[this := mkVector (mkRawMemory (Ptr a 0) cap) (Z.of_nat (length xs) - 1)]>
               (objs st))
            ((trace st ++ evs) ++ [EvDtor r])), evs, r.
  split; [reflexivity|]. cbn [heap objs trace]. split; [|split; [by rewrite <- app_assoc|done]].
  exists (Ptr a 0). cbn [objs heap]. rewrite lookup_insert_eq.
  assert (length (take i xs ++ drop (S i) xs) = (length xs - 1)%nat) as Hl
    by (rewrite length_app; lia).
  rewrite Hl. split; [do 2 f_equal; lia|]. split; [cbn; lia|].
  cbn [buffer_ capacity_ heap]. split; [done|]. rewrite lookup_insert_eq. f_equal.
  unfold block_of. rewrite fmap_app, Hl.
  replace (Z.to_nat cap - (length xs - 1))%nat with (S (Z.to_nat cap - length xs)) by lia.
  done.
Qed.

Lemma PopBack_spec st this cap xs x :
  vec_at st this cap (xs ++ [x]) ->
  exists st',
    run (Vector.PopBack this) st = (Ok tt, st') /\
    vec_at st' this cap xs /\ trace st' = trace st ++ [EvDtor x].
Proof.
  intros (buf & Hthis & Hown).
  destruct buf as [|a off].
  { apply owns_null in Hown as [_ Hnil]. by destruct xs. }
  destruct Hown as [Hle [-> Ha]]. cbn [capacity_ buffer_] in *.
  rewrite length_app in Hthis, Hle. cbn [length] in Hthis, Hle.
  unfold block_of in Ha. rewrite fmap_app, <- app_assoc in Ha. cbn in Ha.
  unfold Vector.PopBack.
  rewrite (run_bind_ok _ _ _ _ _ (run_get_obj _ _ _ Hthis)).
  cbn [data_ size_ RawMemory.GetAddress buffer_ ptr_add].
  erewrite run_bind_ok; cycle 1.
  { replace (0 + Z.of_nat (length xs + 1) + -1) with (Z.of_nat (length (Some <$> xs)))
      by (rewrite length_fmap; lia).
    eapply run_destroy_at; [exact Ha|apply lookup_at_pre]. }
  erewrite run_set_size; cycle 1.
  { cbn [objs]. exact Hthis. }
  eexists. split; [reflexivity|]. cbn [heap objs trace data_]. split; [|done].
  exists (Ptr a 0). cbn [objs heap]. rewrite lookup_insert_eq, wrap_small by lia.
  split; [do 2 f_equal; lia|]. split; [cbn; lia|].
  cbn [buffer_ capacity_ heap]. split; [done|]. rewrite lookup_insert_eq, insert_at_pre.
  f_equal. unfold block_of. f_equal. rewrite length_app. cbn [length].
  replace (Z.to_nat cap - length xs)%nat with (S (Z.to_nat cap - (length xs + 1))) by lia.
  done.
Qed.

(** Move construction between two slots of one block. *)
Lemma run_move_construct_at_same st a (i j : nat) l x :
  heap st !! a = Some l -> l !! j = Some (Some x) -> (i < length l)%nat ->
  exists r,
    run (move_construct_at (Ptr a (Z.of_nat i)) (Ptr a (Z.of_nat j))) st
    = (Ok tt, mkState (<[a := <[i := Some x]> (<[j := Some r]> l)]> (heap st)) (objs st)
                      (trace st ++ [EvMoveCtor x])).
Proof.
  intros Ha Hj Hi. destruct (move_ctor_ok x) as [r Hr]. exists r.
  unfold move_construct_at.
  rewrite (run_bind_ok _ _ _ _ _ (run_load _ _ _ _ _ Ha Hj)), Hr.
  rewrite (run_bind_ok _ _ _ _ _ (run_log _ _)).
  erewrite run_bind_ok; [|by eapply (run_store _ _ _ l x r)].
  erewrite run_construct; cbn [heap objs trace].
  - by rewrite insert_insert_eq.
  - apply lookup_insert_eq.
  - by rewrite length_insert.
Qed.

Lemma run_move_assign_from st a (i : nat) l d x :
  heap st !! a = Some l -> l !! i = Some (Some d) ->
  exists r,
    run (Vector.move_assign_from (Ptr a (Z.of_nat i)) x) st
    = (Ok r, mkState (<[a := <[i := Some x]> l]> (heap st)) (objs st)
                     (trace st ++ [EvMoveAssign d x])).
Proof.
  intros Ha Hi. destruct (move_assign_ok d x) as [r Hr]. exists r.
  unfold Vector.move_assign_from.
  rewrite (run_bind_ok _ _ _ _ _ (run_load _ _ _ _ _ Ha Hi)), Hr.
  rewrite (run_bind_ok _ _ _ _ _ (run_log _ _)).
  erewrite run_bind_ok; [|by eapply (run_store _ _ _ l d x)].
  done.
Qed.

Lemma move_last_step (l : list (option T)) x r tail :
  <[length (l ++ [Some x]) := Some x]> (<[length l := Some r]> (l ++ Some x :: None :: tail))
  = l ++ Some r :: Some x :: tail.
Proof.
  rewrite insert_at_pre, <- (snoc_app l (Some r)), <- (snoc_app l (Some r) (Some x :: tail)).
  replace (length (l ++ [Some x])) with (length (l ++ [Some r]))
    by (rewrite !length_app; done).
  by rewrite insert_at_pre.
Qed.

(** Insertion with spare capacity, in front of an existing element. *)
Lemma Emplace_in_place st this a cap xs last (i : nat) arg v :
  vec_at st this cap (xs ++ [last]) -> block_addr st this = Some a ->
  Z.of_nat (length (xs ++ [last])) < cap -> (i <= length xs)%nat ->
  init_result arg = Some v ->
  exists st',
    run (Vector.Emplace this (Ptr a (Z.of_nat i)) arg) st = (Ok (Ptr a (Z.of_nat i)), st') /\
    vec_at st' this cap (take i xs ++ v :: drop i xs ++ [last]) /\
    block_addr st' this = Some a.
Proof.
  intros (buf & Hthis & Hown) Hblock Hcap Hi Harg.
  unfold block_addr in Hblock. rewrite Hthis in Hblock. cbn in Hblock.
  destruct buf as [|a' off]; [done|]. injection Hblock as ->.
  destruct Hown as [Hle [-> Ha]]. cbn [capacity_ buffer_] in *.
  rewrite length_app in Hthis, Hle, Hcap. cbn [length] in Hthis, Hle, Hcap.
  set (n := length xs) in *.
  assert (length (take i xs) = i) as Htk by (rewrite length_take; lia).
  assert (length (drop i xs) = (n - i)%nat) as Hdr by apply length_drop.
  (* the block: xs before i, xs from i, the last element, a free slot *)
  assert (heap st !! a
          = Some ((Some <$> take i xs) ++ (Some <$> drop i xs)
                    ++ Some last :: None
                    :: replicate (Z.to_nat cap - (n + 1) - 1) None)) as Ha'.
  { rewrite Ha. f_equal. unfold block_of.
    rewrite length_app. cbn [length]. fold n.
    rewrite fmap_app, <- (take_drop i xs) at 1. rewrite fmap_app, <- !app_assoc.
    do 2 f_equal. cbn. f_equal.
    destruct (Z.to_nat cap - (n + 1))%nat as [|k] eqn:Hk; [lia|].
    cbn. do 2 f_equal. lia. }
  clear Ha.
  unfold Vector.Emplace.
  rewrite (run_bind_ok _ _ _ _ _ (run_get_obj _ _ _ Hthis)).
  cbn [data_ size_ RawMemory.GetAddress RawMemory.Capacity capacity_ buffer_ ptr_diff
       RawMemory.at_].
  rewrite decide_True by done. unfold from_option.
  rewrite (run_bind_ok _ _ _ _ _ (run_ret _ _)).
  rewrite Z.sub_0_r, (wrap_small (Z.of_nat i)) by lia.
  destruct (Z.eqb_spec (Z.of_nat (n + 1)) cap); [lia|].
  destruct (Z.eqb_spec (Z.of_nat (n + 1)) 0); [lia|]. cbn [negb].
  rewrite !run_bind_assoc.
  rewrite (run_bind_ok _ _ _ _ _ (run_run_init _ _ _ Harg)).
  rewrite !run_bind_assoc.
  erewrite run_bind_ok; [|by eapply run_begin].
  rewrite !run_bind_assoc.
  erewrite run_bind_ok; [|by eapply run_end].
  cbn [data_ size_ buffer_ ptr_add]. rewrite !run_bind_assoc.
  set (pre := Some <$> take i xs) in *.
  set (mid := Some <$> drop i xs) in *.
  set (tail := replicate (Z.to_nat cap - (n + 1) - 1) (@None T)) in *.
  assert (length pre = i) as Hpre by (subst pre; by rewrite length_fmap).
  assert (length mid = (n - i)%nat) as Hmid by (subst mid; by rewrite length_fmap).
  (* the last element moves into the free slot *)
  destruct (run_move_construct_at_same
              (mkState (heap st) (objs st) (trace st ++ [init_event arg v])) a
              (length ((pre ++ mid) ++ [Some last])) (length (pre ++ mid))
              ((pre ++ mid) ++ Some last :: None :: tail) last) as (r0 & Hstep1).
  { cbn [heap]. by rewrite <- app_assoc. }
  { apply lookup_at_pre. }
  { rewrite !length_app. cbn [length]. lia. }
  replace (Z.of_nat (length ((pre ++ mid) ++ [Some last]))) with (0 + Z.of_nat (n + 1))
    in Hstep1 by (rewrite !length_app; cbn [length]; lia).
  replace (Z.of_nat (length (pre ++ mid))) with (0 + wrap (Z.of_nat (n + 1) - 1))
    in Hstep1 by (rewrite wrap_small, length_app by lia; lia).
  rewrite move_last_step in Hstep1.
  (* the elements from i shift one slot back *)
  destruct (run_move_backward
              (mkState (<[a := (pre ++ mid) ++ Some r0 :: Some last :: tail]> (heap st))
                       (objs st) ((trace st ++ [init_event arg v]) ++ [EvMoveCtor last]))
              a pre r0 (drop i xs) (Some last :: tail)
              (0 + Z.of_nat i) (0 + Z.of_nat (n + 1) + -1) (0 + Z.of_nat (n + 1)))
    as (r1 & evs & Hstep2 & _); [lia..| |].
  { cbn [heap]. rewrite lookup_insert_eq. by rewrite <- app_assoc. }
  cbn [heap objs trace] in Hstep2. rewrite insert_insert_eq in Hstep2.
  (* the new element is assigned to slot i *)
  destruct (run_move_assign_from
              (mkState (<[a := pre ++ Some r1 :: (Some <$> drop i xs) ++ Some last :: tail]>
                          (heap st))
                       (objs st)
                       (((trace st ++ [init_event arg v]) ++ [EvMoveCtor last]) ++ evs))
              a (length pre) _ r1 v (lookup_insert_eq _ _ _) (lookup_at_pre _ _ _))
    as (r2 & Hstep3).
  rewrite Hpre in Hstep3. cbn [heap objs trace] in Hstep3.
  rewrite <- Hpre, insert_at_pre, insert_insert_eq, Hpre in Hstep3.
  erewrite run_bind_ok; cycle 1.
  { apply run_unwind_ok.
    rewrite (run_bind_ok _ _ _ _ _ Hstep1).
    rewrite (run_bind_ok _ _ _ _ _ Hstep2).
    exact Hstep3. }
  rewrite (run_bind_ok _ _ _ _ _ (run_log _ _)).
  erewrite run_bind_ok; cycle 1.
  { eapply run_set_size. cbn [objs]. exact Hthis. }
  erewrite run_bind_ok; cycle 1.
  { eapply run_begin. cbn [objs]. apply lookup_insert_eq. }
  cbn [data_ size_ buffer_ ptr_add]. rewrite Z.add_0_l.
  eexists. split; [reflexivity|].
  split; [|unfold block_addr; cbn [objs]; by rewrite lookup_insert_eq].
  exists (Ptr a 0). cbn [objs heap]. rewrite lookup_insert_eq, wrap_small by lia.
  assert (length (take i xs ++ v :: drop i xs ++ [last]) = (n + 2)%nat) as Hl.
  { rewrite length_app. cbn [length]. rewrite length_app. cbn [length]. lia. }
  rewrite Hl. split; [do 2 f_equal; lia|]. split; [cbn; lia|].
  cbn [buffer_ capacity_ heap]. split; [done|]. rewrite lookup_insert_eq. f_equal.
  unfold block_of. rewrite Hl. subst pre mid tail.
  rewrite fmap_app, fmap_cons, fmap_app. cbn [fmap list_fmap].
  rewrite <- !app_assoc. cbn [app].
  rewrite <- app_assoc. cbn [app]. do 4 f_equal. f_equal. lia.
Qed.

(** Insertion into an empty vector with spare capacity. *)
Lemma Emplace_into_empty st this a cap arg v :
  vec_at st this cap [] -> block_addr st this = Some a -> 0 < cap ->
  init_result arg = Some v ->
  exists st',
    run (Vector.Emplace this (Ptr a 0) arg) st = (Ok (Ptr a 0), st') /\
    vec_at st' this cap [v] /\
    block_addr st' this = Some a.
Proof.
  intros (buf & Hthis & Hown) Hblock Hcap Harg.
  unfold block_addr in Hblock. rewrite Hthis in Hblock. cbn in Hblock.
  destruct buf as [|a' off]; [done|]. injection Hblock as ->.
  destruct Hown as [Hle [-> Ha]]. cbn [capacity_ buffer_ length] in *.
  unfold Vector.Emplace.
  rewrite (run_bind_ok _ _ _ _ _ (run_get_obj _ _ _ Hthis)).
  cbn [data_ size_ RawMemory.GetAddress RawMemory.Capacity capacity_ buffer_ ptr_diff].
  rewrite decide_True by done. unfold from_option.
  rewrite (run_bind_ok _ _ _ _ _ (run_ret _ _)).
  change (wrap (0 - 0)) with 0.
  destruct (Z.eqb_spec (Z.of_nat 0) cap); [simpl in *; lia|].
  change (Z.of_nat 0 =? 0) with true. cbn [negb].
  erewrite run_bind_ok; cycle 1.
  { eapply (run_construct_from _ a 0 _ arg v Harg Ha).
    rewrite block_of_length; simpl; lia. }
  erewrite run_bind_ok; cycle 1.
  { eapply run_set_size. cbn [objs]. exact Hthis. }
  erewrite run_bind_ok; cycle 1.
  { eapply run_begin. cbn [objs]. apply lookup_insert_eq. }
  eexists. split; [reflexivity|].
  split; [|unfold block_addr; cbn [objs]; by rewrite lookup_insert_eq].
  exists (Ptr a 0). cbn [objs heap]. rewrite lookup_insert_eq.
  split; [done|]. split; [cbn; lia|].
  cbn [buffer_ capacity_ heap]. split; [done|]. rewrite lookup_insert_eq. f_equal.
  apply (block_of_snoc [] v cap). simpl. lia.
Qed.

(** Insertion with spare capacity followed by erasure at the same
    position gives the sequence back. *)
Lemma insert_then_erase st this a cap xs (i : nat) arg v :
  vec_at st this cap xs -> block_addr st this = Some a ->
  Z.of_nat (length xs) < cap ->
  (i < length xs)%nat \/ (xs = [] /\ i = 0%nat) ->
  init_result arg = Some v ->
  exists p st1 q st2,
    run (Vector.Emplace this (Ptr a (Z.of_nat i)) arg) st = (Ok p, st1) /\
    vec_at st1 this cap (take i xs ++ v :: drop i xs) /\
    run (Vector.Erase this p) st1 = (Ok q, st2) /\
    vec_at st2 this cap xs.
Proof.
  intros Hvec Hblock Hcap Hpos Harg.
  assert (exists st1,
    run (Vector.Emplace this (Ptr a (Z.of_nat i)) arg) st = (Ok (Ptr a (Z.of_nat i)), st1) /\
    vec_at st1 this cap (take i xs ++ v :: drop i xs) /\
    block_addr st1 this = Some a) as (st1 & Hrun1 & Hvec1 & Hblock1).
  { destruct Hpos as [Hlt|[-> ->]].
    - destruct xs as [|last xs _] using rev_ind; [simpl in Hlt; lia|].
      rewrite length_app in Hlt. cbn [length] in Hlt.
      destruct (Emplace_in_place st this a cap xs last i arg v Hvec Hblock Hcap
                  ltac:(lia) Harg) as (st1 & Hrun1 & Hvec1 & Hblock1).
      exists st1. rewrite take_app_le, drop_app_le by lia. done.
    - apply Emplace_into_empty; [done..|lia|done]. }
  assert ((take i xs ++ v :: drop i xs) !! i = Some v) as Hi.
  { assert (length (take i xs) = i) as Htk.
    { rewrite length_take. destruct Hpos as [?|[-> ->]]; [lia|done]. }
    pose proof (lookup_at_pre (take i xs) v (drop i xs)) as Hlk.
    by rewrite Htk in Hlk. }
  destruct (Erase_spec st1 this a cap _ i v Hvec1 Hblock1 Hi)
    as (st2 & evs & r & Hrun2 & Hvec2 & _).
  exists (Ptr a (Z.of_nat i)), st1, (Ptr a (Z.of_nat i)), st2.
  repeat split; [done..|].
  assert (length (take i xs) = i) as Htk.
  { rewrite length_take. destruct Hpos as [?|[-> ->]]; [lia|done]. }
  rewrite take_app_length' in Hvec2 by done.
  rewrite (cons_middle v), app_assoc, drop_app_length' in Hvec2
    by (rewrite length_app; cbn [length]; lia).
  by rewrite take_drop in Hvec2.
Qed.

End Shifts.

(** * Emplace into a full vector *)

Section EmplaceRealloc.
Context {T : Type} `{Elem T} `{Allocator}.
Implicit Types (st : state T) (xs ys zs rs ds ss : list T) (x y d : T)
  (pre post : list (option T)).

Lemma relocated_app xs1 xs2 zs1 rs1 zs2 rs2 :
  relocated xs1 zs1 rs1 -> relocated xs2 zs2 rs2 ->
  relocated (xs1 ++ xs2) (zs1 ++ zs2) (rs1 ++ rs2).
Proof.
  unfold relocated. destruct relocation_moves.
  - intros (zrs1 & H1 & -> & ->) (zrs2 & H2 & -> & ->).
    exists (zrs1 ++ zrs2). rewrite !fmap_app. split; [|done]. by apply Forall2_app.
  - intros [H1 ->] [H2 ->]. split; [|done]. by apply Forall2_app.
Qed.

Lemma insert_after_replicate (i : nat) (x y z : option T) rest :
  <[i := y]> (replicate i x ++ z :: rest) = replicate i x ++ y :: rest.
Proof.
  rewrite insert_app_r_alt by (rewrite length_replicate; lia).
  by rewrite length_replicate, Nat.sub_diag.
Qed.

(** Insertion into a full vector when no relocation throws: the new
    element is constructed first, then the elements before and behind
    the position are relocated around it. *)
Lemma Emplace_realloc st this a cap xs (i : nat) arg v zs1 rs1 zs2 rs2 :
  vec_at st this cap xs -> block_addr st this = Some a ->
  Z.of_nat (length xs) = cap -> (i <= length xs)%nat ->
  init_result arg = Some v ->
  relocated (take i xs) zs1 rs1 -> relocated (drop i xs) zs2 rs2 ->
  grown cap cap * sizeof < size_t_mod -> can_allocate (grown cap cap * sizeof) = true ->
  exists st',
    run (Vector.Emplace this (Ptr a (Z.of_nat i)) arg) st
    = (Ok (Ptr (fresh (dom (heap st))) (Z.of_nat i)), st') /\
    vec_at st' this (grown cap cap) (zs1 ++ v :: zs2) /\
    trace st' = trace st
      ++ [EvNew (fresh (dom (heap st))) (grown cap cap * sizeof); init_event arg v]
      ++ relocation_events (take i xs) ++ relocation_events (drop i xs)
      ++ (EvDtor <$> rs1 ++ rs2) ++ [EvDelete a].
Proof.
  intros (buf & Hthis & Hown) Hblock Hfull Hi Harg Hrel1 Hrel2 Hlt Hcan.
  pose proof sizeof_pos as Hsz.
  unfold block_addr in Hblock. rewrite Hthis in Hblock. cbn in Hblock.
  destruct buf as [|a' off]; [done|]. injection Hblock as ->.
  destruct Hown as [Hle [-> Ha]]. cbn [capacity_ buffer_] in *.
  pose proof (relocated_length _ _ _ Hrel1) as [Hlz1 Hlr1].
  pose proof (relocated_length _ _ _ Hrel2) as [Hlz2 Hlr2].
  assert (length (take i xs) = i) as Htk by (rewrite length_take; lia).
  assert (length (drop i xs) = (length xs - i)%nat) as Hdr by apply length_drop.
  unfold grown in *. rewrite Z.eqb_refl in *. rewrite <- Hfull in *.
  set (n := length xs) in *.
  set (cap' := if Z.of_nat n =? 0 then 1 else Z.of_nat n * 2) in *.
  assert (Z.of_nat n < cap' < size_t_mod) as Hcap'.
  { subst cap'. destruct (Z.eqb_spec (Z.of_nat n) 0); nia. }
  assert ((if Z.of_nat n =? 0 then 1 else wrap (Z.of_nat n * 2)) = cap') as Hw.
  { subst cap'. destruct (Z.eqb_spec (Z.of_nat n) 0); [done|]. apply wrap_small. lia. }
  assert (heap st !! a = Some ([] ++ (Some <$> take i xs) ++ (Some <$> drop i xs))) as Ha1.
  { rewrite Ha. unfold block_of. rewrite Nat2Z.id. subst n. rewrite Nat.sub_diag.
    cbn [replicate app]. rewrite <- fmap_app, take_drop. by rewrite app_nil_r. }
  unfold Vector.Emplace.
  rewrite (run_bind_ok _ _ _ _ _ (run_get_obj _ _ _ Hthis)).
  cbn [data_ size_ RawMemory.GetAddress RawMemory.Capacity capacity_ buffer_ ptr_diff].
  rewrite decide_True by done. unfold from_option.
  rewrite (run_bind_ok _ _ _ _ _ (run_ret _ _)).
  rewrite Z.sub_0_r, (wrap_small (Z.of_nat i)) by lia.
  rewrite Z.eqb_refl, Hw.
  rewrite !run_bind_assoc.
  rewrite (run_bind_ok _ _ _ _ _ (run_RawMemory_ctor st cap' ltac:(lia) Hlt Hcan)).
  pose proof (fresh_block st) as Hfresh.
  set (b := fresh (dom (heap st))) in *.
  assert (a <> b) as Hab by congruence.
  rewrite !run_bind_assoc.
  set (free1 := replicate (Z.to_nat cap' - n - 1) (@None T)).
  assert (replicate (Z.to_nat cap') (@None T)
          = replicate i None ++ None :: replicate (n - i) None ++ free1) as Hnew.
  { subst free1. rewrite <- replicate_add.
    change (None :: replicate (n - i + (Z.to_nat cap' - n - 1)) (@None T))
      with (replicate (S (n - i + (Z.to_nat cap' - n - 1))) (@None T)).
    rewrite <- replicate_add. f_equal. lia. }
  erewrite run_bind_ok; cycle 1.
  { apply run_unwind_ok.
    (* the new element *)
    erewrite run_bind_ok; cycle 1.
    { unfold RawMemory.plus. cbn [buffer_ ptr_add]. rewrite Z.add_0_l.
      eapply (run_construct_from _ b i _ arg v Harg); cbn [heap].
      - apply lookup_insert_eq.
      - rewrite length_replicate. lia. }
    cbn [heap objs trace]. rewrite insert_insert_eq, Hnew.
    rewrite insert_after_replicate.
    (* the elements before the position *)
    erewrite run_bind_ok; cycle 1.
    { unfold Vector.FillBehindIndex. apply run_try_ok.
      replace (Z.of_nat i) with (Z.of_nat (length (take i xs))) by lia.
      eapply (run_FillNewData _ this a b _ cap' _ (take i xs) zs1 rs1 [] _ []
                (Some v :: replicate (n - i) None ++ free1)); cbn [heap objs]; [exact Hthis|..].
      - rewrite lookup_insert_ne by done. exact Ha1.
      - rewrite lookup_insert_eq, Htk. done.
      - done.
      - done. }
    cbn [heap objs trace app].
    (* the elements behind it *)
    erewrite run_bind_ok; cycle 1.
    { unfold Vector.FillAfterIndex.
      erewrite run_bind_ok; [|eapply run_get_obj; cbn [objs]; exact Hthis].
      cbn [size_]. apply run_try_ok.
      rewrite !wrap_small by lia.
      replace (Z.of_nat n - Z.of_nat i) with (Z.of_nat (length (drop i xs))) by lia.
      replace (Z.of_nat i + 1) with (Z.of_nat (length ((Some <$> zs1) ++ [Some v])))
        by (rewrite length_app, length_fmap; cbn [length]; lia).
      replace (Z.of_nat i) with (Z.of_nat (length (Some <$> rs1)))
        by (rewrite length_fmap; lia).
      eapply (run_FillNewData _ this a b _ cap' _ (drop i xs) zs2 rs2 (Some <$> rs1) []
                ((Some <$> zs1) ++ [Some v]) free1); cbn [heap objs]; [exact Hthis|..].
      - rewrite lookup_insert_ne by done. rewrite lookup_insert_eq. by rewrite app_nil_r.
      - rewrite lookup_insert_eq, Hdr, <- app_assoc. done.
      - done.
      - done. }
    cbn [heap objs trace].
    (* the old elements *)
    eapply (run_destroy_n_front _ a (rs1 ++ rs2) []); cbn [heap].
    - rewrite lookup_insert_ne by done. rewrite lookup_insert_eq.
      by rewrite fmap_app, !app_nil_r.
    - rewrite length_app. lia. }
  cbn [heap objs trace RawMemory.Swap buffer_ capacity_]. rewrite ?run_bind_assoc.
  erewrite run_bind_ok; cycle 1.
  { eapply run_set_data. cbn [objs]. exact Hthis. }
  erewrite run_bind_ok; cycle 1.
  { eapply run_RawMemory_dtor. cbn [heap]. apply lookup_insert_eq. }
  erewrite run_bind_ok; cycle 1.
  { eapply run_set_size. cbn [objs]. apply lookup_insert_eq. }
  erewrite run_bind_ok; cycle 1.
  { eapply run_begin. cbn [objs]. apply lookup_insert_eq. }
  cbn [data_ size_ buffer_ ptr_add]. rewrite Z.add_0_l.
  eexists. split; [reflexivity|]. cbn [heap objs trace]. split.
  - exists (Ptr b 0). cbn [objs heap]. rewrite lookup_insert_eq, wrap_small by lia.
    assert (length (zs1 ++ v :: zs2) = (n + 1)%nat) as Hl.
    { rewrite length_app. cbn [length]. lia. }
    rewrite Hl. split; [do 2 f_equal; lia|]. split; [cbn; lia|].
    cbn [buffer_ capacity_ heap]. split; [done|].
    rewrite lookup_delete_ne by done.
    rewrite lookup_insert_ne by done. rewrite lookup_insert_eq. f_equal.
    unfold block_of. rewrite Hl, fmap_app, fmap_cons, <- !app_assoc. cbn [app].
    subst free1. do 4 f_equal. lia.
  - rewrite <- !app_assoc. done.
Qed.

End EmplaceRealloc.

(** * Constructors and the destructor *)

Section Lifetime.
Context {T : Type} `{Elem T} `{Allocator}.
Implicit Types (st : state T) (xs ys zs rs : list T) (x y d : T)
  (pre post : list (option T)).

(** [std::uninitialized_value_construct_n] over free slots. *)
Lemma run_value_construct_loop d (k : nat) :
  value_ctor = Some d ->
  forall result m pre post st b,
    heap st !! b = Some (pre ++ replicate k None ++ post) ->
    run (construct_loop (fun p _ => value_construct_at p) result m nullptr
           (Ptr b (Z.of_nat (length pre))) k) st
    = (Ok tt, mkState (<[b := pre ++ replicate k (Some d) ++ post]> (heap st)) (objs st)
                      (trace st ++ replicate k (EvValueCtor d))).
Proof.
  intros Hd. induction k as [|k IH]; intros result m pre post st b Hb.
  - simpl. rewrite insert_id by done. rewrite app_nil_r. by destruct st.
  - cbn [construct_loop replicate].
    assert (run (value_construct_at (Ptr b (Z.of_nat (length pre)))) st
            = (Ok tt, mkState (<[b := pre ++ Some d :: replicate k None ++ post]> (heap st))
                              (objs st) (trace st ++ [EvValueCtor d]))) as Hstep.
    { unfold value_construct_at. rewrite Hd.
      rewrite (run_bind_ok _ _ _ _ _ (run_log _ _)).
      rewrite (run_construct _ b _ (pre ++ replicate (S k) None ++ post)); cbn [heap].
      - cbn [replicate app]. by rewrite insert_at_pre.
      - done.
      - rewrite length_app. simpl. lia. }
    rewrite (run_bind_ok _ _ _ _ _ (run_unwind_ok _ _ _ _ _ Hstep)).
    cbn [ptr_add].
    rewrite of_nat_snoc with (x := Some d).
    rewrite (IH _ _ (pre ++ [Some d]) post); cbn [heap objs trace].
    + rewrite insert_insert_eq, snoc_app, <- app_assoc. done.
    + rewrite lookup_insert_eq, snoc_app. done.
Qed.

Lemma run_value_construct_n d st b pre post (i : nat) n :
  value_ctor = Some d ->
  heap st !! b = Some (pre ++ replicate (Z.to_nat n) None ++ post) ->
  i = length pre ->
  run (uninitialized_value_construct_n (Ptr b (Z.of_nat i)) n) st
  = (Ok tt, mkState (<[b := pre ++ replicate (Z.to_nat n) (Some d) ++ post]> (heap st))
                    (objs st) (trace st ++ replicate (Z.to_nat n) (EvValueCtor d))).
Proof.
  intros Hd Hb ->. unfold uninitialized_value_construct_n, uninitialized_loop.
  by apply run_value_construct_loop.
Qed.

Lemma run_value_construct_n_throws st p n :
  value_ctor = None -> 0 < n ->
  run (uninitialized_value_construct_n p n) st = (Throw elem_exn, st).
Proof.
  intros Hd Hn. unfold uninitialized_value_construct_n, uninitialized_loop.
  destruct (Z.to_nat n) as [|k] eqn:Hk; [lia|].
  cbn [construct_loop]. apply run_bind_throw.
  eapply run_unwind_throw; [|apply run_ret].
  unfold value_construct_at. by rewrite Hd.
Qed.

Lemma RawMemory_ctor_zero st :
  run (RawMemory.ctor 0) st = (Ok (mkRawMemory nullptr 0), st).
Proof. done. Qed.

Lemma block_of_full xs : block_of xs (Z.of_nat (length xs)) = Some <$> xs.
Proof. unfold block_of. by rewrite Nat2Z.id, Nat.sub_diag, app_nil_r. Qed.

(** [Vector(size_t size)] *)
Lemma ctor_size_ok st this n d :
  value_ctor = Some d -> 0 <= n < size_t_mod ->
  (n <> 0 -> n * sizeof < size_t_mod /\ can_allocate (n * sizeof) = true) ->
  exists st',
    run (Vector.ctor_size this n) st = (Ok tt, st') /\
    vec_at st' this n (replicate (Z.to_nat n) d) /\
    (forall r, r <> this -> objs st' !! r = objs st !! r) /\
    (forall c l, heap st !! c = Some l -> heap st' !! c = Some l) /\
    trace st' = trace st
      ++ (if n =? 0 then [] else [EvNew (fresh (dom (heap st))) (n * sizeof)])
      ++ replicate (Z.to_nat n) (EvValueCtor d).
Proof.
  intros Hd Hn Halloc. unfold Vector.ctor_size.
  destruct (Z.eqb_spec n 0) as [->|Hne].
  - rewrite (run_bind_ok _ _ _ _ _ (RawMemory_ctor_zero st)).
    eexists. split; [reflexivity|]. cbn. repeat split.
    + exists nullptr. cbn. rewrite lookup_insert_eq. repeat split;
        first [done | pose proof size_t_mod_pos; lia].
    + intros r Hr. by rewrite lookup_insert_ne.
    + done.
    + by rewrite app_nil_r.
  - destruct (Halloc Hne) as [Hlt Hcan].
    rewrite (run_bind_ok _ _ _ _ _ (run_RawMemory_ctor st n ltac:(lia) Hlt Hcan)).
    pose proof (fresh_block st) as Hfresh.
    set (b := fresh (dom (heap st))) in *.
    rewrite ?run_bind_assoc.
    erewrite run_bind_ok; cycle 1.
    { apply run_unwind_ok. cbn [RawMemory.GetAddress buffer_].
      apply (run_value_construct_n d _ b [] [] 0 n Hd); [|done].
      cbn [heap]. rewrite lookup_insert_eq. by rewrite app_nil_r. }
    rewrite run_set_obj. cbn.
    eexists. split; [reflexivity|]. cbn. repeat split.
    + exists (Ptr b 0). cbn [objs heap]. rewrite lookup_insert_eq.
      rewrite length_replicate, Z2Nat.id by lia.
      split; [done|]. split; [rewrite length_replicate; cbn; lia|].
      split; [done|]. cbn.
      rewrite insert_insert_eq, lookup_insert_eq. f_equal.
      rewrite app_nil_r. unfold block_of.
      rewrite length_replicate, Nat.sub_diag, app_nil_r. by rewrite fmap_replicate.
    + intros r Hr. by rewrite lookup_insert_ne.
    + intros c l Hc. rewrite insert_insert_eq.
      rewrite lookup_insert_ne by congruence. done.
    + by rewrite <- app_assoc.
Qed.

Lemma ctor_size_throws st this n :
  value_ctor = None -> 0 < n -> n * sizeof < size_t_mod -> can_allocate (n * sizeof) = true ->
  run (Vector.ctor_size this n) st
  = (Throw elem_exn,
     mkState (heap st) (objs st)
             (trace st ++ [EvNew (fresh (dom (heap st))) (n * sizeof);
                           EvDelete (fresh (dom (heap st)))])).
Proof.
  intros Hd Hn Hlt Hcan. unfold Vector.ctor_size.
  rewrite (run_bind_ok _ _ _ _ _ (run_RawMemory_ctor st n Hn Hlt Hcan)).
  pose proof (fresh_block st) as Hfresh.
  set (b := fresh (dom (heap st))) in *.
  rewrite ?run_bind_assoc.
  erewrite run_bind_throw; cycle 1.
  { eapply run_unwind_throw.
    - by apply run_value_construct_n_throws.
    - eapply run_RawMemory_dtor. cbn [heap]. apply lookup_insert_eq. }
  cbn. rewrite delete_insert_id by done. by rewrite <- app_assoc.
Qed.

End Lifetime.

Section Copies.
Context {T : Type} `{Elem T} `{Allocator}.
Implicit Types (st : state T) (xs ys zs rs : list T) (x y d : T)
  (pre post : list (option T)).

Lemma Forall2_copy_length ys zs :
  Forall2 (fun y z => copy_ctor y = Some z) ys zs -> length zs = length ys.
Proof. intros Hf. symmetry. by eapply Forall2_length. Qed.

(** The events of an allocation for [n] elements: none when [n = 0]. *)
Lemma ctor_copy_ok st this other rcap ys zs :
  vec_at st other rcap ys -> this <> other ->
  Forall2 (fun y z => copy_ctor y = Some z) ys zs ->
  (ys <> [] -> Z.of_nat (length ys) * sizeof < size_t_mod /\
               can_allocate (Z.of_nat (length ys) * sizeof) = true) ->
  run (Vector.ctor_copy this other) st
  = (Ok tt,
     match ys with
     | [] => mkState (heap st) (<[this := mkVector (mkRawMemory nullptr 0) 0]> (objs st))
                     (trace st)
     | _ =>
       mkState (<[fresh (dom (heap st)) := Some <$> zs]> (heap st))
               (<[this := mkVector (mkRawMemory (Ptr (fresh (dom (heap st))) 0)
                                      (Z.of_nat (length ys)))
                                   (Z.of_nat (length ys))]> (objs st))
               (trace st ++ [EvNew (fresh (dom (heap st))) (Z.of_nat (length ys) * sizeof)]
                  ++ (EvCopyCtor <$> ys))
     end).
Proof.
  intros (buf & Hother & Hown) Hne Hcopy Halloc.
  unfold Vector.ctor_copy.
  rewrite (run_bind_ok _ _ _ _ _ (run_get_obj _ _ _ Hother)). cbn [size_ data_].
  destruct ys as [|y0 ys0].
  { cbn [length Z.of_nat]. rewrite (run_bind_ok _ _ _ _ _ (RawMemory_ctor_zero st)).
    rewrite ?run_bind_assoc.
    erewrite run_bind_ok; cycle 1.
    { apply run_unwind_ok. unfold uninitialized_copy_n. cbn. reflexivity. }
    by rewrite run_set_obj. }
  set (ys := y0 :: ys0) in *.
  destruct (Halloc ltac:(done)) as [Hlt Hcan].
  assert (0 < Z.of_nat (length ys)) as Hpos by (subst ys; simpl; lia).
  rewrite (run_bind_ok _ _ _ _ _ (run_RawMemory_ctor st _ Hpos Hlt Hcan)).
  pose proof (fresh_block st) as Hfresh.
  set (b := fresh (dom (heap st))) in *.
  destruct buf as [|c off].
  { apply owns_null in Hown as [_ ?]. done. }
  destruct Hown as [Hle [-> Hc]]. cbn [capacity_ buffer_] in Hle, Hc.
  assert (c <> b) as Hcb by congruence.
  rewrite ?run_bind_assoc.
  erewrite run_bind_ok; cycle 1.
  { apply run_unwind_ok. unfold uninitialized_copy_n, RawMemory.GetAddress.
    cbn [buffer_]. rewrite Nat2Z.id.
    refine (run_uninitialized_copy ys zs Hcopy [] _ [] [] _ c b Hcb _ _); cbn [heap].
    - rewrite lookup_insert_ne by done. exact Hc.
    - rewrite lookup_insert_eq. cbn [app]. by rewrite app_nil_r. }
  rewrite run_set_obj. cbn [heap objs trace app].
  rewrite insert_insert_eq, app_nil_r, <- app_assoc. done.
Qed.

Lemma ctor_copy_vec_at st this other rcap ys zs :
  vec_at st other rcap ys -> this <> other ->
  Forall2 (fun y z => copy_ctor y = Some z) ys zs ->
  (ys <> [] -> Z.of_nat (length ys) * sizeof < size_t_mod /\
               can_allocate (Z.of_nat (length ys) * sizeof) = true) ->
  exists st',
    run (Vector.ctor_copy this other) st = (Ok tt, st') /\
    vec_at st' this (Z.of_nat (length ys)) zs /\
    vec_at st' other rcap ys /\
    (forall r, r <> this -> objs st' !! r = objs st !! r) /\
    trace st' = trace st
      ++ match ys with
         | [] => []
         | _ => [EvNew (fresh (dom (heap st))) (Z.of_nat (length ys) * sizeof)]
         end
      ++ (EvCopyCtor <$> ys).
Proof.
  intros Hvec Hne Hcopy Halloc.
  rewrite (ctor_copy_ok st this other rcap ys zs Hvec Hne Hcopy Halloc).
  pose proof (Forall2_copy_length _ _ Hcopy) as Hlen.
  destruct Hvec as (buf & Hother & Hown).
  pose proof (fresh_block st) as Hfresh.
  destruct ys as [|y0 ys0].
  - apply Forall2_nil_inv_l in Hcopy as ->.
    eexists. split; [reflexivity|]. cbn [heap objs trace]. split; [|split; [|split]].
    + exists nullptr. cbn [objs]. rewrite lookup_insert_eq. split; [done|].
      split; [cbn; pose proof size_t_mod_pos; lia|done].
    + exists buf. cbn [objs]. rewrite lookup_insert_ne by done. done.
    + intros r Hr. by rewrite lookup_insert_ne.
    + by rewrite !app_nil_r.
  - set (ys := y0 :: ys0) in *.
    destruct (Halloc ltac:(done)) as [Hlt Hcan]. pose proof sizeof_pos as Hsz.
    eexists. split; [reflexivity|]. cbn [heap objs trace]. split; [|split; [|split]].
    + exists (Ptr (fresh (dom (heap st))) 0). cbn [objs]. rewrite lookup_insert_eq, Hlen.
      split; [done|]. split; [cbn [capacity_]; nia|]. split; [done|].
      cbn [heap capacity_]. rewrite lookup_insert_eq. f_equal.
      rewrite <- Hlen. by rewrite block_of_full.
    + exists buf. cbn [objs]. rewrite lookup_insert_ne by done. split; [done|].
      destruct Hown as [Hle Hbuf]. split; [done|].
      destruct buf as [|c off]; [done|]. destruct Hbuf as [-> Hc]. split; [done|].
      cbn [heap]. rewrite lookup_insert_ne by congruence. done.
    + intros r Hr. by rewrite lookup_insert_ne.
    + done.
Qed.

(** The copy constructor when copying an element throws: the copies
    made so far are destroyed and the block is released. *)
Lemma ctor_copy_throws st this other rcap ys y ys2 zs :
  vec_at st other rcap (ys ++ y :: ys2) ->
  Forall2 (fun y z => copy_ctor y = Some z) ys zs -> copy_ctor y = None ->
  Z.of_nat (length (ys ++ y :: ys2)) * sizeof < size_t_mod ->
  can_allocate (Z.of_nat (length (ys ++ y :: ys2)) * sizeof) = true ->
  run (Vector.ctor_copy this other) st
  = (Throw elem_exn,
     mkState (heap st) (objs st)
       (trace st
          ++ [EvNew (fresh (dom (heap st))) (Z.of_nat (length (ys ++ y :: ys2)) * sizeof)]
          ++ (EvCopyCtor <$> ys) ++ (EvDtor <$> zs)
          ++ [EvDelete (fresh (dom (heap st)))])).
Proof.
  intros (buf & Hother & Hown) Hcopy Hy Hlt Hcan.
  set (all := ys ++ y :: ys2) in *.
  assert (0 < Z.of_nat (length all)) as Hpos.
  { subst all. rewrite length_app. simpl. lia. }
  unfold Vector.ctor_copy.
  rewrite (run_bind_ok _ _ _ _ _ (run_get_obj _ _ _ Hother)). cbn [size_ data_].
  rewrite (run_bind_ok _ _ _ _ _ (run_RawMemory_ctor st _ Hpos Hlt Hcan)).
  pose proof (fresh_block st) as Hfresh.
  set (b := fresh (dom (heap st))) in *.
  destruct buf as [|c off].
  { apply owns_null in Hown as [_ Hnil]. subst all. by destruct ys. }
  destruct Hown as [Hle [-> Hc]]. cbn [capacity_ buffer_] in Hle, Hc.
  assert (c <> b) as Hcb by congruence.
  rewrite ?run_bind_assoc.
  erewrite run_bind_throw; cycle 1.
  { eapply run_unwind_throw.
    - unfold uninitialized_copy_n, RawMemory.GetAddress. cbn [buffer_]. rewrite Nat2Z.id.
      refine (run_uninitialized_copy_throw ys zs y ys2 Hcopy Hy [] _ [] [] _ c b Hcb _ _);
        cbn [heap].
      + rewrite lookup_insert_ne by done. exact Hc.
      + rewrite lookup_insert_eq. cbn [app]. by rewrite app_nil_r.
    - eapply run_RawMemory_dtor. cbn [heap]. apply lookup_insert_eq. }
  cbn [heap objs trace]. rewrite delete_insert_id by done.
  by rewrite <- !app_assoc.
Qed.

(** [Vector(std::initializer_list<T>)], the list being backed by the
    array at [c]. *)
Lemma ctor_list_ok st this c ys zs :
  heap st !! c = Some (Some <$> ys) -> ys <> [] ->
  Forall2 (fun y z => copy_ctor y = Some z) ys zs ->
  Z.of_nat (length ys) * sizeof < size_t_mod ->
  can_allocate (Z.of_nat (length ys) * sizeof) = true ->
  run (Vector.ctor_list this (mkList (Ptr c 0) (Z.of_nat (length ys)))) st
  = (Ok tt,
     mkState (<[fresh (dom (heap st)) := Some <$> zs]> (heap st))
             (<[this := mkVector (mkRawMemory (Ptr (fresh (dom (heap st))) 0)
                                    (Z.of_nat (length ys)))
                                 (Z.of_nat (length ys))]> (objs st))
             (trace st ++ [EvNew (fresh (dom (heap st))) (Z.of_nat (length ys) * sizeof)]
                ++ (EvCopyCtor <$> ys))).
Proof.
  intros Hc Hne Hcopy Hlt Hcan.
  assert (0 < Z.of_nat (length ys)) as Hpos by (destruct ys; [done|simpl; lia]).
  unfold Vector.ctor_list. cbn [il_size il_begin].
  rewrite (run_bind_ok _ _ _ _ _ (run_RawMemory_ctor st _ Hpos Hlt Hcan)).
  pose proof (fresh_block st) as Hfresh.
  set (b := fresh (dom (heap st))) in *.
  assert (c <> b) as Hcb by congruence.
  rewrite ?run_bind_assoc.
  erewrite run_bind_ok; cycle 1.
  { apply run_unwind_ok.
    assert (run (uninitialized_loop copy_construct_at (Ptr c 0) (Ptr b 0) (length ys))
              (mkState (<[b := replicate (Z.to_nat (Z.of_nat (length ys))) None]> (heap st))
                       (objs st)
                       (trace st ++ [EvNew b (Z.of_nat (length ys) * sizeof)]))
            = (Ok tt, mkState (<[b := Some <$> zs]>
                                 (<[b := replicate (Z.to_nat (Z.of_nat (length ys))) None]>
                                    (heap st)))
                              (objs st)
                              ((trace st ++ [EvNew b (Z.of_nat (length ys) * sizeof)])
                                 ++ (EvCopyCtor <$> ys)))) as Hloop.
    { rewrite Nat2Z.id.
      refine (eq_trans
                (run_uninitialized_copy ys zs Hcopy [] [] [] [] _ c b Hcb _ _) _);
        cbn [heap app].
      - rewrite lookup_insert_ne by done. by rewrite app_nil_r.
      - rewrite lookup_insert_eq. by rewrite app_nil_r.
      - by rewrite app_nil_r. }
    unfold uninitialized_move_n, uninitialized_copy_n, RawMemory.GetAddress.
    cbn [buffer_]. rewrite Nat2Z.id in *.
    destruct (is_nothrow_move_constructible || negb is_copy_constructible); exact Hloop. }
  rewrite run_set_obj. cbn [heap objs trace].
  rewrite insert_insert_eq, <- app_assoc. done.
Qed.

End Copies.

(** * Destruction, swapping and element access *)

Section Teardown.
Context {T : Type} `{Elem T} `{Allocator}.
Implicit Types (st : state T) (xs ys zs rs : list T) (x y d : T)
  (pre post : list (option T)).

Lemma state_eta st : mkState (heap st) (objs st) (trace st) = st.
Proof. by destruct st. Qed.

Lemma vec_at_block_addr st this cap xs a :
  vec_at st this cap xs -> block_addr st this = Some a ->
  objs st !! this = Some (mkVector (mkRawMemory (Ptr a 0) cap) (Z.of_nat (length xs))) /\
  heap st !! a = Some (block_of xs cap) /\
  Z.of_nat (length xs) <= cap < size_t_mod.
Proof.
  intros (buf & Hthis & Hown) Hblock. unfold block_addr in Hblock.
  rewrite Hthis in Hblock. cbn in Hblock.
  destruct buf as [|c off]; [done|]. injection Hblock as ->.
  destruct Hown as [Hle [-> Hc]]. done.
Qed.

Lemma vec_at_no_block st this cap xs :
  vec_at st this cap xs -> block_addr st this = None ->
  objs st !! this = Some (mkVector (mkRawMemory nullptr 0) 0) /\ cap = 0 /\ xs = [].
Proof.
  intros (buf & Hthis & Hown) Hblock. unfold block_addr in Hblock.
  rewrite Hthis in Hblock. cbn in Hblock.
  destruct buf as [|c off]; [|done].
  apply owns_null in Hown as [-> ->]. done.
Qed.

(** [~Vector()] *)
Lemma dtor_spec st this cap xs :
  vec_at st this cap xs ->
  run (Vector.dtor this) st
  = (Ok tt,
     match block_addr st this with
     | Some a => mkState (delete a (heap st)) (delete this (objs st))
                         (trace st ++ (EvDtor <$> xs) ++ [EvDelete a])
     | None => mkState (heap st) (delete this (objs st)) (trace st)
     end).
Proof.
  intros Hvec. destruct (block_addr st this) as [a|] eqn:Hblock.
  - destruct (vec_at_block_addr _ _ _ _ _ Hvec Hblock) as (Hthis & Ha & _).
    by apply (run_dtor _ _ _ cap).
  - destruct (vec_at_no_block _ _ _ _ Hvec Hblock) as (Hthis & _ & _).
    by apply (run_dtor_null _ _ 0).
Qed.

(** A copy is constructed and destroyed again. *)
Lemma copy_then_destroy st this other rcap ys zs :
  vec_at st other rcap ys -> objs st !! this = None ->
  Forall2 (fun y z => copy_ctor y = Some z) ys zs ->
  (ys <> [] -> Z.of_nat (length ys) * sizeof < size_t_mod /\
               can_allocate (Z.of_nat (length ys) * sizeof) = true) ->
  run (Vector.ctor_copy this other ;;; Vector.dtor this) st
  = (Ok tt,
     mkState (heap st) (objs st)
       (trace st ++
        match ys with
        | [] => []
        | _ => [EvNew (fresh (dom (heap st))) (Z.of_nat (length ys) * sizeof)]
                 ++ (EvCopyCtor <$> ys) ++ (EvDtor <$> zs)
                 ++ [EvDelete (fresh (dom (heap st)))]
        end)).
Proof.
  intros Hvec Hnone Hcopy Halloc.
  assert (this <> other) as Hne.
  { intros ->. destruct Hvec as (buf & Hother & _). congruence. }
  rewrite (run_bind_ok _ _ _ _ _ (ctor_copy_ok st this other rcap ys zs Hvec Hne Hcopy Halloc)).
  pose proof (Forall2_copy_length _ _ Hcopy) as Hlen.
  pose proof (fresh_block st) as Hfresh.
  destruct ys as [|y0 ys0].
  - rewrite (run_dtor_null _ this 0); cbn [heap objs trace].
    + rewrite delete_insert_id by done. by rewrite app_nil_r.
    + apply lookup_insert_eq.
  - set (ys := y0 :: ys0) in *.
    rewrite (run_dtor _ this (fresh (dom (heap st))) (Z.of_nat (length ys)) zs);
      cbn [heap objs trace].
    + rewrite !delete_insert_id by done. by rewrite <- !app_assoc.
    + rewrite lookup_insert_eq, Hlen. done.
    + rewrite lookup_insert_eq, <- Hlen. by rewrite block_of_full.
Qed.

(** [Swap] of two different vectors, in terms of their values. *)
Lemma Swap_spec st this other c1 c2 xs ys :
  this <> other -> vec_at st this c1 xs -> vec_at st other c2 ys ->
  exists st',
    run (Vector.Swap this other) st = (Ok tt, st') /\
    vec_at st' this c2 ys /\ vec_at st' other c1 xs /\
    block_addr st' this = block_addr st other /\
    block_addr st' other = block_addr st this /\
    heap st' = heap st /\ trace st' = trace st /\
    (forall r, r <> this -> r <> other -> objs st' !! r = objs st !! r).
Proof.
  intros Hne (b1 & H1 & Hown1) (b2 & H2 & Hown2).
  rewrite (run_Swap st this other _ _ Hne H1 H2). cbn [data_ buffer_ capacity_ size_].
  eexists. split; [reflexivity|]. cbn [heap objs trace].
  split; [|split; [|split; [|split; [|split; [|split]]]]]; try done.
  - exists b2. cbn [objs]. rewrite lookup_insert_ne by done.
    rewrite lookup_insert_eq. done.
  - exists b1. cbn [objs]. rewrite lookup_insert_eq. done.
  - unfold block_addr. cbn [objs]. rewrite lookup_insert_ne by done.
    rewrite lookup_insert_eq, H2. done.
  - unfold block_addr. cbn [objs]. rewrite lookup_insert_eq, H1. done.
  - intros r Hr1 Hr2. by rewrite !lookup_insert_ne.
Qed.

Lemma Vector_eta (v : Vector) :
  mkVector (mkRawMemory (buffer_ (data_ v)) (capacity_ (data_ v))) (size_ v) = v.
Proof. by destruct v as [[]]. Qed.

(** Swapping a vector with itself. *)
Lemma Swap_self st this v :
  objs st !! this = Some v -> run (Vector.Swap this this) st = (Ok tt, st).
Proof.
  intros Hv. unfold Vector.Swap.
  rewrite (run_bind_ok _ _ _ _ _ (run_get_obj _ _ _ Hv)).
  rewrite (run_bind_ok _ _ _ _ _ (run_get_obj _ _ _ Hv)).
  cbn [RawMemory.Swap].
  rewrite (run_bind_ok _ _ _ _ _ (run_set_obj _ _ _)).
  erewrite run_bind_ok; cycle 1.
  { eapply run_set_data. cbn [objs]. apply lookup_insert_eq. }
  erewrite run_bind_ok; cycle 1.
  { eapply run_get_obj. cbn [objs]. apply lookup_insert_eq. }
  erewrite run_bind_ok; cycle 1.
  { eapply run_get_obj. cbn [objs]. apply lookup_insert_eq. }
  erewrite run_bind_ok; cycle 1.
  { eapply run_set_size. cbn [objs]. apply lookup_insert_eq. }
  erewrite run_set_size; cycle 1.
  { cbn [objs]. apply lookup_insert_eq. }
  cbn. rewrite !insert_insert_eq, Vector_eta, insert_id by done.
  by rewrite state_eta.
Qed.

(** Swapping twice. *)
Lemma Swap_twice st this other a b :
  objs st !! this = Some a -> objs st !! other = Some b ->
  run (Vector.Swap this other ;;; Vector.Swap this other) st = (Ok tt, st).
Proof.
  intros Ha Hb. destruct (decide (this = other)) as [->|Hne].
  - rewrite (run_bind_ok _ _ _ _ _ (Swap_self _ _ _ Ha)). by eapply Swap_self.
  - rewrite (run_bind_ok _ _ _ _ _ (run_Swap st this other _ _ Hne Ha Hb)).
    erewrite run_Swap; [|done|..]; cycle 1.
    { cbn [objs]. rewrite lookup_insert_ne by done. apply lookup_insert_eq. }
    { cbn [objs]. apply lookup_insert_eq. }
    cbn. rewrite !Vector_eta.
    replace (<[other:=b]> (<[this:=a]> (<[other:=_]> (<[this:=_]> (objs st))))) with (objs st).
    { by rewrite state_eta. }
    apply map_eq. intros k. rewrite !lookup_insert.
    repeat case_decide; subst; congruence.
Qed.

(** Reading [v[i]]. *)
Lemma index_read st this cap xs (i : nat) x :
  vec_at st this cap xs -> xs !! i = Some x ->
  run (let* p := Vector.at_ this (Z.of_nat i) in load p) st = (Ok x, st).
Proof.
  intros (buf & Hthis & Hown) Hi.
  unfold Vector.at_. rewrite run_bind_assoc.
  rewrite (run_bind_ok _ _ _ _ _ (run_get_obj _ _ _ Hthis)).
  rewrite (run_bind_ok _ _ _ _ _ (run_ret _ _)).
  cbn [data_ RawMemory.at_ buffer_].
  destruct buf as [|a off].
  { apply owns_null in Hown as [_ ->]. done. }
  destruct Hown as [_ [-> Ha]]. cbn [ptr_add].
  change (0 + Z.of_nat i) with (Z.of_nat i).
  apply (run_load _ a i _ x Ha). unfold block_of.
  rewrite lookup_app_l by (rewrite length_fmap; by eapply lookup_lt_Some).
  by rewrite list_lookup_fmap, Hi.
Qed.

Lemma index_past_size st this cap xs (i : nat) :
  vec_at st this cap xs -> (length xs <= i)%nat ->
  run (let* p := Vector.at_ this (Z.of_nat i) in load p) st = (UB, st).
Proof.
  intros (buf & Hthis & Hown) Hi.
  unfold Vector.at_. rewrite run_bind_assoc.
  rewrite (run_bind_ok _ _ _ _ _ (run_get_obj _ _ _ Hthis)).
  rewrite (run_bind_ok _ _ _ _ _ (run_ret _ _)).
  cbn [data_ RawMemory.at_ buffer_].
  destruct buf as [|a off]; [done|].
  destruct Hown as [_ [-> Ha]]. unfold RawMemory.at_. cbn [ptr_add buffer_ capacity_] in *.
  change (0 + Z.of_nat i) with (Z.of_nat i).
  unfold run, load. rewrite (slots_of_nat _ _ _ _ Ha).
  destruct (block_of xs cap !! i) as [[y|]|] eqn:Hl; [|done..].
  unfold block_of in Hl. rewrite lookup_app_r in Hl by (rewrite length_fmap; lia).
  apply lookup_replicate in Hl as [? _]. done.
Qed.

End Teardown.

(** * Removing elements: bounds *)

Section Bounds.
Context {T : Type} `{Elem T} `{Allocator}.
Implicit Types (st : state T) (xs ys zs rs : list T) (x y d : T)
  (pre post : list (option T)).

(** [PopBack] of an empty vector. *)
Lemma PopBack_empty st this cap :
  vec_at st this cap [] -> run (Vector.PopBack this) st = (UB, st).
Proof.
  intros (buf & Hthis & Hown). unfold Vector.PopBack.
  rewrite (run_bind_ok _ _ _ _ _ (run_get_obj _ _ _ Hthis)).
  cbn [data_ size_ RawMemory.GetAddress buffer_ length Z.of_nat].
  destruct buf as [|a off]; [done|].
  destruct Hown as [_ [-> Ha]]. done.
Qed.

(** [Erase] at or behind [end()]. *)
Lemma Erase_past_end st this a cap xs (i : Z) :
  vec_at st this cap xs -> block_addr st this = Some a ->
  Z.of_nat (length xs) <= i < size_t_mod ->
  run (Vector.Erase this (Ptr a i)) st = (UB, st).
Proof.
  intros Hvec Hblock Hi.
  destruct (vec_at_block_addr _ _ _ _ _ Hvec Hblock) as (Hthis & Ha & Hle).
  unfold Vector.Erase.
  rewrite (run_bind_ok _ _ _ _ _ (run_get_obj _ _ _ Hthis)).
  cbn [data_ size_ RawMemory.GetAddress buffer_ ptr_diff].
  rewrite decide_True by done. cbn [from_option].
  rewrite (run_bind_ok _ _ _ _ _ (run_ret _ _)).
  rewrite Z.sub_0_r, wrap_small by lia.
  rewrite (run_bind_ok _ _ _ _ _ (run_begin _ _ _ Hthis)).
  rewrite (run_bind_ok _ _ _ _ _ (run_end _ _ _ Hthis)).
  cbn [data_ size_ buffer_ ptr_add].
  unfold std_move. cbn [ptr_diff]. rewrite decide_True by done.
  destruct (Z.ltb_spec (0 + Z.of_nat (length xs) - (0 + i + 1)) 0); [done|lia].
Qed.

(** [Erase] of an empty vector that owns no storage. *)
Lemma Erase_null st this cap :
  vec_at st this cap [] -> block_addr st this = None ->
  run (Vector.Erase this nullptr) st = (UB, st).
Proof.
  intros Hvec Hblock.
  destruct (vec_at_no_block _ _ _ _ Hvec Hblock) as (Hthis & _ & _).
  unfold Vector.Erase.
  rewrite (run_bind_ok _ _ _ _ _ (run_get_obj _ _ _ Hthis)).
  cbn [data_ size_ RawMemory.GetAddress buffer_ ptr_diff from_option].
  rewrite (run_bind_ok _ _ _ _ _ (run_ret _ _)).
  rewrite (run_bind_ok _ _ _ _ _ (run_begin _ _ _ Hthis)).
  rewrite (run_bind_ok _ _ _ _ _ (run_end _ _ _ Hthis)).
  cbn [data_ size_ buffer_ ptr_add]. done.
Qed.

Lemma block_of_last xs x cap :
  Z.of_nat (length (xs ++ [x])) <= cap ->
  block_of (xs ++ [x]) cap
  = (Some <$> xs) ++ Some x :: replicate (Z.to_nat cap - length (xs ++ [x])) None.
Proof. intros _. unfold block_of. by rewrite fmap_app, <- app_assoc. Qed.

Lemma block_of_drop_last xs x cap :
  Z.of_nat (length (xs ++ [x])) <= cap ->
  (Some <$> xs) ++ None :: replicate (Z.to_nat cap - length (xs ++ [x])) None
  = block_of xs cap.
Proof.
  intros Hle. unfold block_of. f_equal. rewrite length_app in *. cbn [length] in *.
  replace (Z.to_nat cap - length xs)%nat with (S (Z.to_nat cap - (length xs + 1)))
    by lia.
  done.
Qed.

(** The state that [PopBack] leaves. *)
Lemma PopBack_state st this a cap xs x :
  vec_at st this cap (xs ++ [x]) -> block_addr st this = Some a ->
  run (Vector.PopBack this) st
  = (Ok tt,
     mkState (<[a := block_of xs cap]> (heap st))
             (<[this := mkVector (mkRawMemory (Ptr a 0) cap) (Z.of_nat (length xs))]> (objs st))
             (trace st ++ [EvDtor x])).
Proof.
  intros Hvec Hblock.
  destruct (vec_at_block_addr _ _ _ _ _ Hvec Hblock) as (Hthis & Ha & Hle).
  unfold Vector.PopBack.
  rewrite (run_bind_ok _ _ _ _ _ (run_get_obj _ _ _ Hthis)).
  cbn [data_ size_ RawMemory.GetAddress buffer_ ptr_add].
  rewrite block_of_last in Ha by lia.
  rewrite length_app in *. cbn [length] in *.
  replace (0 + Z.of_nat (length xs + 1) + -1) with (Z.of_nat (length xs)) by lia.
  erewrite run_bind_ok; cycle 1.
  { eapply (run_destroy_at _ a (length xs) _ x Ha).
    rewrite <- (length_fmap Some xs). apply lookup_at_pre. }
  erewrite run_set_size by (cbn [objs]; exact Hthis).
  cbn [heap objs trace data_]. rewrite wrap_small by lia.
  rewrite <- (length_fmap Some xs) at 1. rewrite insert_at_pre.
  replace (Z.of_nat (length xs + 1) - 1) with (Z.of_nat (length xs)) by lia.
  pose proof (block_of_drop_last xs x cap) as Hd.
  rewrite length_app in Hd. cbn [length] in Hd. rewrite Hd by lia. done.
Qed.

(** [Erase] of the last element. *)
Lemma Erase_last_state st this a cap xs x :
  vec_at st this cap (xs ++ [x]) -> block_addr st this = Some a ->
  run (Vector.Erase this (Ptr a (Z.of_nat (length xs)))) st
  = (Ok (Ptr a (Z.of_nat (length xs))),
     mkState (<[a := block_of xs cap]> (heap st))
             (<[this := mkVector (mkRawMemory (Ptr a 0) cap) (Z.of_nat (length xs))]> (objs st))
             (trace st ++ [EvDtor x])).
Proof.
  intros Hvec Hblock.
  destruct (vec_at_block_addr _ _ _ _ _ Hvec Hblock) as (Hthis & Ha & Hle).
  unfold Vector.Erase.
  rewrite (run_bind_ok _ _ _ _ _ (run_get_obj _ _ _ Hthis)).
  cbn [data_ size_ RawMemory.GetAddress buffer_ ptr_diff].
  rewrite decide_True by done. cbn [from_option].
  rewrite (run_bind_ok _ _ _ _ _ (run_ret _ _)).
  rewrite length_app in *. cbn [length] in *.
  rewrite Z.sub_0_r, wrap_small by lia.
  rewrite (run_bind_ok _ _ _ _ _ (run_begin _ _ _ Hthis)).
  rewrite (run_bind_ok _ _ _ _ _ (run_end _ _ _ Hthis)).
  cbn [data_ size_ buffer_ ptr_add].
  assert (run (std_move (Ptr a (0 + Z.of_nat (length xs) + 1))
                        (Ptr a (0 + Z.of_nat (length xs + 1)))
                        (Ptr a (0 + Z.of_nat (length xs)))) st = (Ok tt, st)) as Hmove.
  { unfold std_move. cbn [ptr_diff]. rewrite decide_True by done.
    replace (0 + Z.of_nat (length xs + 1) - (0 + Z.of_nat (length xs) + 1)) with 0 by lia.
    done. }
  rewrite (run_bind_ok _ _ _ _ _ Hmove).
  pose proof (block_of_last xs x cap) as Hl. rewrite length_app in Hl. cbn [length] in Hl.
  rewrite Hl in Ha by lia.
  unfold RawMemory.at_. cbn [buffer_ ptr_add].
  rewrite wrap_small by lia.
  replace (0 + (Z.of_nat (length xs + 1) - 1)) with (Z.of_nat (length xs)) by lia.
  erewrite run_bind_ok; cycle 1.
  { eapply (run_destroy_at _ a (length xs) _ x Ha).
    rewrite <- (length_fmap Some xs). apply lookup_at_pre. }
  erewrite run_bind_ok; cycle 1.
  { eapply run_set_size. cbn [objs]. exact Hthis. }
  erewrite run_bind_ok; cycle 1.
  { eapply run_begin. cbn [objs]. apply lookup_insert_eq. }
  cbn [heap objs trace data_ buffer_ ptr_add run ret].
  rewrite <- (length_fmap Some xs) at 2. rewrite insert_at_pre.
  replace (Z.of_nat (length xs + 1) - 1) with (Z.of_nat (length xs)) by lia.
  pose proof (block_of_drop_last xs x cap) as Hd.
  rewrite length_app in Hd. cbn [length] in Hd. rewrite Hd by lia.
  rewrite Z.add_0_l. done.
Qed.

End Bounds.

(** * Resize *)

Section Resize.
Context {T : Type} `{Elem T} `{Allocator}.
Implicit Types (st : state T) (xs ys zs rs : list T) (x y d : T)
  (pre post : list (option T)).

Lemma vec_at_intro st this a cap xs :
  objs st !! this = Some (mkVector (mkRawMemory (Ptr a 0) cap) (Z.of_nat (length xs))) ->
  heap st !! a = Some (block_of xs cap) ->
  Z.of_nat (length xs) <= cap < size_t_mod ->
  vec_at st this cap xs /\ block_addr st this = Some a.
Proof.
  intros Hthis Ha Hle. split.
  - exists (Ptr a 0). done.
  - unfold block_addr. by rewrite Hthis.
Qed.

Lemma block_of_take xs (n : nat) cap :
  (n <= length xs)%nat -> Z.of_nat (length xs) <= cap ->
  block_of xs cap
  = (Some <$> take n xs) ++ (Some <$> drop n xs)
      ++ replicate (Z.to_nat cap - length xs) None.
Proof.
  intros Hn Hle. unfold block_of.
  by rewrite app_assoc, <- fmap_app, take_drop.
Qed.

Lemma block_of_shrunk xs (n : nat) cap :
  (n <= length xs)%nat -> Z.of_nat (length xs) <= cap ->
  (Some <$> take n xs) ++ replicate (length (drop n xs)) None
      ++ replicate (Z.to_nat cap - length xs) None
  = block_of (take n xs) cap.
Proof.
  intros Hn Hle. unfold block_of. f_equal.
  rewrite <- replicate_add. f_equal.
  rewrite length_drop, length_take. lia.
Qed.

(** [Resize] to at most the current size. *)
Lemma Resize_shrink st this cap xs (n : nat) :
  vec_at st this cap xs -> (n <= length xs)%nat ->
  exists st',
    run (Vector.Resize this (Z.of_nat n)) st = (Ok tt, st') /\
    vec_at st' this cap (take n xs) /\
    block_addr st' this = block_addr st this /\
    trace st' = trace st ++ (EvDtor <$> drop n xs) /\
    (forall r, r <> this -> objs st' !! r = objs st !! r) /\
    (n = length xs -> st' = st).
Proof.
  intros Hvec Hn. pose proof Hvec as (buf & Hthis & Hown).
  pose proof size_t_mod_pos as Hmod.
  assert (Z.of_nat (length xs) <= cap < size_t_mod) as Hle by (by destruct Hown).
  unfold Vector.Resize.
  rewrite (run_bind_ok _ _ _ _ _ (run_get_obj _ _ _ Hthis)).
  cbn [data_ size_ RawMemory.GetAddress buffer_].
  destruct (Z.leb_spec (Z.of_nat n) (Z.of_nat (length xs))) as [_|]; [|lia].
  rewrite wrap_small by lia.
  destruct (Z.eqb_spec (Z.of_nat (length xs) - Z.of_nat n) 0) as [Heq|Hneq].
  - assert (n = length xs) as -> by lia.
    rewrite (run_bind_ok _ _ _ _ _ (run_ret _ _)).
    erewrite run_set_size by exact Hthis. cbn [data_].
    rewrite insert_id by done. rewrite state_eta.
    eexists. split; [reflexivity|]. rewrite firstn_all, drop_all, app_nil_r. done.
  - destruct buf as [|a off].
    { apply owns_null in Hown as [_ ->]. simpl in Hn, Hneq. lia. }
    destruct Hown as [_ [-> Ha]]. cbn [capacity_] in Ha.
    rewrite (block_of_take xs n cap) in Ha by lia.
    cbn [ptr_add]. rewrite Z.add_0_l.
    erewrite run_bind_ok; cycle 1.
    { eapply (run_destroy_n_at _ a _ (drop n xs) _ n _ Ha).
      - rewrite length_fmap, length_take. lia.
      - rewrite length_drop. lia. }
    erewrite run_set_size by (cbn [objs]; exact Hthis).
    cbn [data_]. rewrite block_of_shrunk by lia.
    eexists. split; [reflexivity|]. cbn [heap objs trace].
    assert (length (take n xs) = n) as Hlt by (rewrite length_take; lia).
    destruct (vec_at_intro
                (mkState (<[a:=block_of (take n xs) cap]> (heap st))
                   (<[this:=mkVector (mkRawMemory (Ptr a 0) cap) (Z.of_nat n)]> (objs st))
                   (trace st ++ (EvDtor <$> drop n xs)))
                this a cap (take n xs)) as [Hv Hb]; cbn [heap objs].
    { rewrite lookup_insert_eq, Hlt. done. }
    { by rewrite lookup_insert_eq. }
    { lia. }
    split; [exact Hv|]. split.
    { rewrite Hb. unfold block_addr. by rewrite Hthis. }
    split; [done|]. split; [|lia].
    intros r Hr. by rewrite lookup_insert_ne.
Qed.

Lemma block_of_grown zs (k : nat) d cap :
  Z.of_nat (length zs + k) <= cap ->
  (Some <$> zs) ++ replicate k (Some d) ++ replicate (Z.to_nat cap - (length zs + k)) None
  = block_of (zs ++ replicate k d) cap.
Proof.
  intros Hle. unfold block_of.
  by rewrite fmap_app, fmap_replicate, <- app_assoc, length_app, length_replicate.
Qed.

(** The growing branch of [Resize], once [Reserve] has run. *)
Lemma Resize_fill st st1 this cap c xs zs n d :
  vec_at st this cap xs -> Z.of_nat (length xs) < n ->
  run (Vector.Reserve this n) st = (Ok tt, st1) ->
  vec_at st1 this c zs -> length zs = length xs -> n <= c ->
  value_ctor = Some d ->
  exists st',
    run (Vector.Resize this n) st = (Ok tt, st') /\
    vec_at st' this c (zs ++ replicate (Z.to_nat n - length xs) d) /\
    block_addr st' this = block_addr st1 this /\
    trace st' = trace st1 ++ replicate (Z.to_nat n - length xs) (EvValueCtor d) /\
    (forall r, r <> this -> objs st' !! r = objs st1 !! r) /\
    (forall b, block_addr st1 this <> Some b -> heap st' !! b = heap st1 !! b).
Proof.
  intros (buf & Hthis & Hown) Hn Hres (buf1 & Hthis1 & Hown1) Hlen Hc Hd.
  unfold Vector.Resize.
  rewrite (run_bind_ok _ _ _ _ _ (run_get_obj _ _ _ Hthis)).
  cbn [data_ size_ RawMemory.GetAddress buffer_].
  destruct (Z.leb_spec n (Z.of_nat (length xs))) as [|_]; [lia|].
  rewrite ?run_bind_assoc.
  rewrite (run_bind_ok _ _ _ _ _ Hres).
  rewrite ?run_bind_assoc.
  rewrite (run_bind_ok _ _ _ _ _ (run_get_obj _ _ _ Hthis1)).
  cbn [data_ size_ RawMemory.GetAddress buffer_].
  destruct buf1 as [|a off].
  { apply owns_null in Hown1 as [-> _]. lia. }
  destruct Hown1 as [Hle1 [-> Ha]]. cbn [capacity_] in Ha, Hle1.
  cbn [ptr_add]. rewrite Z.add_0_l, Hlen, wrap_small by lia.
  set (k := (Z.to_nat n - length xs)%nat).
  assert (Z.to_nat (n - Z.of_nat (length xs)) = k) as Hk by lia.
  assert (block_of zs c
          = (Some <$> zs) ++ replicate (Z.to_nat (n - Z.of_nat (length xs))) None
              ++ replicate (Z.to_nat c - (length zs + k)) None) as Hblock.
  { unfold block_of. f_equal. rewrite Hk, <- replicate_add. f_equal. lia. }
  rewrite Hblock in Ha.
  erewrite run_bind_ok; cycle 1.
  { eapply (run_value_construct_n d _ a _ _ (length xs) _ Hd Ha).
    by rewrite length_fmap. }
  erewrite run_set_size by (cbn [objs]; exact Hthis1).
  cbn [data_]. rewrite Hk, block_of_grown by lia.
  eexists. split; [reflexivity|]. cbn [heap objs trace].
  destruct (vec_at_intro
              (mkState (<[a:=block_of (zs ++ replicate k d) c]> (heap st1))
                 (<[this:=mkVector (mkRawMemory (Ptr a 0) c) n]> (objs st1))
                 (trace st1 ++ replicate k (EvValueCtor d)))
              this a c (zs ++ replicate k d)) as [Hv Hb]; cbn [heap objs].
  { rewrite lookup_insert_eq, length_app, length_replicate. do 2 f_equal. lia. }
  { by rewrite lookup_insert_eq. }
  { rewrite length_app, length_replicate. lia. }
  split; [exact Hv|]. split.
  { rewrite Hb. unfold block_addr. by rewrite Hthis1. }
  split; [done|]. split.
  - intros r Hr. by rewrite lookup_insert_ne.
  - intros b Hb'. rewrite lookup_insert_ne; [done|].
    intros ->. apply Hb'. unfold block_addr. by rewrite Hthis1.
Qed.

(** [Resize] beyond the size, within the capacity. *)
Lemma Resize_grow_in_place st this cap xs n d :
  vec_at st this cap xs -> Z.of_nat (length xs) < n <= cap ->
  value_ctor = Some d ->
  exists st',
    run (Vector.Resize this n) st = (Ok tt, st') /\
    vec_at st' this cap (xs ++ replicate (Z.to_nat n - length xs) d) /\
    block_addr st' this = block_addr st this /\
    trace st' = trace st ++ replicate (Z.to_nat n - length xs) (EvValueCtor d).
Proof.
  intros Hvec Hn Hd. pose proof Hvec as (buf & Hthis & Hown).
  destruct (Resize_fill st st this cap cap xs xs n d) as (st' & Hrun & Hv & Hb & Htr & _);
    try done; try lia.
  { apply (Reserve_noop st this _ n Hthis). cbn. lia. }
  by exists st'.
Qed.

(** [Resize] beyond the capacity. *)
Lemma Resize_grow_realloc st this cap xs zs rs n d :
  vec_at st this cap xs -> cap < n ->
  n * sizeof < size_t_mod -> can_allocate (n * sizeof) = true ->
  relocated xs zs rs -> value_ctor = Some d ->
  exists st',
    run (Vector.Resize this n) st = (Ok tt, st') /\
    vec_at st' this n (zs ++ replicate (Z.to_nat n - length xs) d).
Proof.
  intros Hvec Hn Hlt Hcan Hrel Hd. pose proof Hvec as (buf & Hthis & [Hle _]).
  cbn [capacity_] in Hle.
  destruct (Reserve_grows st this cap xs zs rs n Hvec Hn Hlt Hcan Hrel)
    as (st1 & Hres & Hv1 & _).
  destruct (relocated_length _ _ _ Hrel) as [Hlz _].
  destruct (Resize_fill st st1 this cap n xs zs n d) as (st' & Hrun & Hv & _);
    try done; try lia.
  by exists st'.
Qed.

End Resize.

(** * Appending within the capacity, and failing constructors *)

Section InPlaceAppends.
Context {T : Type} `{Elem T} `{Allocator}.
Implicit Types (st : state T) (xs ys zs rs : list T) (x y d : T)
  (pre post : list (option T)).

(** [EmplaceBack] into spare capacity: the state it leaves. *)
Lemma EmplaceBack_in_place st this a cap xs i x :
  vec_at st this cap xs -> block_addr st this = Some a ->
  Z.of_nat (length xs) < cap -> init_result i = Some x ->
  run (Vector.EmplaceBack this i) st
  = (Ok (Ptr a (Z.of_nat (length xs))),
     mkState (<[a := block_of (xs ++ [x]) cap]> (heap st))
             (<[this := mkVector (mkRawMemory (Ptr a 0) cap)
                                 (Z.of_nat (length (xs ++ [x])))]> (objs st))
             (trace st ++ [init_event i x])).
Proof.
  intros Hvec Hblock Hlt Hi.
  destruct (vec_at_block_addr _ _ _ _ _ Hvec Hblock) as (Hthis & Ha & Hle).
  unfold Vector.EmplaceBack.
  rewrite (run_bind_ok _ _ _ _ _ (run_get_obj _ _ _ Hthis)).
  cbn [data_ size_ RawMemory.GetAddress RawMemory.Capacity buffer_ capacity_ ptr_add].
  destruct (Z.eqb_spec (Z.of_nat (length xs)) cap) as [|_]; [lia|].
  rewrite Z.add_0_l.
  erewrite run_bind_ok; cycle 1.
  { eapply (run_construct_from _ a (length xs) _ i x Hi Ha).
    rewrite block_of_length; lia. }
  erewrite run_bind_ok; cycle 1.
  { eapply run_set_size. cbn [objs]. exact Hthis. }
  erewrite run_bind_ok; cycle 1.
  { eapply run_get_obj. cbn [objs]. apply lookup_insert_eq. }
  cbn [data_ size_ RawMemory.at_ buffer_ ptr_add run ret heap objs trace].
  rewrite (wrap_small (Z.of_nat (length xs) + 1)) by lia.
  rewrite wrap_small by lia. rewrite block_of_snoc by lia.
  rewrite length_app. cbn [length]. rewrite run_ret.
  replace (0 + (Z.of_nat (length xs) + 1 - 1)) with (Z.of_nat (length xs)) by lia.
  replace (Z.of_nat (length xs + 1)) with (Z.of_nat (length xs) + 1) by lia.
  done.
Qed.

Lemma EmplaceBack_in_place_vec st this a cap xs i x :
  vec_at st this cap xs -> block_addr st this = Some a ->
  Z.of_nat (length xs) < cap -> init_result i = Some x ->
  exists st',
    run (Vector.EmplaceBack this i) st = (Ok (Ptr a (Z.of_nat (length xs))), st') /\
    vec_at st' this cap (xs ++ [x]) /\ block_addr st' this = Some a /\
    trace st' = trace st ++ [init_event i x].
Proof.
  intros Hvec Hblock Hlt Hi.
  destruct (vec_at_block_addr _ _ _ _ _ Hvec Hblock) as (Hthis & Ha & Hle).
  rewrite (EmplaceBack_in_place st this a cap xs i x Hvec Hblock Hlt Hi).
  eexists. split; [reflexivity|].
  match goal with
  | |- vec_at ?s _ _ _ /\ _ =>
      destruct (vec_at_intro s this a cap (xs ++ [x])) as [Hv Hb]; cbn [heap objs]
  end.
  - by rewrite lookup_insert_eq.
  - by rewrite lookup_insert_eq.
  - rewrite length_app. cbn [length]. lia.
  - done.
Qed.

(** Appends that fit into the capacity. *)
Lemma emplace_all_in_place this a cap args :
  forall ys st xs,
    Forall2 (fun i y => init_result i = Some y) args ys ->
    vec_at st this cap xs -> block_addr st this = Some a ->
    Z.of_nat (length xs + length ys) <= cap ->
    exists st',
      run (emplace_all this args) st = (Ok tt, st') /\
      vec_at st' this cap (xs ++ ys) /\ block_addr st' this = Some a /\
      trace st' = trace st ++ zip_with init_event args ys.
Proof.
  induction args as [|i args IH]; intros ys st xs Hf Hvec Hblock Hle.
  - apply Forall2_nil_inv_l in Hf as ->. exists st.
    rewrite !app_nil_r. done.
  - apply Forall2_cons_inv_l in Hf as (y & ys' & Hi & Hf & ->).
    cbn [length] in Hle.
    destruct (EmplaceBack_in_place_vec st this a cap xs i y Hvec Hblock ltac:(lia) Hi)
      as (st1 & Hrun1 & Hv1 & Hb1 & Htr1).
    destruct (IH ys' st1 (xs ++ [y]) Hf Hv1 Hb1) as (st' & Hrun & Hv & Hb & Htr).
    { rewrite length_app. cbn [length]. lia. }
    exists st'. cbn [emplace_all].
    rewrite (run_bind_ok _ _ _ _ _ Hrun1).
    split; [exact Hrun|]. rewrite <- app_assoc in Hv. split; [exact Hv|].
    split; [exact Hb|]. rewrite Htr, Htr1, <- app_assoc. done.
Qed.

Lemma run_init_throws st i :
  init_result i = None -> run (run_init i) st = (Throw elem_exn, st).
Proof.
  unfold run_init, init_result. destruct i as [y|y|r]; simpl.
  - by intros ->.
  - by destruct (move_ctor y) as [[z r]|].
  - by intros ->.
Qed.

Lemma construct_from_throws st p i :
  init_result i = None -> run (construct_from p i) st = (Throw elem_exn, st).
Proof. intros Hi. apply run_bind_throw. by apply run_init_throws. Qed.

(** [EmplaceBack] when the constructor of the new element throws and
    there is spare capacity. *)
Lemma EmplaceBack_throws_in_place st this cap xs i :
  vec_at st this cap xs -> Z.of_nat (length xs) < cap -> init_result i = None ->
  run (Vector.EmplaceBack this i) st = (Throw elem_exn, st).
Proof.
  intros (buf & Hthis & Hown) Hlt Hi.
  unfold Vector.EmplaceBack.
  rewrite (run_bind_ok _ _ _ _ _ (run_get_obj _ _ _ Hthis)).
  cbn [data_ size_ RawMemory.Capacity capacity_].
  destruct (Z.eqb_spec (Z.of_nat (length xs)) cap) as [|_]; [lia|].
  apply run_bind_throw. by apply construct_from_throws.
Qed.

(** The same on a full vector: the elements have been relocated into
    the new block when the constructor throws, and the block is
    released as it is. *)
Lemma EmplaceBack_throws_full st this cap xs zs rs i :
  vec_at st this cap xs -> Z.of_nat (length xs) = cap -> init_result i = None ->
  relocated xs zs rs ->
  grown cap cap * sizeof < size_t_mod -> can_allocate (grown cap cap * sizeof) = true ->
  exists st',
    run (Vector.EmplaceBack this i) st = (Throw elem_exn, st') /\
    vec_at st' this cap rs /\
    objs st' = objs st /\
    heap st' !! fresh (dom (heap st)) = None /\
    trace st' = trace st
      ++ [EvNew (fresh (dom (heap st))) (grown cap cap * sizeof)]
      ++ relocation_events xs
      ++ [EvDelete (fresh (dom (heap st)))].
Proof.
  intros (buf & Hthis & Hown) Heq Hi Hrel Hlt Hcan. subst cap.
  pose proof sizeof_pos as Hsz.
  pose proof (relocated_length _ _ _ Hrel) as [Hlz Hlr].
  unfold Vector.EmplaceBack.
  rewrite (run_bind_ok _ _ _ _ _ (run_get_obj _ _ _ Hthis)).
  cbn [data_ size_ RawMemory.Capacity RawMemory.GetAddress capacity_ buffer_].
  unfold grown in *. rewrite Z.eqb_refl in Hlt, Hcan. rewrite !Z.eqb_refl.
  set (cap' := if Z.of_nat (length xs) =? 0 then 1 else Z.of_nat (length xs) * 2) in *.
  assert (Z.of_nat (length xs) < cap' < size_t_mod) as Hcap'.
  { subst cap'. destruct (Z.eqb_spec (Z.of_nat (length xs)) 0); nia. }
  assert ((if Z.of_nat (length xs) =? 0 then 1 else wrap (Z.of_nat (length xs) * 2)) = cap')
    as ->.
  { subst cap'. destruct (Z.eqb_spec (Z.of_nat (length xs)) 0); [done|].
    apply wrap_small. lia. }
  rewrite ?run_bind_assoc.
  rewrite (run_bind_ok _ _ _ _ _ (run_RawMemory_ctor st cap' ltac:(lia) Hlt Hcan)).
  pose proof (fresh_block st) as Hfresh.
  set (b := fresh (dom (heap st))) in *.
  rewrite ?run_bind_assoc.
  destruct buf as [|a off].
  - apply owns_null in Hown as [-> ->].
    apply relocated_nil in Hrel as [-> ->].
    erewrite run_bind_throw; cycle 1.
    { eapply run_unwind_throw.
      - erewrite run_bind_ok; cycle 1.
        { eapply run_FillNewData_none. cbn [objs]. exact Hthis. }
        apply run_bind_throw. by apply construct_from_throws.
      - eapply run_RawMemory_dtor. cbn [heap]. apply lookup_insert_eq. }
    eexists. split; [reflexivity|]. cbn [heap objs trace].
    rewrite delete_insert_id by done.
    split; [|split; [done|split; [done|]]].
    + exists nullptr. cbn [objs]. split; [done|]. split; [cbn; lia|done].
    + unfold relocation_events. destruct relocation_moves; cbn; by rewrite <- app_assoc.
  - destruct Hown as [Hle [-> Ha]]. cbn [capacity_] in Hle, Ha.
    assert (a <> b) as Hab by congruence.
    erewrite run_bind_throw; cycle 1.
    { eapply run_unwind_throw.
      - erewrite run_bind_ok; cycle 1.
        { eapply (run_FillNewData_front _ this a b _ cap' xs zs rs
                    (replicate (Z.to_nat cap' - length xs) None)); cbn [heap objs]; eauto.
          - by rewrite lookup_insert_ne.
          - rewrite lookup_insert_eq. f_equal. apply replicate_split. lia. }
        apply run_bind_throw. by apply construct_from_throws.
      - eapply run_RawMemory_dtor. cbn [heap]. apply lookup_insert_eq. }
    eexists. split; [reflexivity|]. cbn [heap objs trace].
    rewrite delete_insert_eq.
    split; [|split; [done|split]].
    + exists (Ptr a 0). cbn [objs heap]. rewrite Hlr. split; [done|].
      split; [cbn; lia|]. split; [done|]. cbn [capacity_ heap].
      rewrite lookup_delete_ne by done. by rewrite lookup_insert_eq.
    + by rewrite lookup_delete_eq.
    + by rewrite <- !app_assoc.
Qed.

(** [Emplace] when the constructor of the new element throws. *)
Lemma Emplace_throws st this a cap xs (i : Z) arg :
  vec_at st this cap xs -> block_addr st this = Some a -> init_result arg = None ->
  (Z.of_nat (length xs) = cap ->
   grown cap cap * sizeof < size_t_mod /\ can_allocate (grown cap cap * sizeof) = true) ->
  run (Vector.Emplace this (Ptr a i) arg) st
  = (Throw elem_exn,
     if Z.of_nat (length xs) =? cap
     then mkState (heap st) (objs st)
            (trace st ++ [EvNew (fresh (dom (heap st))) (grown cap cap * sizeof);
                          EvDelete (fresh (dom (heap st)))])
     else st).
Proof.
  intros Hvec Hblock Hi Halloc.
  destruct (vec_at_block_addr _ _ _ _ _ Hvec Hblock) as (Hthis & Ha & Hle).
  pose proof sizeof_pos as Hsz.
  unfold Vector.Emplace.
  rewrite (run_bind_ok _ _ _ _ _ (run_get_obj _ _ _ Hthis)).
  cbn [data_ size_ RawMemory.Capacity RawMemory.GetAddress capacity_ buffer_ ptr_diff].
  rewrite decide_True by done. cbn [from_option].
  rewrite (run_bind_ok _ _ _ _ _ (run_ret _ _)).
  destruct (Z.eqb_spec (Z.of_nat (length xs)) cap) as [Heq|Hne].
  - destruct (Halloc Heq) as [Hlt Hcan]. subst cap.
    unfold grown in *. rewrite Z.eqb_refl in Hlt, Hcan. rewrite !Z.eqb_refl.
    set (cap' := if Z.of_nat (length xs) =? 0 then 1 else Z.of_nat (length xs) * 2) in *.
    assert (Z.of_nat (length xs) < cap' < size_t_mod) as Hcap'.
    { subst cap'. destruct (Z.eqb_spec (Z.of_nat (length xs)) 0); nia. }
    assert ((if Z.of_nat (length xs) =? 0 then 1 else wrap (Z.of_nat (length xs) * 2)) = cap')
      as ->.
    { subst cap'. destruct (Z.eqb_spec (Z.of_nat (length xs)) 0); [done|].
      apply wrap_small. lia. }
    rewrite ?run_bind_assoc.
    rewrite (run_bind_ok _ _ _ _ _ (run_RawMemory_ctor st cap' ltac:(lia) Hlt Hcan)).
    pose proof (fresh_block st) as Hfresh.
    rewrite ?run_bind_assoc.
    erewrite run_bind_throw; cycle 1.
    { eapply run_unwind_throw.
      - apply run_bind_throw. by apply construct_from_throws.
      - eapply run_RawMemory_dtor. cbn [heap]. apply lookup_insert_eq. }
    cbn [heap objs trace]. rewrite delete_insert_id by done.
    by rewrite <- app_assoc.
  - destruct (Z.eqb_spec (Z.of_nat (length xs)) 0) as [Hz|Hnz]; cbn [negb].
    + rewrite ?run_bind_assoc. apply run_bind_throw. by apply construct_from_throws.
    + rewrite ?run_bind_assoc. apply run_bind_throw. by apply run_init_throws.
Qed.

(** An append into spare capacity is undone by [PopBack]. *)
Lemma EmplaceBack_PopBack st this cap xs i x :
  vec_at st this cap xs -> Z.of_nat (length xs) < cap -> init_result i = Some x ->
  run (Vector.EmplaceBack this i ;;; Vector.PopBack this) st
  = (Ok tt, mkState (heap st) (objs st) (trace st ++ [init_event i x; EvDtor x])).
Proof.
  intros Hvec Hlt Hi.
  destruct (block_addr st this) as [a|] eqn:Hblock; cycle 1.
  { destruct (vec_at_no_block _ _ _ _ Hvec Hblock) as (_ & -> & ->). simpl in Hlt. lia. }
  destruct (vec_at_block_addr _ _ _ _ _ Hvec Hblock) as (Hthis & Ha & Hle).
  destruct (EmplaceBack_in_place_vec st this a cap xs i x Hvec Hblock Hlt Hi)
    as (st1 & Hrun1 & Hv1 & Hb1 & Htr1).
  rewrite (run_bind_ok _ _ _ _ _ Hrun1).
  rewrite (PopBack_state st1 this a cap xs x Hv1 Hb1).
  rewrite (EmplaceBack_in_place st this a cap xs i x Hvec Hblock Hlt Hi) in Hrun1.
  injection Hrun1 as <-. cbn [heap objs trace].
  rewrite !insert_insert_eq, !insert_id by done.
  by rewrite <- app_assoc.
Qed.

End InPlaceAppends.

(** * Appending an element of the vector itself *)

Section Aliasing.
Context {T : Type} `{Elem T} `{Allocator}.
Implicit Types (st : state T) (xs ys zs rs : list T) (x y d r : T)
  (pre post : list (option T)).

Lemma block_of_lookup xs cap (j : nat) x :
  xs !! j = Some x -> block_of xs cap !! j = Some (Some x).
Proof.
  intros Hj. unfold block_of.
  rewrite lookup_app_l by (rewrite length_fmap; by eapply lookup_lt_Some).
  by rewrite list_lookup_fmap, Hj.
Qed.

(** [PushBack] of the object in slot [j] of block [c], with spare
    capacity. *)
Lemma PushBack_ref_in_place st this a cap xs c lc (j : nat) x y :
  vec_at st this cap xs -> block_addr st this = Some a ->
  Z.of_nat (length xs) < cap ->
  heap st !! c = Some lc -> lc !! j = Some (Some x) -> copy_ctor x = Some y ->
  exists st',
    run (Vector.PushBack_ref this (Ptr c (Z.of_nat j))) st = (Ok tt, st') /\
    vec_at st' this cap (xs ++ [y]) /\ block_addr st' this = Some a /\
    trace st' = trace st ++ [EvCopyCtor x].
Proof.
  intros Hvec Hblock Hlt Hc Hj Hy.
  destruct (vec_at_block_addr _ _ _ _ _ Hvec Hblock) as (Hthis & Ha & Hle).
  unfold Vector.PushBack_ref, Vector.EmplaceBack_ref. rewrite ?run_bind_assoc.
  rewrite (run_bind_ok _ _ _ _ _ (run_get_obj _ _ _ Hthis)).
  cbn [data_ size_ RawMemory.GetAddress RawMemory.Capacity buffer_ capacity_ ptr_add].
  destruct (Z.eqb_spec (Z.of_nat (length xs)) cap) as [|_]; [lia|].
  rewrite Z.add_0_l. rewrite ?run_bind_assoc.
  assert (run (copy_construct_at (Ptr a (Z.of_nat (length xs))) (Ptr c (Z.of_nat j))) st
          = (Ok tt, mkState (<[a := block_of (xs ++ [y]) cap]> (heap st)) (objs st)
                            (trace st ++ [EvCopyCtor x]))) as Hcopy.
  { unfold copy_construct_at.
    rewrite (run_bind_ok _ _ _ _ _ (run_load _ c j _ x Hc Hj)).
    rewrite Hy. rewrite (run_bind_ok _ _ _ _ _ (run_log _ _)).
    rewrite (run_construct _ a (length xs) (block_of xs cap)); cbn [heap objs trace].
    - by rewrite block_of_snoc by lia.
    - done.
    - rewrite block_of_length; lia. }
  rewrite (run_bind_ok _ _ _ _ _ Hcopy). rewrite ?run_bind_assoc.
  erewrite run_bind_ok; cycle 1.
  { eapply run_set_size. cbn [objs]. exact Hthis. }
  rewrite ?run_bind_assoc.
  erewrite run_bind_ok; cycle 1.
  { eapply run_get_obj. cbn [objs]. apply lookup_insert_eq. }
  rewrite (run_bind_ok _ _ _ _ _ (run_ret _ _)). rewrite run_ret.
  eexists. split; [reflexivity|]. cbn [heap objs trace data_].
  rewrite wrap_small by lia.
  match goal with
  | |- vec_at ?s _ _ _ /\ _ =>
      destruct (vec_at_intro s this a cap (xs ++ [y])) as [Hv Hb]; cbn [heap objs]
  end.
  - rewrite lookup_insert_eq, length_app. cbn [length]. do 3 f_equal. lia.
  - by rewrite lookup_insert_eq.
  - rewrite length_app. cbn [length]. lia.
  - done.
Qed.

(** [PushBack] of the object in slot [j] of block [c] on a full
    vector: the elements are relocated first, and the new element is a
    copy of what slot [j] holds after that. *)
Lemma PushBack_ref_full st this a cap xs zs rs c lc (j : nat) r y :
  vec_at st this cap xs -> block_addr st this = Some a ->
  Z.of_nat (length xs) = cap -> relocated xs zs rs ->
  <[a := block_of rs cap]> (heap st) !! c = Some lc ->
  lc !! j = Some (Some r) -> copy_ctor r = Some y ->
  grown cap cap * sizeof < size_t_mod -> can_allocate (grown cap cap * sizeof) = true ->
  exists st',
    run (Vector.PushBack_ref this (Ptr c (Z.of_nat j))) st = (Ok tt, st') /\
    vec_at st' this (grown cap cap) (zs ++ [y]) /\
    trace st' = trace st
      ++ [EvNew (fresh (dom (heap st))) (grown cap cap * sizeof)]
      ++ relocation_events xs ++ [EvCopyCtor r] ++ (EvDtor <$> rs) ++ [EvDelete a].
Proof.
  intros Hvec Hblock Heq Hrel Hc Hj Hy Hlt Hcan. subst cap.
  destruct (vec_at_block_addr _ _ _ _ _ Hvec Hblock) as (Hthis & Ha & Hle).
  pose proof sizeof_pos as Hsz.
  pose proof (relocated_length _ _ _ Hrel) as [Hlz Hlr].
  unfold Vector.PushBack_ref, Vector.EmplaceBack_ref. rewrite ?run_bind_assoc.
  rewrite (run_bind_ok _ _ _ _ _ (run_get_obj _ _ _ Hthis)).
  cbn [data_ size_ RawMemory.Capacity RawMemory.GetAddress capacity_ buffer_].
  unfold grown in *. rewrite Z.eqb_refl in Hlt, Hcan. rewrite !Z.eqb_refl.
  set (cap' := if Z.of_nat (length xs) =? 0 then 1 else Z.of_nat (length xs) * 2) in *.
  assert (Z.of_nat (length xs) < cap' < size_t_mod) as Hcap'.
  { subst cap'. destruct (Z.eqb_spec (Z.of_nat (length xs)) 0); nia. }
  assert ((if Z.of_nat (length xs) =? 0 then 1 else wrap (Z.of_nat (length xs) * 2)) = cap')
    as ->.
  { subst cap'. destruct (Z.eqb_spec (Z.of_nat (length xs)) 0); [done|].
    apply wrap_small. lia. }
  rewrite ?run_bind_assoc.
  rewrite (run_bind_ok _ _ _ _ _ (run_RawMemory_ctor st cap' ltac:(lia) Hlt Hcan)).
  pose proof (fresh_block st) as Hfresh.
  set (b := fresh (dom (heap st))) in *.
  assert (a <> b) as Hab by congruence.
  assert (c <> b) as Hcb.
  { intros ->. rewrite lookup_insert_ne in Hc by done. congruence. }
  rewrite ?run_bind_assoc.
  erewrite run_bind_ok; cycle 1.
  { apply run_unwind_ok. erewrite run_bind_ok; cycle 1.
    { eapply (run_FillNewData_front _ this a b _ cap' xs zs rs
                (replicate (Z.to_nat cap' - length xs) None)); cbn [heap objs]; eauto.
      - by rewrite lookup_insert_ne.
      - rewrite lookup_insert_eq. f_equal. apply replicate_split. lia. }
    erewrite run_bind_ok; cycle 1.
    { cbn [ptr_add buffer_ RawMemory.GetAddress].
      change (0 + Z.of_nat (length xs)) with (Z.of_nat (length xs)).
      eapply (run_copy_construct_at _ c b j (length xs) lc _ r y Hcb); cbn [heap].
      - rewrite lookup_insert_ne by done.
        destruct (decide (a = c)) as [->|Hac].
        + rewrite lookup_insert_eq in Hc. by rewrite lookup_insert_eq.
        + rewrite lookup_insert_ne in Hc by done.
          rewrite !lookup_insert_ne by done. exact Hc.
      - apply lookup_insert_eq.
      - exact Hj.
      - rewrite length_app, length_fmap, length_replicate. lia.
      - exact Hy. }
    eapply (run_destroy_n_front _ a rs); cbn [heap].
    - rewrite lookup_insert_ne by done. rewrite lookup_insert_ne by done.
      rewrite lookup_insert_eq. done.
    - lia. }
  cbn [RawMemory.Swap buffer_ capacity_ heap objs trace]. rewrite ?run_bind_assoc.
  erewrite run_bind_ok; cycle 1.
  { eapply run_set_data. cbn [objs]. exact Hthis. }
  rewrite ?run_bind_assoc.
  erewrite run_bind_ok; cycle 1.
  { eapply run_RawMemory_dtor. cbn [heap]. apply lookup_insert_eq. }
  rewrite ?run_bind_assoc.
  erewrite run_bind_ok; cycle 1.
  { eapply run_set_size. cbn [objs]. apply lookup_insert_eq. }
  rewrite ?run_bind_assoc.
  erewrite run_bind_ok; cycle 1.
  { eapply run_get_obj. cbn [objs]. apply lookup_insert_eq. }
  rewrite (run_bind_ok _ _ _ _ _ (run_ret _ _)). rewrite run_ret.
  eexists. split; [reflexivity|]. cbn [heap objs trace data_ size_].
  rewrite wrap_small by lia. split.
  - exists (Ptr b 0). cbn [objs heap]. rewrite insert_insert_eq, lookup_insert_eq.
    split; [do 2 f_equal; rewrite length_app; cbn [length]; lia|].
    split; [cbn [capacity_]; rewrite length_app; cbn [length]; lia|].
    split; [done|]. cbn [capacity_ heap].
    rewrite lookup_delete_ne by done. rewrite lookup_insert_ne by done.
    rewrite lookup_insert_eq. f_equal.
    pose proof (block_of_snoc zs y cap' ltac:(lia)) as Hs.
    unfold block_of in Hs at 1. rewrite Hlz in Hs. exact Hs.
  - by rewrite <- !app_assoc.
Qed.

End Aliasing.

(** * Ownership of raw storage, and growth *)

Section Storage.
Context {T : Type} `{Elem T} `{Allocator}.
Implicit Types (st : state T) (xs ys zs rs : list T).

(** A [RawMemory] is allocated, moved from, and both objects are
    destroyed. *)
Lemma RawMemory_lifecycle st n :
  0 <= n ->
  (n <> 0 -> n * sizeof < size_t_mod /\ can_allocate (n * sizeof) = true) ->
  run (let* d := RawMemory.ctor n in
       let '(d', od) := RawMemory.ctor_move d in
       RawMemory.dtor od ;;; RawMemory.dtor d') st
  = (Ok tt,
     mkState (heap st) (objs st)
       (trace st ++ if n =? 0 then []
                    else [EvNew (fresh (dom (heap st))) (n * sizeof);
                          EvDelete (fresh (dom (heap st)))])).
Proof.
  intros Hn Halloc. destruct (Z.eqb_spec n 0) as [->|Hne].
  - rewrite (run_bind_ok _ _ _ _ _ (RawMemory_ctor_zero st)).
    cbn. by rewrite app_nil_r, state_eta.
  - destruct (Halloc Hne) as [Hlt Hcan].
    rewrite (run_bind_ok _ _ _ _ _ (run_RawMemory_ctor st n ltac:(lia) Hlt Hcan)).
    pose proof (fresh_block st) as Hfresh.
    cbn [RawMemory.ctor_move buffer_ capacity_].
    rewrite (run_bind_ok _ _ _ _ _ (run_RawMemory_dtor_null _ _)).
    erewrite run_RawMemory_dtor by (cbn [heap]; apply lookup_insert_eq).
    cbn [heap objs trace]. rewrite delete_insert_id by done.
    by rewrite <- app_assoc.
Qed.

(** Move assignment between two [RawMemory] objects that own the
    blocks [a] and [b], after which both are destroyed. *)
Lemma RawMemory_move_assign st (this rhs : ref) a b la lb ca cb :
  this <> rhs -> a <> b -> heap st !! a = Some la -> heap st !! b = Some lb ->
  run (let* (d, rd) := RawMemory.operator_assign_move this rhs
                         (mkRawMemory (Ptr a 0) ca) (mkRawMemory (Ptr b 0) cb) in
       RawMemory.dtor rd ;;; RawMemory.dtor d ;;; ret (d, rd)) st
  = (Ok (mkRawMemory (Ptr b 0) cb, mkRawMemory nullptr 0),
     mkState (delete b (delete a (heap st))) (objs st)
             (trace st ++ [EvDelete a; EvDelete b])).
Proof.
  intros Hne Hab Ha Hb. unfold RawMemory.operator_assign_move.
  rewrite decide_True by done. rewrite ?run_bind_assoc.
  cbn [buffer_ RawMemory.Deallocate].
  assert (run (operator_delete (Ptr a 0)) st
          = (Ok tt, mkState (delete a (heap st)) (objs st) (trace st ++ [EvDelete a])))
    as Hdel.
  { unfold run, operator_delete. rewrite decide_True by done. by rewrite Ha. }
  rewrite (run_bind_ok _ _ _ _ _ Hdel).
  rewrite (run_bind_ok _ _ _ _ _ (run_ret _ _)).
  cbn [RawMemory.Swap buffer_ capacity_].
  rewrite (run_bind_ok _ _ _ _ _ (run_RawMemory_dtor_null _ _)).
  erewrite run_bind_ok; cycle 1.
  { eapply run_RawMemory_dtor. cbn [heap]. rewrite lookup_delete_ne by done. exact Hb. }
  rewrite run_ret. cbn [heap objs trace]. by rewrite <- app_assoc.
Qed.

End Storage.

(** The capacity after [k >= 1] appends to an empty vector is the
    power of two in [k, 2k). *)
Lemma capacity_after_pow2 (k : nat) :
  (0 < k)%nat ->
  exists e : nat,
    capacity_after k = 2 ^ Z.of_nat e /\ Z.of_nat k <= capacity_after k < 2 * Z.of_nat k.
Proof.
  induction k as [|k IH]; [lia|]. intros _.
  destruct k as [|k'].
  - exists 0%nat. by vm_compute.
  - destruct (IH ltac:(lia)) as (e & He & Hb).
    set (k := S k') in *. rewrite capacity_after_S. unfold grown.
    destruct (Z.eqb_spec (Z.of_nat k) (capacity_after k)) as [Heq|Hne].
    + destruct (Z.eqb_spec (Z.of_nat k) 0) as [|_]; [lia|].
      exists (S e). rewrite Nat2Z.inj_succ, Z.pow_succ_r by lia.
      rewrite <- He, <- Heq. lia.
    + exists e. split; [done|]. lia.
Qed.

Section CopyAssignFailure.
Context {T : Type} `{Elem T} `{Allocator}.
Implicit Types (st : state T) (xs ys zs rs : list T).

(** Copy assignment from a longer vector than the capacity, when
    copying an element throws. *)
Lemma operator_assign_throws st this rhs cap rcap xs ys y ys2 zs :
  this <> rhs -> vec_at st this cap xs -> vec_at st rhs rcap (ys ++ y :: ys2) ->
  cap < Z.of_nat (length (ys ++ y :: ys2)) ->
  Forall2 (fun y z => copy_ctor y = Some z) ys zs -> copy_ctor y = None ->
  Z.of_nat (length (ys ++ y :: ys2)) * sizeof < size_t_mod ->
  can_allocate (Z.of_nat (length (ys ++ y :: ys2)) * sizeof) = true ->
  run (Vector.operator_assign this rhs) st
  = (Throw elem_exn,
     mkState (heap st) (objs st)
       (trace st
          ++ [EvNew (fresh (dom (heap st))) (Z.of_nat (length (ys ++ y :: ys2)) * sizeof)]
          ++ (EvCopyCtor <$> ys) ++ (EvDtor <$> zs)
          ++ [EvDelete (fresh (dom (heap st)))])).
Proof.
  intros Hne (buf & Hthis & Hown) Hrhs Hcap Hcopy Hy Hlt Hcan.
  pose proof Hrhs as (rbuf & Hr & _).
  unfold Vector.operator_assign. rewrite decide_True by done.
  rewrite (run_bind_ok _ _ _ _ _ (run_get_obj _ _ _ Hthis)).
  rewrite (run_bind_ok _ _ _ _ _ (run_get_obj _ _ _ Hr)).
  cbn [data_ size_ RawMemory.Capacity capacity_].
  destruct (Z.gtb_spec (Z.of_nat (length (ys ++ y :: ys2))) cap) as [_|]; [|lia].
  unfold get_state at 1.
  change (run (bind (fun st0 : state T => (Ok st0, st0)) ?k) st) with (run (k st) st).
  cbv beta.
  apply run_bind_throw.
  by apply (ctor_copy_throws st _ rhs rcap ys y ys2 zs).
Qed.

End CopyAssignFailure.

Section MoreEdges.
Context {T : Type} `{Elem T} `{Allocator}.
Implicit Types (st : state T) (xs ys zs rs : list T).

(** [Resize] beyond the size when the value constructor throws. *)
Lemma Resize_throws st this cap xs zs rs n :
  vec_at st this cap xs -> Z.of_nat (length xs) < n < size_t_mod ->
  value_ctor = None ->
  (cap < n -> n * sizeof < size_t_mod /\ can_allocate (n * sizeof) = true /\
              relocated xs zs rs) ->
  exists st',
    run (Vector.Resize this n) st = (Throw elem_exn, st') /\
    (n <= cap -> st' = st) /\
    (cap < n -> vec_at st' this n zs).
Proof.
  intros Hvec Hn Hd Halloc. pose proof Hvec as (buf & Hthis & Hown).
  assert (exists st1 c zs1,
             run (Vector.Reserve this n) st = (Ok tt, st1) /\
             vec_at st1 this c zs1 /\ length zs1 = length xs /\
             (n <= cap -> st1 = st) /\ (cap < n -> c = n /\ zs1 = zs))
    as (st1 & c & zs1 & Hres & Hv1 & Hl1 & Hsame & Hgrown).
  { destruct (Z.le_gt_cases n cap) as [Hle|Hgt].
    - exists st, cap, xs. split; [|split; [done|split; [done|split; [done|lia]]]].
      apply (Reserve_noop st this _ n Hthis). cbn. lia.
    - destruct (Halloc Hgt) as (Hlt & Hcan & Hrel).
      destruct (Reserve_grows st this cap xs zs rs n Hvec Hgt Hlt Hcan Hrel)
        as (st1 & Hres & Hv1 & _).
      destruct (relocated_length _ _ _ Hrel) as [Hlz _].
      exists st1, n, zs. split; [done|]. split; [done|]. split; [done|].
      split; [lia|done]. }
  destruct Hv1 as (buf1 & Hthis1 & Hown1).
  exists st1. split.
  - unfold Vector.Resize.
    rewrite (run_bind_ok _ _ _ _ _ (run_get_obj _ _ _ Hthis)).
    cbn [data_ size_].
    destruct (Z.leb_spec n (Z.of_nat (length xs))) as [|_]; [lia|].
    rewrite ?run_bind_assoc.
    rewrite (run_bind_ok _ _ _ _ _ Hres). rewrite ?run_bind_assoc.
    rewrite (run_bind_ok _ _ _ _ _ (run_get_obj _ _ _ Hthis1)).
    cbn [data_ size_]. apply run_bind_throw.
    apply run_value_construct_n_throws; [done|].
    rewrite Hl1, wrap_small by lia. lia.
  - split; [done|]. intros Hgt. destruct (Hgrown Hgt) as [-> ->].
    by exists buf1.
Qed.


End MoreEdges.

(** * Appends by reference and sequences of appends *)

Section Congruence.
Context {T : Type}.

Lemma run_bind_ext {A B} (m : M T A) (k1 k2 : A -> M T B) (st : state T) :
  (forall a st1, run m st = (Ok a, st1) -> run (k1 a) st1 = run (k2 a) st1) ->
  run (bind m k1) st = run (bind m k2) st.
Proof.
  intros Hk. unfold run, bind in *. destruct (m st) as [[a|e|] st1]; [|done..].
  by apply Hk.
Qed.

Lemma run_bind_cong {A B} (m1 m2 : M T A) (k : A -> M T B) (st : state T) :
  run m1 st = run m2 st -> run (bind m1 k) st = run (bind m2 k) st.
Proof. unfold run, bind. by intros ->. Qed.

Lemma run_unwind_cong {A} (m1 m2 : M T A) (c : M T unit) (st : state T) :
  run m1 st = run m2 st -> run (unwind m1 c) st = run (unwind m2 c) st.
Proof. unfold run, unwind, try_catch. by intros ->. Qed.

End Congruence.

Section BlockLength.
Context {T : Type}.

(** The block behind a vector has as many slots as its capacity. *)
Lemma vec_at_block_length (st : state T) this cap (xs : list T) a l :
  vec_at st this cap xs -> block_addr st this = Some a -> heap st !! a = Some l ->
  Z.of_nat (length l) = cap.
Proof.
  intros Hvec Hblock Hl.
  destruct (vec_at_block_addr _ _ _ _ _ Hvec Hblock) as (_ & Ha & Hle).
  rewrite Ha in Hl. injection Hl as <-. unfold block_of.
  rewrite length_app, length_fmap, length_replicate. lia.
Qed.

End BlockLength.

Section ByReference.
Context {T : Type} `{Elem T} `{Allocator}.
Implicit Types (st : state T) (xs ys zs rs : list T) (x y : T).

(** Copy construction from a reference to [x] is copy construction
    from [x]. *)
Lemma copy_construct_at_loaded st dst c lc (j : nat) x :
  heap st !! c = Some lc -> lc !! j = Some (Some x) ->
  run (copy_construct_at dst (Ptr c (Z.of_nat j))) st
  = run (construct_from dst (InitCopy x)) st.
Proof.
  intros Hc Hj. unfold copy_construct_at, construct_from, run_init.
  rewrite (run_bind_ok _ _ _ _ _ (run_load _ c j _ x Hc Hj)).
  by destruct (copy_ctor x).
Qed.

(** [PushBack] of a reference to an object outside the storage of the
    vector is [PushBack] of its value. *)
Lemma PushBack_ref_outside st this cap xs zs rs c lc (j : nat) x :
  vec_at st this cap xs -> block_addr st this <> Some c ->
  heap st !! c = Some lc -> lc !! j = Some (Some x) ->
  (Z.of_nat (length xs) = cap ->
   relocated xs zs rs /\
   grown cap cap * sizeof < size_t_mod /\ can_allocate (grown cap cap * sizeof) = true) ->
  run (Vector.PushBack_ref this (Ptr c (Z.of_nat j))) st = run (Vector.PushBack this x) st.
Proof.
  intros (buf & Hthis & Hown) Hblock Hc Hj Hgrow.
  pose proof sizeof_pos as Hsz.
  unfold Vector.PushBack_ref, Vector.PushBack. apply run_bind_cong.
  unfold Vector.EmplaceBack_ref, Vector.EmplaceBack.
  apply run_bind_ext. intros v st1 Hget.
  rewrite (run_get_obj _ _ _ Hthis) in Hget. injection Hget as <- <-.
  apply run_bind_cong.
  cbn [data_ size_ RawMemory.Capacity RawMemory.GetAddress capacity_ buffer_].
  destruct (Z.eqb_spec (Z.of_nat (length xs)) cap) as [Heq|Hne].
  - destruct (Hgrow Heq) as (Hrel & Hlt & Hcan). subst cap.
    unfold grown in *. rewrite Z.eqb_refl in Hlt, Hcan.
    set (cap' := if Z.of_nat (length xs) =? 0 then 1 else Z.of_nat (length xs) * 2) in *.
    assert (Z.of_nat (length xs) < cap' < size_t_mod) as Hcap'.
    { subst cap'. destruct (Z.eqb_spec (Z.of_nat (length xs)) 0); nia. }
    assert ((if Z.of_nat (length xs) =? 0 then 1 else wrap (Z.of_nat (length xs) * 2)) = cap')
      as ->.
    { subst cap'. destruct (Z.eqb_spec (Z.of_nat (length xs)) 0); [done|].
      apply wrap_small. lia. }
    apply run_bind_ext. intros nd st1 Hctor.
    rewrite (run_RawMemory_ctor st cap' ltac:(lia) Hlt Hcan) in Hctor.
    injection Hctor as <- <-.
    pose proof (fresh_block st) as Hfresh.
    set (b := fresh (dom (heap st))) in *.
    assert (c <> b) as Hcb by congruence.
    apply run_bind_cong, run_unwind_cong.
    apply run_bind_ext. intros [] st2 Hfill. apply run_bind_cong.
    destruct buf as [|a off].
    + apply owns_null in Hown as [_ ->]. cbn [length Z.of_nat] in Hfill.
      erewrite (run_FillNewData_none _ this) in Hfill; [|exact Hthis].
      injection Hfill as <-.
      apply (copy_construct_at_loaded _ _ c lc j x); [|done].
      cbn [heap]. by rewrite lookup_insert_ne.
    + destruct Hown as [Hle [-> Ha]]. cbn [capacity_] in Hle, Ha.
      assert (a <> b) as Hab by congruence.
      assert (c <> a) as Hca.
      { intros ->. apply Hblock. unfold block_addr. by rewrite Hthis. }
      erewrite (run_FillNewData_front _ this a b _ cap' xs zs rs
                  (replicate (Z.to_nat cap' - length xs) None)) in Hfill;
        cbn [heap objs]; eauto; cycle 1.
      { by rewrite lookup_insert_ne. }
      { rewrite lookup_insert_eq. f_equal. apply replicate_split. lia. }
      injection Hfill as <-.
      apply (copy_construct_at_loaded _ _ c lc j x); [|done].
      cbn [heap]. by rewrite !lookup_insert_ne.
  - by apply (copy_construct_at_loaded _ _ c lc j x).
Qed.

Lemma relocated_preserves xs :
  Forall relocation_preserves xs -> exists rs, relocated xs xs rs.
Proof.
  unfold relocated, relocation_preserves. destruct relocation_moves.
  - induction 1 as [|x xs [r Hx] _ (rs & zrs & Hf & Hz & Hr)].
    + exists [], []. by repeat constructor.
    + exists (r :: rs), ((x, r) :: zrs). split; [by constructor|].
      cbn [fmap list_fmap fst snd]. split; by f_equal.
  - intros Hall. exists xs. split; [|done]. induction Hall; constructor; auto.
Qed.

Lemma regular_preserves `{!Regular T} xs : Forall relocation_preserves xs.
Proof.
  apply Forall_forall. intros x _. unfold relocation_preserves.
  destruct relocation_moves; [apply move_ctor_ok|apply copy_ctor_ok].
Qed.

Lemma object_at_lookup st c (j : Z) x :
  object_at st (Ptr c j) = Some x ->
  exists lc, heap st !! c = Some lc /\ lc !! Z.to_nat j = Some (Some x) /\ 0 <= j.
Proof.
  unfold object_at, slots_of. destruct (Z.ltb_spec j 0); [done|].
  destruct (heap st !! c) as [lc|]; [|done].
  destruct (lc !! Z.to_nat j) as [[y|]|] eqn:Hl; [|done..].
  intros [= ->]. eauto.
Qed.

(** One append whose argument is not an element of the vector: the
    blocks in [keep], which the vector does not own, stay as they
    are. *)
Lemma run_append_outside st0 st this cap xs op x :
  Forall relocation_preserves xs ->
  vec_at st this cap xs ->
  (forall c l, heap st0 !! c = Some l ->
               heap st !! c = Some l /\ block_addr st this <> Some c) ->
  append_value st0 op = Some x ->
  (Z.of_nat (length xs) = cap ->
   grown cap cap * sizeof < size_t_mod /\ can_allocate (grown cap cap * sizeof) = true) ->
  exists st',
    run (run_append this op) st = (Ok tt, st') /\
    vec_at st' this (grown (Z.of_nat (length xs)) cap) (xs ++ [x]) /\
    (forall c l, heap st0 !! c = Some l ->
                 heap st' !! c = Some l /\ block_addr st' this <> Some c).
Proof.
  intros Hp Hvec Hkeep Hval Hgrow.
  destruct (relocated_preserves xs Hp) as [rs Hrel].
  assert (forall i, init_result i = Some x ->
            exists st',
              run (Vector.EmplaceBack this i ;;; ret tt) st = (Ok tt, st') /\
              vec_at st' this (grown (Z.of_nat (length xs)) cap) (xs ++ [x]) /\
              (forall c l, heap st0 !! c = Some l ->
                           heap st' !! c = Some l /\ block_addr st' this <> Some c))
    as Hstep.
  { intros i Hi.
    destruct (EmplaceBack_relocating st this cap xs xs rs i x Hvec Hi)
      as (st' & a & Hrun & Hv & Hb & Hprov & _ & Hframe).
    { intros Heq. destruct (Hgrow Heq). done. }
    exists st'. rewrite (run_bind_ok _ _ _ _ _ Hrun). split; [done|]. split.
    { by destruct (Z.of_nat (length xs) =? cap). }
    intros c l Hc. destruct (Hkeep c l Hc) as [Hc' Hne]. split.
    - rewrite Hframe; [done|done|congruence].
    - rewrite Hb. intros [= ->]. destruct Hprov as [Hold|Hnew]; congruence. }
  destruct op as [p|v|v|i]; cbn [run_append append_value] in *.
  - destruct (object_at st0 p) as [x0|] eqn:Hobj; [|done].
    destruct p as [|c j]; [done|].
    apply object_at_lookup in Hobj as (lc & Hc & Hj & Hj0).
    destruct (Hkeep c lc Hc) as [Hc' Hne].
    rewrite <- (Z2Nat.id j Hj0).
    rewrite (PushBack_ref_outside st this cap xs xs rs c lc _ x0 Hvec Hne Hc' Hj).
    + by apply (Hstep (InitCopy x0)).
    + intros Heq. destruct (Hgrow Heq). done.
  - by apply (Hstep (InitCopy v)).
  - by apply (Hstep (InitMove v)).
  - by apply Hstep.
Qed.

(** A sequence of appends whose arguments are not elements of the
    vector, after [length ys] appends to a vector that started without
    storage. *)
Lemma run_appends_outside st0 this ops xs :
  Forall2 (fun op x => append_value st0 op = Some x) ops xs ->
  forall st ys,
  Forall relocation_preserves (ys ++ xs) ->
  vec_at st this (capacity_after (length ys)) ys ->
  (forall c l, heap st0 !! c = Some l ->
               heap st !! c = Some l /\ block_addr st this <> Some c) ->
  (forall n, 0 < n <= 2 * Z.of_nat (length (ys ++ xs)) -> can_allocate (n * sizeof) = true) ->
  2 * Z.of_nat (length (ys ++ xs)) * sizeof < size_t_mod ->
  exists st',
    run (run_appends this ops) st = (Ok tt, st') /\
    vec_at st' this (capacity_after (length (ys ++ xs))) (ys ++ xs) /\
    (forall c l, heap st0 !! c = Some l -> heap st' !! c = Some l).
Proof.
  induction 1 as [|op x ops xs Hop Hall IH]; intros st ys Hp Hvec Hkeep Hcan Hlt.
  - exists st. rewrite app_nil_r. split; [done|]. split; [done|].
    intros c l Hc. by destruct (Hkeep c l Hc).
  - pose proof sizeof_pos as Hsz.
    pose proof (capacity_after_le (length ys)) as Hle.
    rewrite length_app in Hcan, Hlt. cbn [length] in Hcan, Hlt.
    destruct (run_append_outside st0 st this _ ys op x
                (proj1 (proj1 (Forall_app _ _ _) Hp)) Hvec Hkeep Hop)
      as (st1 & Hrun & Hvec1 & Hkeep1).
    { intros Heq. unfold grown. rewrite Z.eqb_refl.
      destruct (Z.eqb_spec (capacity_after (length ys)) 0).
      - split; [nia|]. apply Hcan. lia.
      - split; [nia|]. apply Hcan. lia. }
    rewrite <- capacity_after_S in Hvec1.
    replace (S (length ys)) with (length (ys ++ [x])) in Hvec1
      by (rewrite length_app; simpl; lia).
    destruct (IH st1 (ys ++ [x])) as (st' & Hrun' & Hvec' & Hkeep');
      [by rewrite <- app_assoc|exact Hvec1|exact Hkeep1|..].
    { rewrite <- app_assoc, length_app. simpl. done. }
    { rewrite <- app_assoc, length_app. simpl. done. }
    exists st'. cbn [run_appends].
    rewrite (run_bind_ok _ _ _ _ _ Hrun). split; [done|].
    by rewrite <- app_assoc in Hvec'.
Qed.

(** Appends to a default-constructed vector, the arguments being
    objects of the state before the construction: all succeed, the
    vector holds the constructed values in their order with the
    capacity of the growth rule, and the blocks that were there are
    untouched. *)
Lemma appends_from_default st this ops xs :
  Forall2 (fun op x => append_value st op = Some x) ops xs ->
  Forall relocation_preserves xs ->
  (forall n, 0 < n <= 2 * Z.of_nat (length xs) -> can_allocate (n * sizeof) = true) ->
  2 * Z.of_nat (length xs) * sizeof < size_t_mod ->
  exists st',
    run (Vector.ctor_default this ;;; run_appends this ops) st = (Ok tt, st') /\
    vec_at st' this (capacity_after (length xs)) xs /\
    run (Vector.Size this) st' = (Ok (Z.of_nat (length ops)), st') /\
    run (Vector.Capacity this) st' = (Ok (capacity_after (length ops)), st') /\
    (forall c l, heap st !! c = Some l -> heap st' !! c = Some l).
Proof.
  intros Hops Hp Hcan Hlt.
  set (st1 := mkState (heap st) (<[this := mkVector RawMemory.empty 0]> (objs st))
                      (trace st)).
  assert (vec_at st1 this (capacity_after (length (@nil T))) []) as Hvec.
  { apply vec_at_moved_from. apply lookup_insert_eq. }
  destruct (run_appends_outside st this ops xs Hops st1 [] Hp Hvec)
    as (st' & Hrun & Hvec' & Hkeep); [|done..|].
  { intros c l Hc. split; [done|]. unfold block_addr, st1. cbn [objs].
    by rewrite lookup_insert_eq. }
  exists st'. unfold Vector.ctor_default.
  rewrite (run_bind_ok _ _ _ _ _ (run_set_obj _ _ _)).
  split; [done|]. split; [done|].
  destruct Hvec' as (buf & Hobj & _). cbn [app] in Hobj.
  rewrite (Forall2_length _ _ _ Hops).
  unfold Vector.Size, Vector.Capacity.
  by rewrite !(run_bind_ok _ _ _ _ _ (run_get_obj _ _ _ Hobj)).
Qed.

End ByReference.

(** * The claims *)

(** The invariant of a vector in a concrete state, by evaluation; [a]
    is the block it owns. *)
Ltac vec_at_block a :=
  exists (Ptr a 0); vm_compute;
  repeat split; first [reflexivity | intros; discriminate].

(** Claim C1 fails on the code.  When no relocation throws, [Emplace]
    into a full vector doubles the capacity, places the new element at
    the position with the relocated elements around it, and destroys
    and releases the old storage.  But let a [Vector<Fragile>] be full
    with [{a_bad, b_ok}], where copying [a_bad] throws.  [Emplace] at index 1
    returns normally: the exception is caught and dropped, the new
    element is destroyed, [b_ok] is still copied, both original
    elements are destroyed and their block released.  The vector ends
    with size 3 over a block whose slots 0 and 1 are uninitialised. *)
Theorem C1_insert_swallows_failure :
  (forall (T : Type) (E : Elem T) (A : Allocator)
          (st : state T) (this : ref) (a : addr) (cap : Z) (xs : list T) (i : nat)
          (arg : init T) (v : T) (zs1 rs1 zs2 rs2 : list T),
     vec_at st this cap xs -> block_addr st this = Some a ->
     Z.of_nat (length xs) = cap -> (i <= length xs)%nat ->
     init_result arg = Some v ->
     relocated (take i xs) zs1 rs1 -> relocated (drop i xs) zs2 rs2 ->
     grown cap cap * sizeof < size_t_mod -> can_allocate (grown cap cap * sizeof) = true ->
     exists st',
       run (Vector.Emplace this (Ptr a (Z.of_nat i)) arg) st
       = (Ok (Ptr (fresh (dom (heap st))) (Z.of_nat i)), st') /\
       vec_at st' this (grown cap cap) (zs1 ++ v :: zs2) /\
       trace st' = trace st
         ++ [EvNew (fresh (dom (heap st))) (grown cap cap * sizeof); init_event arg v]
         ++ relocation_events (take i xs) ++ relocation_events (drop i xs)
         ++ (EvDtor <$> rs1 ++ rs2) ++ [EvDelete a]) /\
  (let st := (run Scenario.fragile_full empty_state).2 in
   vec_at st 0%nat 2 [Scenario.a_bad; Scenario.b_ok] /\
   @copy_ctor _ fragile_elem Scenario.a_bad = None /\
   exists st',
     run Scenario.fragile_emplace st = (Ok (Ptr 1%nat 1), st') /\
     objs st' !! 0%nat = Some (mkVector (mkRawMemory (Ptr 1%nat 0) 4) 3) /\
     heap st' !! 1%nat = Some [None; None; Some Scenario.b_ok; None] /\
     heap st' !! 0%nat = None /\
     elements st' 0%nat = None /\
     trace st' = trace st ++
       [EvNew 1%nat 64; EvArgsCtor Scenario.c_new; EvDtor Scenario.c_new;
        EvCopyCtor Scenario.b_ok; EvDtor Scenario.a_bad; EvDtor Scenario.b_ok;
        EvDelete 0%nat]).
Proof.
  split.
  - intros T E A st this a cap xs i arg v zs1 rs1 zs2 rs2. apply Emplace_realloc.
  - intros st. split; [|split; [reflexivity|]].
    + vec_at_block 0%nat.
    + eexists. split; [vm_compute; reflexivity|]. vm_compute. by repeat split.
Qed.

(** Claim C2 as stated fails: with [sizeof(T) = 4] the request for
    [2^62 + 1] elements overflows the byte size, yet the allocation
    succeeds, with a block of 4 bytes that has room for one element. *)
Lemma C2_overflow_does_not_fail :
  let n := 2 ^ 62 + 1 in
  0 <= n < size_t_mod /\
  size_t_mod <= n * sizeof (T:=Z) /\
  run (RawMemory.Allocate (T:=Z) (H0:=bounded 1024) n) empty_state
  = (Ok (Ptr 0%nat 0), mkState {[ 0%nat := [None] ]} ∅ [EvNew 0%nat 4]).
Proof. vm_compute. repeat split; first [reflexivity | intros; discriminate]. Qed.

(** Claim C2, amended.  [Allocate(0)] returns the null pointer and
    changes nothing.  Otherwise [operator new] is asked for
    [(n * sizeof(T)) mod 2^64] bytes: if it can supply them the result
    is a fresh block of that many bytes, which has room for exactly [n]
    elements when [n * sizeof(T)] does not overflow; if it cannot,
    [std::bad_alloc] propagates and nothing has changed. *)
Theorem C2_Allocate_wraps {T : Type} `{Elem T} `{Allocator} (st : state T) (n : Z) :
  0 <= n < size_t_mod ->
  (n = 0 -> run (RawMemory.Allocate n) st = (Ok nullptr, st)) /\
  (n <> 0 -> can_allocate (wrap (n * sizeof)) = true ->
     heap st !! fresh (dom (heap st)) = None /\
     run (RawMemory.Allocate n) st
     = (Ok (Ptr (fresh (dom (heap st))) 0),
        mkState (<[fresh (dom (heap st))
                   := replicate (Z.to_nat (wrap (n * sizeof) / sizeof)) None]> (heap st))
                (objs st)
                (trace st ++ [EvNew (fresh (dom (heap st))) (wrap (n * sizeof))])) /\
     (n * sizeof < size_t_mod -> Z.to_nat (wrap (n * sizeof) / sizeof) = Z.to_nat n)) /\
  (n <> 0 -> can_allocate (wrap (n * sizeof)) = false ->
     run (RawMemory.Allocate n) st = (Throw bad_alloc, st)).
Proof. apply Allocate_spec. Qed.

(** Claim C2 for [int] and an allocator limited to 1024 bytes: three
    elements are granted, a thousand are refused. *)
Lemma C2_witness :
  0 <= 3 < size_t_mod /\
  run (RawMemory.Allocate (T:=Z) (H0:=bounded 1024) 3) empty_state
  = (Ok (Ptr 0%nat 0), mkState {[ 0%nat := [None; None; None] ]} ∅ [EvNew 0%nat 12]) /\
  run (RawMemory.Allocate (T:=Z) (H0:=bounded 1024) 1000) empty_state
  = (Throw bad_alloc, empty_state).
Proof.
  assert (0 <= 3 < size_t_mod) as H3 by (by vm_compute).
  assert (0 <= 1000 < size_t_mod) as H1000 by (by vm_compute).
  split; [exact H3|]. split.
  - destruct (@C2_Allocate_wraps Z int_elem (bounded 1024) empty_state 3 H3)
      as (_ & Hok & _).
    destruct (Hok ltac:(discriminate) eq_refl) as (_ & Hrun & _). exact Hrun.
  - destruct (@C2_Allocate_wraps Z int_elem (bounded 1024) empty_state 1000 H1000)
      as (_ & _ & Hfail).
    exact (Hfail ltac:(discriminate) eq_refl).
Defined.

(** Claim C3.  With spare capacity, inserting in front of an existing
    element (or into an empty vector) and erasing at the same position
    gives the sequence back; so inserting 99 at index 1 of [{1, 2, 3}]
    gives [{1, 99, 2, 3}] and erasing at index 1 gives [{1, 2, 3}]
    (also when the vector was built from the list and the insertion
    reallocates).
    Inserting at [end()] of a non-empty vector is undefined: the code
    passes an inverted range to [std::move_backward], after it has
    already moved the last element into the free slot. *)
Theorem C3_insert_at_end_undefined :
  (forall (T : Type) (E : Elem T) (A : Allocator) (R : Regular T)
          (st : state T) (this : ref) (a : addr) (cap : Z) (xs : list T)
          (i : nat) (arg : init T) (v : T),
     vec_at st this cap xs -> block_addr st this = Some a ->
     Z.of_nat (length xs) < cap ->
     (i < length xs)%nat \/ (xs = [] /\ i = 0%nat) ->
     init_result arg = Some v ->
     exists p st1 q st2,
       run (Vector.Emplace this (Ptr a (Z.of_nat i)) arg) st = (Ok p, st1) /\
       vec_at st1 this cap (take i xs ++ v :: drop i xs) /\
       run (Vector.Erase this p) st1 = (Ok q, st2) /\
       vec_at st2 this cap xs) /\
  (let st := (run Scenario.int_123 empty_state).2 in
   vec_at st 0%nat 4 [1; 2; 3] /\
   (exists p st1 q st2,
      run (Scenario.int_insert 1 99) st = (Ok p, st1) /\
      vec_at st1 0%nat 4 [1; 99; 2; 3] /\
      run (Scenario.int_erase 1) st1 = (Ok q, st2) /\
      vec_at st2 0%nat 4 [1; 2; 3]) /\
   (run (Scenario.int_insert 3 99) st).1 = UB) /\
  (exists st p st1 q st2,
     run Scenario.int_from_list Scenario.int_list_array = (Ok tt, st) /\
     vec_at st 0%nat 3 [1; 2; 3] /\
     run (Scenario.int_insert 1 99) st = (Ok p, st1) /\
     vec_at st1 0%nat 6 [1; 99; 2; 3] /\
     run (Scenario.int_erase 1) st1 = (Ok q, st2) /\
     vec_at st2 0%nat 6 [1; 2; 3]) /\
  (let st := (run Scenario.str_12 empty_state).2 in
   vec_at st 0%nat 4 [Scenario.s1; Scenario.s2] /\
   exists st',
     run Scenario.str_insert_at_end st = (UB, st') /\
     heap st' !! 0%nat = Some [Some Scenario.s1; Some []; Some Scenario.s2; None]).
Proof.
  split; [|split; [|split]].
  - intros T E A R st this a cap xs i arg v. apply insert_then_erase.
  - intros st.
    assert (vec_at st 0%nat 4 [1; 2; 3]) as Hv.
    { vec_at_block 0%nat. }
    split; [exact Hv|]. split; [|by vm_compute].
    eexists _, _, _, _. split; [vm_compute; reflexivity|]. split.
    { vec_at_block 0%nat. }
    split; [vm_compute; reflexivity|].
    vec_at_block 0%nat.
  - eexists _, _, _, _, _. split; [vm_compute; reflexivity|].
    split; [vec_at_block 1%nat|]. split; [vm_compute; reflexivity|].
    split; [vec_at_block 2%nat|]. split; [vm_compute; reflexivity|].
    vec_at_block 2%nat.
  - intros st. split.
    + vec_at_block 0%nat.
    + eexists. split; [vm_compute; reflexivity|]. by vm_compute.
Qed.

(** Claim C4 fails on the code.  Appends by [PushBack(const T&)],
    [PushBack(T&&)] and [EmplaceBack] to a default-constructed vector,
    with arguments that are not elements of the vector, behave as
    claimed: given memory, and elements whose relocation transfers
    their value, all succeed; the vector then holds the values in push
    order, its size is [k] and its capacity is [capacity_after k],
    which never decreases and grows to [max(1, size * 2)] exactly when
    [size == capacity]: 1, 2 and 4 after the first three appends.  But
    [PushBack] of a reference to an element of a full vector reads the
    element after the relocation: what is appended is a copy of what
    the relocation left in the old slot.
    [Vector<Str> v; v.PushBack(s1); v.PushBack(v[0]);] ends with [s1]
    and an empty string, not with [s1] twice. *)
Theorem C4_append_of_own_element :
  (forall (T : Type) (E : Elem T) (A : Allocator)
          (st : state T) (this : ref) (ops : list (append T)) (xs : list T),
     Forall2 (fun op x => append_value st op = Some x) ops xs ->
     Forall relocation_preserves xs ->
     (forall n, 0 < n <= 2 * Z.of_nat (length xs) -> can_allocate (n * sizeof) = true) ->
     2 * Z.of_nat (length xs) * sizeof < size_t_mod ->
     exists st',
       run (Vector.ctor_default this ;;; run_appends this ops) st = (Ok tt, st') /\
       vec_at st' this (capacity_after (length xs)) xs /\
       run (Vector.Size this) st' = (Ok (Z.of_nat (length ops)), st') /\
       run (Vector.Capacity this) st' = (Ok (capacity_after (length ops)), st') /\
       (forall c l, heap st !! c = Some l -> heap st' !! c = Some l)) /\
  (forall k,
     capacity_after k <= capacity_after (S k) /\
     capacity_after (S k)
     = if Z.of_nat k =? capacity_after k then Z.max 1 (Z.of_nat k * 2)
       else capacity_after k) /\
  (capacity_after 1 = 1 /\ capacity_after 2 = 2 /\ capacity_after 3 = 4) /\
  (forall (T : Type) (E : Elem T) (A : Allocator)
          (st : state T) (this : ref) (a : addr) (cap : Z) (xs zs rs : list T)
          (j : nat) (x r y : T),
     vec_at st this cap xs -> block_addr st this = Some a ->
     Z.of_nat (length xs) = cap -> xs !! j = Some x ->
     relocated xs zs rs -> rs !! j = Some r -> copy_ctor r = Some y ->
     grown cap cap * sizeof < size_t_mod -> can_allocate (grown cap cap * sizeof) = true ->
     object_at st (Ptr a (Z.of_nat j)) = Some x /\
     exists st',
       run (Vector.PushBack_ref this (Ptr a (Z.of_nat j))) st = (Ok tt, st') /\
       vec_at st' this (grown cap cap) (zs ++ [y])) /\
  (let st := (run (Vector.ctor_default 0%nat ;;;
                   Vector.PushBack (H:=str_elem) (H0:=unbounded) 0%nat Scenario.s1)
                  empty_state).2 in
   vec_at st 0%nat 1 [Scenario.s1] /\
   run (Vector.at_ 0%nat 0) st = (Ok (Ptr 0%nat 0), st) /\
   object_at st (Ptr 0%nat 0) = Some Scenario.s1 /\
   @copy_ctor _ str_elem Scenario.s1 = Some Scenario.s1 /\
   exists st',
     run Scenario.push_own_first empty_state = (Ok tt, st') /\
     run (Vector.PushBack_ref (H:=str_elem) (H0:=unbounded) 0%nat (Ptr 0%nat 0)) st
     = (Ok tt, st') /\
     vec_at st' 0%nat 2 [Scenario.s1; []] /\
     elements st' 0%nat = Some [Scenario.s1; []]).
Proof.
  split; [|split; [|split; [|split]]].
  - intros T E A st this ops xs. apply appends_from_default.
  - intros k. rewrite capacity_after_S, grown_max by lia.
    pose proof (capacity_after_ge k).
    split; [|done]. destruct (Z.eqb_spec (Z.of_nat k) (capacity_after k)); lia.
  - done.
  - intros T E A st this a cap xs zs rs j x r y Hvec Hblock Heq Hx Hrel Hr Hy Hlt Hcan.
    destruct (vec_at_block_addr _ _ _ _ _ Hvec Hblock) as (Hthis & Ha & Hle).
    split.
    + unfold object_at, slots_of. destruct (Z.ltb_spec (Z.of_nat j) 0); [lia|].
      rewrite Ha, Nat2Z.id. by rewrite (block_of_lookup _ _ _ _ Hx).
    + destruct (PushBack_ref_full st this a cap xs zs rs a _ j r y Hvec Hblock Heq Hrel
                  (lookup_insert_eq _ _ _) (block_of_lookup _ _ _ _ Hr) Hy Hlt Hcan)
        as (st' & Hrun & Hv & _).
      by exists st'.
  - intros st. split; [vec_at_block 0%nat|]. do 3 (split; [vm_compute; reflexivity|]).
    eexists. split; [vm_compute; reflexivity|]. split; [vm_compute; reflexivity|].
    split; [vec_at_block 1%nat|vm_compute; reflexivity].
Qed.

(** Claim C4 at [Vector<Str>].  Beside a full vector holding
    [{s1, s2}], a second vector receives a reference to [s2] in the
    first, a copy of [s3], the moved [s1] and an in-place [s2]: it
    holds them in that order with capacity 4, and the first vector's
    block is untouched.  [v.PushBack(v[0])] on the full vector
    [{s1, s2}] appends an empty string. *)
Lemma C4_witness :
  let st := (run Scenario.str_full empty_state).2 in
  (exists st',
     run (Vector.ctor_default 1%nat ;;;
          run_appends (H:=str_elem) (H0:=unbounded) 1%nat
            [PushBackRef (Ptr 1%nat 1); PushBackCopy Scenario.s3;
             PushBackMove Scenario.s1; EmplaceBackArgs (InitArgs (Some Scenario.s2))])
         st = (Ok tt, st') /\
     vec_at st' 1%nat 4 [Scenario.s2; Scenario.s3; Scenario.s1; Scenario.s2] /\
     run (Vector.Size 1%nat) st' = (Ok 4, st') /\
     run (Vector.Capacity 1%nat) st' = (Ok 4, st') /\
     heap st' !! 1%nat = Some [Some Scenario.s1; Some Scenario.s2]) /\
  (object_at st (Ptr 1%nat 0) = Some Scenario.s1 /\
   exists st',
     run (Vector.PushBack_ref (H:=str_elem) (H0:=unbounded) 0%nat (Ptr 1%nat 0)) st
     = (Ok tt, st') /\
     vec_at st' 0%nat 4 [Scenario.s1; Scenario.s2; []]).
Proof.
  intros st.
  destruct C4_append_of_own_element as (Hseq & _ & _ & Halias & _).
  split.
  - destruct (Hseq Str str_elem unbounded st 1%nat
                [PushBackRef (Ptr 1%nat 1); PushBackCopy Scenario.s3;
                 PushBackMove Scenario.s1; EmplaceBackArgs (InitArgs (Some Scenario.s2))]
                [Scenario.s2; Scenario.s3; Scenario.s1; Scenario.s2])
      as (st' & Hrun & Hv & Hsize & Hcap & Hkeep).
    + repeat (constructor; [vm_compute; reflexivity|]). constructor.
    + repeat (constructor; [vm_compute; eexists; reflexivity|]). constructor.
    + reflexivity.
    + by vm_compute.
    + exists st'. split; [exact Hrun|]. split; [exact Hv|].
      split; [exact Hsize|]. split; [exact Hcap|].
      apply Hkeep. vm_compute. reflexivity.
  - assert (vec_at st 0%nat 2 [Scenario.s1; Scenario.s2]) as Hf by vec_at_block 1%nat.
    destruct (Halias Str str_elem unbounded st 0%nat 1%nat 2
                [Scenario.s1; Scenario.s2] [Scenario.s1; Scenario.s2] [[]; []]
                0%nat Scenario.s1 [] [] Hf) as (Hobj & st' & Hrun & Hv').
    + vm_compute. reflexivity.
    + reflexivity.
    + reflexivity.
    + exists [(Scenario.s1, []); (Scenario.s2, [])]. repeat constructor.
    + reflexivity.
    + reflexivity.
    + by vm_compute.
    + reflexivity.
    + split; [exact Hobj|]. exists st'. split; [exact Hrun|exact Hv'].
Defined.

(** Claim C5.  [FillNewData] relocates by move construction exactly
    when the element type is nothrow-move-constructible or not
    copy-constructible, and by copy construction otherwise.  The
    constructor from a list makes the same test, but for a
    nothrow-move-constructible copyable type its elements are copied,
    not moved: the list's array is unchanged and only copy
    constructions are recorded. *)
Theorem C5_list_constructor_copies :
  (forall (T : Type) (E : Elem T) (A : Allocator)
          (st : state T) (this : ref) (a b : addr) (cap capb size : Z)
          (xs zs rs : list T) (spre spost pre post : list (option T)),
     objs st !! this = Some (mkVector (mkRawMemory (Ptr a 0) cap) size) ->
     heap st !! a = Some (spre ++ (Some <$> xs) ++ spost) ->
     heap st !! b = Some (pre ++ replicate (length xs) None ++ post) ->
     a <> b ->
     relocated xs zs rs ->
     run (Vector.FillNewData this (mkRawMemory (Ptr b 0) capb)
            (Z.of_nat (length spre)) (Z.of_nat (length pre)) (Z.of_nat (length xs))) st
     = (Ok tt,
        mkState (<[b := pre ++ (Some <$> zs) ++ post]>
                   (<[a := spre ++ (Some <$> rs) ++ spost]> (heap st)))
                (objs st)
                (trace st ++
                   if is_nothrow_move_constructible || negb is_copy_constructible
                   then EvMoveCtor <$> xs else EvCopyCtor <$> xs))) /\
  @is_nothrow_move_constructible _ str_elem = true /\
  exists st',
    run Scenario.str_from_list Scenario.list_array = (Ok tt, st') /\
    vec_at st' 0%nat 2 [Scenario.s1; Scenario.s2] /\
    heap st' !! 0%nat = Some [Some Scenario.s1; Some Scenario.s2] /\
    trace st' = [EvNew 1%nat 64; EvCopyCtor Scenario.s1; EvCopyCtor Scenario.s2].
Proof.
  split; [|split; [reflexivity|]].
  - intros T E A st this a b cap capb size xs zs rs spre spost pre post Hobj Ha Hb Hab Hrel.
    exact (run_FillNewData st this a b cap capb size xs zs rs spre spost pre post
             Hobj Ha Hb Hab Hrel).
  - eexists. split; [vm_compute; reflexivity|]. split; [|by vm_compute].
    vec_at_block 1%nat.
Qed.

(** Claim C6.  Copy assignment from a different vector holding [ys]
    ends with this vector holding [ys], so with the source's size, and
    leaves the source as it was.  If [ys] does not fit the capacity, a
    fresh copy is built ([EvNew], one [EvCopyCtor] per element) and
    swapped in, the old elements are destroyed and their block
    released, and the capacity becomes the length of [ys]; otherwise
    the storage is kept, the common prefix is copy-assigned, and the
    rest of [ys] is copy-constructed or the rest of the old elements
    destroyed ([assign_events]). *)
Theorem C6_copy_assignment {T : Type} `{Elem T} `{Allocator} `{!Regular T}
    (st : state T) (this rhs : ref) (cap rcap : Z) (xs ys : list T) :
  this <> rhs ->
  vec_at st this cap xs -> vec_at st rhs rcap ys ->
  (forall a, block_addr st this = Some a -> block_addr st rhs <> Some a) ->
  (cap < Z.of_nat (length ys) ->
   Z.of_nat (length ys) * sizeof < size_t_mod /\
   can_allocate (Z.of_nat (length ys) * sizeof) = true) ->
  exists st',
    run (Vector.operator_assign this rhs) st = (Ok tt, st') /\
    vec_at st' this (if cap <? Z.of_nat (length ys) then Z.of_nat (length ys) else cap) ys /\
    vec_at st' rhs rcap ys /\
    run (Vector.Size this) st' = (Ok (Z.of_nat (length ys)), st') /\
    trace st' = trace st ++ assign_events st this cap xs ys.
Proof.
  intros Hne Hthis Hrhs Hdisj Halloc. unfold assign_events.
  assert (Hsize : forall st' c, vec_at st' this c ys ->
            run (Vector.Size this) st' = (Ok (Z.of_nat (length ys)), st')).
  { intros st' c (buf & Hobj & _). unfold Vector.Size.
    by rewrite (run_bind_ok _ _ _ _ _ (run_get_obj _ _ _ Hobj)). }
  destruct (Z.ltb_spec cap (Z.of_nat (length ys))) as [Hlt|Hge].
  - destruct (Halloc Hlt) as [Hb Hcan].
    destruct (operator_assign_realloc st this rhs cap rcap xs ys Hne Hthis Hrhs Hdisj
                Hlt Hb Hcan) as (st' & Hrun & Hv1 & Hv2 & Htr).
    exists st'. eauto 10.
  - destruct (operator_assign_reuse st this rhs cap rcap xs ys Hne Hthis Hrhs Hdisj Hge)
      as (st' & Hrun & Hv1 & Hv2 & Htr).
    exists st'. eauto 10.
Qed.

(** Claim C6 at two vectors of [int], in both directions: the shorter
    one assigned to the longer one reuses the storage, the longer one
    assigned to the shorter one builds a copy. *)
Lemma C6_witness :
  let st := Scenario.st2 in
  (exists st',
     run (Vector.operator_assign (H0:=unbounded) 0%nat 1%nat) st = (Ok tt, st') /\
     vec_at st' 0%nat 4 [7; 8] /\ vec_at st' 1%nat 2 [7; 8] /\
     trace st' = trace st ++ [EvCopyAssign 1 7; EvCopyAssign 2 8; EvDtor 3]) /\
  (exists st',
     run (Vector.operator_assign (H0:=unbounded) 1%nat 0%nat) st = (Ok tt, st') /\
     vec_at st' 1%nat 3 [1; 2; 3] /\ vec_at st' 0%nat 4 [1; 2; 3] /\
     trace st' = trace st ++ [EvNew 3%nat 12; EvCopyCtor 1; EvCopyCtor 2; EvCopyCtor 3;
                              EvDtor 7; EvDtor 8; EvDelete 2%nat]).
Proof.
  intros st.
  assert (vec_at st 1%nat 2 [7; 8]) as H1.
  { vec_at_block 2%nat. }
  assert (vec_at st 0%nat 4 [1; 2; 3]) as H0.
  { vec_at_block 0%nat. }
  split.
  - destruct (@C6_copy_assignment Z int_elem unbounded int_regular st 0%nat 1%nat 4 2
                [1; 2; 3] [7; 8] ltac:(lia) H0 H1) as (st' & Hrun & Hv1 & Hv2 & _ & Htr).
    + intros a. vm_compute. intros [= <-]. discriminate.
    + cbn. lia.
    + exists st'. repeat split; [exact Hrun|exact Hv1|exact Hv2|].
      rewrite Htr. vm_compute. reflexivity.
  - destruct (@C6_copy_assignment Z int_elem unbounded int_regular st 1%nat 0%nat 2 4
                [7; 8] [1; 2; 3] ltac:(lia) H1 H0) as (st' & Hrun & Hv1 & Hv2 & _ & Htr).
    + intros a. vm_compute. intros [= <-]. discriminate.
    + intros _. split; [by vm_compute|reflexivity].
    + exists st'. repeat split; [exact Hrun|exact Hv1|exact Hv2|].
      rewrite Htr. vm_compute. reflexivity.
Defined.

(** Claim C7 as stated fails: [Reserve(2^62 + 1)] on a
    default-constructed [Vector<int>] succeeds and reports the
    capacity [2^62 + 1], but the byte size has overflowed and the block
    behind it has room for one element: the storage acquired is not
    storage for [n] slots. *)
Lemma C7_Reserve_overflow :
  let n := 4611686018427387905 in
  let st := (run (Vector.ctor_default (T:=Z) 0%nat) empty_state).2 in
  n = 2 ^ 62 + 1 /\
  vec_at st 0%nat 0 [] /\
  0 < n < size_t_mod /\ size_t_mod <= n * sizeof (T:=Z) /\
  exists st',
    run (Vector.Reserve (H:=int_elem) (H0:=bounded 1024) 0%nat n) st = (Ok tt, st') /\
    run (Vector.Capacity 0%nat) st' = (Ok n, st') /\
    objs st' !! 0%nat = Some (mkVector (mkRawMemory (Ptr 0%nat 0) n) 0) /\
    heap st' !! 0%nat = Some [None] /\
    ~ vec_at st' 0%nat n [].
Proof.
  intros n st. split; [reflexivity|]. split.
  { exists nullptr. vm_compute. repeat split; first [reflexivity | intros; discriminate]. }
  split; [by vm_compute|]. split; [by vm_compute|].
  set (st' := (run (Vector.Reserve (H:=int_elem) (H0:=bounded 1024) 0%nat n) st).2).
  assert (objs st' !! 0%nat = Some (mkVector (mkRawMemory (Ptr 0%nat 0) n) 0)) as Ho
    by (vm_compute; reflexivity).
  assert (heap st' !! 0%nat = Some [None]) as Hh by (vm_compute; reflexivity).
  exists st'. split; [vm_compute; reflexivity|]. split; [vm_compute; reflexivity|].
  split; [exact Ho|]. split; [exact Hh|].
  intros Hvec.
  assert (block_addr st' 0%nat = Some 0%nat) as Hb by (vm_compute; reflexivity).
  pose proof (vec_at_block_length _ _ _ _ _ _ Hvec Hb Hh) as Hlen.
  change (1 = n) in Hlen. subst n. discriminate Hlen.
Qed.

(** Claim C7, amended with the precondition that [n * sizeof(T)] does
    not overflow.  [Reserve(n)] with [n <= capacity] changes nothing.
    With [n > capacity] it asks for a block of [n * sizeof(T)] bytes.
    If the allocator refuses, [std::bad_alloc] propagates and nothing
    has changed.  Otherwise the elements are relocated in their order
    into the fresh block, the old objects are destroyed and the old
    block is released; the vector has capacity [n], no other vector
    and no other block changes, and for a regular type the elements
    are the same.  If relocation copies and the copy constructor of
    some element throws, the copies made so far are destroyed (front
    to back, as [std::uninitialized_copy_n] of libstdc++ does), the new
    block is released, the exception propagates and heap and vector are
    what they were. *)
Theorem C7_Reserve_strong_guarantee {T : Type} `{Elem T} `{Allocator}
    (st : state T) (this : ref) (cap : Z) (xs : list T) (n : Z) :
  vec_at st this cap xs ->
  (n <= cap -> run (Vector.Reserve this n) st = (Ok tt, st)) /\
  (cap < n -> can_allocate (wrap (n * sizeof)) = false ->
   run (Vector.Reserve this n) st = (Throw bad_alloc, st)) /\
  (cap < n -> n * sizeof < size_t_mod -> can_allocate (n * sizeof) = true ->
   (forall zs rs, relocated xs zs rs ->
      exists st',
        run (Vector.Reserve this n) st = (Ok tt, st') /\
        vec_at st' this n zs /\
        heap st !! fresh (dom (heap st)) = None /\
        block_addr st' this = Some (fresh (dom (heap st))) /\
        (forall a, block_addr st this = Some a -> heap st' !! a = None) /\
        trace st' = trace st
          ++ [EvNew (fresh (dom (heap st))) (n * sizeof)]
          ++ relocation_events xs ++ (EvDtor <$> rs)
          ++ match block_addr st this with Some a => [EvDelete a] | None => [] end /\
        (forall r, r <> this -> objs st' !! r = objs st !! r) /\
        (forall c, block_addr st this <> Some c -> heap st !! c <> None ->
                   heap st' !! c = heap st !! c)) /\
   (Regular T ->
      exists st', run (Vector.Reserve this n) st = (Ok tt, st') /\ vec_at st' this n xs) /\
   (relocation_moves = false -> Exists (fun x => copy_ctor x = None) xs ->
      exists ys y ys2 zs,
        xs = ys ++ y :: ys2 /\
        Forall2 (fun y z => copy_ctor y = Some z) ys zs /\ copy_ctor y = None /\
        run (Vector.Reserve this n) st
        = (Throw elem_exn,
           mkState (heap st) (objs st)
             (trace st ++ [EvNew (fresh (dom (heap st))) (n * sizeof)]
                ++ (EvCopyCtor <$> ys) ++ (EvDtor <$> zs)
                ++ [EvDelete (fresh (dom (heap st)))])))).
Proof.
  intros Hvec. split; [|split].
  - intros Hn. destruct Hvec as (buf & Hobj & _). by apply (Reserve_noop st this _ n Hobj).
  - intros Hcap Hcan. destruct Hvec as (buf & Hobj & [Hle _]).
    apply (Reserve_bad_alloc st this _ n Hobj); cbn in *; [lia..|done].
  - intros Hcap Hlt Hcan. repeat split.
    + intros zs rs Hrel.
      destruct (Reserve_grows_trace st this cap xs zs rs n Hvec Hcap Hlt Hcan Hrel)
        as (st' & Hrun & Hv & Hb & Hold & Htr & Hobjs & Hheap).
      exists st'. pose proof (fresh_block st). done.
    + intros Hreg. destruct (relocated_regular xs) as [rs Hrel].
      destruct (Reserve_grows st this cap xs xs rs n Hvec Hcap Hlt Hcan Hrel)
        as (st' & Hrun & Hv & _). eauto.
    + intros Hmv Hex.
      destruct (first_failure xs Hex) as (ys & y & ys2 & zs & -> & Hall & Hy).
      exists ys, y, ys2, zs. do 3 (split; [done|]).
      by apply (Reserve_copy_throws st this cap n ys y ys2 zs).
Qed.

(** Claim C7 at a full [Vector<Fragile>] whose third element cannot be
    copied: [Reserve(1)] is a no-op, and [Reserve(6)] throws after two
    copies, which are destroyed front to back, leaving heap and vector
    unchanged.  And at two vectors of [int]: [Reserve(8)] moves 1, 2, 3
    to a fresh block, destroys the old objects, releases the old block
    and leaves the other vector alone. *)
Lemma C7_witness :
  let st := (run Scenario.fragile_third_bad empty_state).2 in
  (vec_at st 0%nat 3 [Scenario.b_ok; Scenario.c_new; Scenario.a_bad] /\
   run (Vector.Reserve (H:=fragile_elem) (H0:=unbounded) 0%nat 1) st = (Ok tt, st) /\
   run (Vector.Reserve (H:=fragile_elem) (H0:=unbounded) 0%nat 6) st
   = (Throw elem_exn,
      mkState (heap st) (objs st)
        (trace st ++ [EvNew 1%nat 96; EvCopyCtor Scenario.b_ok; EvCopyCtor Scenario.c_new;
                      EvDtor Scenario.b_ok; EvDtor Scenario.c_new; EvDelete 1%nat]))) /\
  (vec_at Scenario.st2 0%nat 4 [1; 2; 3] /\
   exists st',
     run (Vector.Reserve (H:=int_elem) (H0:=unbounded) 0%nat 8) Scenario.st2 = (Ok tt, st') /\
     vec_at st' 0%nat 8 [1; 2; 3] /\
     heap st' !! 0%nat = None /\
     trace st' = trace Scenario.st2
       ++ [EvNew 3%nat 32; EvMoveCtor 1; EvMoveCtor 2; EvMoveCtor 3;
           EvDtor 1; EvDtor 2; EvDtor 3; EvDelete 0%nat] /\
     objs st' !! 1%nat = objs Scenario.st2 !! 1%nat /\
     heap st' !! 2%nat = heap Scenario.st2 !! 2%nat).
Proof.
  intros st. split.
  - assert (vec_at st 0%nat 3 [Scenario.b_ok; Scenario.c_new; Scenario.a_bad]) as Hv.
    { vec_at_block 0%nat. }
    split; [exact Hv|]. split.
    + destruct (@C7_Reserve_strong_guarantee Fragile fragile_elem unbounded st 0%nat 3
                  [Scenario.b_ok; Scenario.c_new; Scenario.a_bad] 1 Hv) as (Hnoop & _).
      apply Hnoop. lia.
    + destruct (@C7_Reserve_strong_guarantee Fragile fragile_elem unbounded st 0%nat 3
                  [Scenario.b_ok; Scenario.c_new; Scenario.a_bad] 6 Hv) as (_ & _ & Hgrow).
      destruct (Hgrow ltac:(lia) ltac:(by vm_compute) eq_refl) as (_ & _ & Hthrow).
      destruct Hthrow as (ys & y & ys2 & zs & Hxs & Hall & Hy & Hrun);
        [reflexivity|do 2 apply Exists_cons_tl; by apply Exists_cons_hd|].
      destruct ys as [|y1 [|y2 [|y3 ys]]].
      * injection Hxs as <- _. discriminate Hy.
      * injection Hxs as _ <- _. discriminate Hy.
      * injection Hxs as <- <- _ _.
        apply Forall2_cons_inv_l in Hall as (z1 & zs1 & Hz1 & Hall & ->).
        apply Forall2_cons_inv_l in Hall as (z2 & zs2 & Hz2 & Hall & ->).
        apply Forall2_nil_inv_l in Hall as ->.
        injection Hz1 as <-. injection Hz2 as <-.
        rewrite Hrun. vm_compute. reflexivity.
      * injection Hxs as _ _ _ Hnil. by destruct ys.
  - assert (vec_at Scenario.st2 0%nat 4 [1; 2; 3]) as Hv by vec_at_block 0%nat.
    split; [exact Hv|].
    destruct (@C7_Reserve_strong_guarantee Z int_elem unbounded Scenario.st2 0%nat 4
                [1; 2; 3] 8 Hv) as (_ & _ & Hgrow).
    destruct (Hgrow ltac:(lia) ltac:(by vm_compute) eq_refl) as (Hok & _ & _).
    destruct (Hok [1; 2; 3] [1; 2; 3])
      as (st' & Hrun & Hv' & _ & _ & Hold & Htr & Hobjs & Hheap).
    { exists [(1, 1); (2, 2); (3, 3)]. repeat constructor. }
    exists st'. split; [exact Hrun|]. split; [exact Hv'|].
    split; [apply Hold; vm_compute; reflexivity|].
    split; [rewrite Htr; vm_compute; reflexivity|].
    split; [apply Hobjs; discriminate|].
    apply Hheap; vm_compute; [intros [=]|discriminate].
Defined.

(** Claim C8.  Move construction and move assignment transfer the
    storage: afterwards the destination holds the source's elements
    [ys] in their order with the source's capacity, the source has size
    0 and no storage, and no element is copied or destroyed (move
    construction leaves heap and trace untouched; move assignment only
    records the release of the destination's old block). *)
Theorem C8_move_transfers_storage {T : Type} `{Elem T} `{Allocator}
    (st : state T) (this other : ref) (cap ocap : Z) (xs ys : list T) :
  this <> other ->
  vec_at st other ocap ys ->
  (exists st',
     run (Vector.ctor_move this other) st = (Ok tt, st') /\
     vec_at st' this ocap ys /\ vec_at st' other 0 [] /\
     heap st' = heap st /\ trace st' = trace st) /\
  (vec_at st this cap xs ->
   (forall a, block_addr st this = Some a -> block_addr st other <> Some a) ->
   exists st' evs,
     run (Vector.operator_assign_move this other) st = (Ok tt, st') /\
     vec_at st' this ocap ys /\ vec_at st' other 0 [] /\
     trace st' = trace st ++ evs /\
     Forall (fun e => copies_or_destroys e = false) evs).
Proof.
  intros Hne Hother. split.
  - by apply ctor_move_spec.
  - intros Hthis Hdisj.
    destruct (operator_assign_move_spec st this other cap ocap xs ys Hne Hthis Hother Hdisj)
      as (st' & Hrun & Hv1 & Hv2 & Htr).
    eexists st', _. repeat split; [done..|].
    destruct (block_addr st this); by repeat constructor.
Qed.

(** Claim C8 at two vectors of [int]: moving the second into a new
    vector, and move-assigning it to the first. *)
Lemma C8_witness :
  let st := Scenario.st2 in
  (0%nat <> 1%nat /\ vec_at st 1%nat 2 [7; 8]) /\
  (exists st',
     run (Vector.ctor_move 2%nat 1%nat) st = (Ok tt, st') /\
     vec_at st' 2%nat 2 [7; 8] /\ vec_at st' 1%nat 0 [] /\
     heap st' = heap st /\ trace st' = trace st) /\
  (exists st' evs,
     run (Vector.operator_assign_move 0%nat 1%nat) st = (Ok tt, st') /\
     vec_at st' 0%nat 2 [7; 8] /\ vec_at st' 1%nat 0 [] /\
     trace st' = trace st ++ evs /\
     Forall (fun e => copies_or_destroys e = false) evs).
Proof.
  intros st.
  assert (vec_at st 1%nat 2 [7; 8]) as H1.
  { vec_at_block 2%nat. }
  assert (vec_at st 0%nat 4 [1; 2; 3]) as H0.
  { vec_at_block 0%nat. }
  split; [split; [lia|exact H1]|]. split.
  - apply (@C8_move_transfers_storage Z int_elem unbounded st 2%nat 1%nat 0 2 [] [7; 8]
             ltac:(lia) H1).
  - apply (@C8_move_transfers_storage Z int_elem unbounded st 0%nat 1%nat 4 2 [1; 2; 3] [7; 8]
             ltac:(lia) H1); [exact H0|].
    intros a. vm_compute. intros [= <-]. discriminate.
Defined.

(** Claim C9.  For a regular element type, [Erase] and [PopBack] keep
    the invariant and the capacity, remove exactly the element at the
    position (the last one), keep the others in order and reduce the
    size by one.  The invariant is not preserved by every operation,
    however: after the [Emplace] of claim C1 has returned, no sequence
    of live elements fits the vector. *)
Theorem C9_insert_breaks_invariant :
  (forall (T : Type) (E : Elem T) (A : Allocator) (R : Regular T)
          (st : state T) (this : ref) (a : addr) (cap : Z) (xs : list T),
     vec_at st this cap xs -> block_addr st this = Some a ->
     (forall (i : nat) (x : T), xs !! i = Some x ->
        exists st' p,
          run (Vector.Erase this (Ptr a (Z.of_nat i))) st = (Ok p, st') /\
          vec_at st' this cap (take i xs ++ drop (S i) xs) /\
          run (Vector.Size this) st' = (Ok (Z.of_nat (length xs) - 1), st')) /\
     (forall (ys : list T) (x : T), xs = ys ++ [x] ->
        exists st',
          run (Vector.PopBack this) st = (Ok tt, st') /\
          vec_at st' this cap ys /\
          run (Vector.Size this) st' = (Ok (Z.of_nat (length xs) - 1), st'))) /\
  (let st := (run Scenario.fragile_full empty_state).2 in
   vec_at st 0%nat 2 [Scenario.a_bad; Scenario.b_ok] /\
   exists p st',
     run Scenario.fragile_emplace st = (Ok p, st') /\
     ~ exists cap xs, vec_at st' 0%nat cap xs).
Proof.
  split.
  - intros T E A R st this a cap xs Hvec Hblock.
    assert (Hsize : forall st' (ys : list T), vec_at st' this cap ys ->
              run (Vector.Size this) st' = (Ok (Z.of_nat (length ys)), st')).
    { intros st' ys (buf & Hobj & _). unfold Vector.Size.
      by rewrite (run_bind_ok _ _ _ _ _ (run_get_obj _ _ _ Hobj)). }
    split.
    + intros i x Hi.
      destruct (Erase_spec st this a cap xs i x Hvec Hblock Hi)
        as (st' & evs & r & Hrun & Hv & _).
      exists st', (Ptr a (Z.of_nat i)). split; [done|]. split; [done|].
      rewrite (Hsize _ _ Hv). do 2 f_equal.
      pose proof (lookup_lt_Some _ _ _ Hi).
      rewrite length_app, length_take, length_drop. lia.
    + intros ys x ->.
      destruct (PopBack_spec st this cap ys x Hvec) as (st' & Hrun & Hv & _).
      exists st'. split; [done|]. split; [done|].
      rewrite (Hsize _ _ Hv). do 2 f_equal. rewrite length_app. simpl. lia.
  - intros st. split.
    + vec_at_block 0%nat.
    + eexists _, _. split; [vm_compute; reflexivity|].
      intros (cap & xs & buf & Hobj & Hown).
      vm_compute in Hobj. injection Hobj as <- <- Hlen.
      destruct Hown as [_ [_ Hheap]]. vm_compute in Hheap.
      destruct xs as [|x1 [|x2 [|x3 [|x4 xs]]]]; discriminate.
Qed.

(** Claim C10.  Self-assignment is a no-op: copy-assigning a vector to
    itself and move-assigning it to itself both return normally and
    leave the whole state, hence the vector's size, capacity and
    elements, unchanged. *)
Theorem C10_self_assignment_noop {T : Type} `{Elem T} `{Allocator}
    (st : state T) (this : ref) :
  run (Vector.operator_assign this this) st = (Ok tt, st) /\
  run (Vector.operator_assign_move this this) st = (Ok tt, st).
Proof. apply self_assign_noop. Qed.

(** * Further properties of the code *)

(** Property X1.  The copy constructor [Vector(const Vector&)] builds a
    vector whose elements are the copies of the source's elements, in
    order, and whose capacity is the source's size, not the source's
    capacity.  An empty source causes no allocation.  The source and
    every other vector are left as they were, and the only element
    operations are one copy construction per element. *)
Theorem X1_copy_ctor_tight_capacity {T : Type} `{Elem T} `{Allocator}
    (st : state T) (this other : ref) (rcap : Z) (ys zs : list T) :
  vec_at st other rcap ys -> this <> other ->
  Forall2 (fun y z => copy_ctor y = Some z) ys zs ->
  (ys <> [] -> Z.of_nat (length ys) * sizeof < size_t_mod /\
               can_allocate (Z.of_nat (length ys) * sizeof) = true) ->
  exists st',
    run (Vector.ctor_copy this other) st = (Ok tt, st') /\
    vec_at st' this (Z.of_nat (length ys)) zs /\
    vec_at st' other rcap ys /\
    (forall r, r <> this -> objs st' !! r = objs st !! r) /\
    trace st' = trace st
      ++ match ys with
         | [] => []
         | _ => [EvNew (fresh (dom (heap st))) (Z.of_nat (length ys) * sizeof)]
         end
      ++ (EvCopyCtor <$> ys).
Proof. apply ctor_copy_vec_at. Qed.

(** Property X1 at the vector [{1, 2, 3}] with capacity 4: the copy has
    capacity 3. *)
Lemma X1_witness :
  let st := Scenario.st2 in
  exists st',
    run (Vector.ctor_copy (H0:=unbounded) 5%nat 0%nat) st = (Ok tt, st') /\
    vec_at st' 5%nat 3 [1; 2; 3] /\ vec_at st' 0%nat 4 [1; 2; 3] /\
    trace st' = trace st ++ [EvNew 3%nat 12; EvCopyCtor 1; EvCopyCtor 2; EvCopyCtor 3].
Proof.
  intros st.
  assert (vec_at st 0%nat 4 [1; 2; 3]) as H0 by vec_at_block 0%nat.
  destruct (@X1_copy_ctor_tight_capacity Z int_elem unbounded st 5%nat 0%nat 4
              [1; 2; 3] [1; 2; 3] H0 ltac:(lia))
    as (st' & Hrun & Hv1 & Hv2 & _ & Htr).
  - repeat constructor.
  - intros _. split; [by vm_compute|reflexivity].
  - exists st'. repeat split; [exact Hrun|exact Hv1|exact Hv2|].
    rewrite Htr. vm_compute. reflexivity.
Defined.

(** Property X2.  The copy constructor gives the strong guarantee: if
    copying an element throws, the copies made so far are destroyed
    (front to back, as [std::uninitialized_copy_n] of libstdc++ does;
    the standard leaves the order open), the new block is released,
    the exception propagates, and neither the heap nor any vector has
    changed; no object is created at [this]. *)
Theorem X2_copy_ctor_rolls_back {T : Type} `{Elem T} `{Allocator}
    (st : state T) (this other : ref) (rcap : Z) (ys : list T) (y : T) (ys2 zs : list T) :
  vec_at st other rcap (ys ++ y :: ys2) ->
  Forall2 (fun y z => copy_ctor y = Some z) ys zs -> copy_ctor y = None ->
  Z.of_nat (length (ys ++ y :: ys2)) * sizeof < size_t_mod ->
  can_allocate (Z.of_nat (length (ys ++ y :: ys2)) * sizeof) = true ->
  run (Vector.ctor_copy this other) st
  = (Throw elem_exn,
     mkState (heap st) (objs st)
       (trace st
          ++ [EvNew (fresh (dom (heap st))) (Z.of_nat (length (ys ++ y :: ys2)) * sizeof)]
          ++ (EvCopyCtor <$> ys) ++ (EvDtor <$> zs)
          ++ [EvDelete (fresh (dom (heap st)))])).
Proof. apply ctor_copy_throws. Qed.

(** Property X2 at a [Vector<Fragile>] whose third element cannot be
    copied: the copies of the first two are destroyed again, the first
    one first. *)
Lemma X2_witness :
  let st := (run Scenario.fragile_third_bad empty_state).2 in
  run (Vector.ctor_copy (H:=fragile_elem) (H0:=unbounded) 1%nat 0%nat) st
  = (Throw elem_exn,
     mkState (heap st) (objs st)
       (trace st ++ [EvNew 1%nat 48; EvCopyCtor Scenario.b_ok; EvCopyCtor Scenario.c_new;
                     EvDtor Scenario.b_ok; EvDtor Scenario.c_new; EvDelete 1%nat])).
Proof.
  intros st.
  assert (vec_at st 0%nat 3 ([Scenario.b_ok; Scenario.c_new] ++ Scenario.a_bad :: []))
    as Hv by vec_at_block 0%nat.
  rewrite (@X2_copy_ctor_rolls_back Fragile fragile_elem unbounded st 1%nat 0%nat 3
             [Scenario.b_ok; Scenario.c_new] Scenario.a_bad []
             [Scenario.b_ok; Scenario.c_new] Hv).
  - vm_compute. reflexivity.
  - repeat constructor.
  - reflexivity.
  - by vm_compute.
  - reflexivity.
Defined.

(** Property X3.  The destructor [~Vector()] destroys every element
    exactly once, front to back, then releases the block; the block
    and the object are gone and nothing else changes.  A vector that
    owns no storage is destroyed without any event. *)
Theorem X3_dtor_releases_everything {T : Type}
    (st : state T) (this : ref) (cap : Z) (xs : list T) :
  vec_at st this cap xs ->
  run (Vector.dtor this) st
  = (Ok tt,
     match block_addr st this with
     | Some a => mkState (delete a (heap st)) (delete this (objs st))
                         (trace st ++ (EvDtor <$> xs) ++ [EvDelete a])
     | None => mkState (heap st) (delete this (objs st)) (trace st)
     end).
Proof. apply dtor_spec. Qed.

(** Property X3 at the vector [{7, 8}], which owns block 2. *)
Lemma X3_witness :
  let st := Scenario.st2 in
  run (Vector.dtor 1%nat) st
  = (Ok tt, mkState (delete 2%nat (heap st)) (delete 1%nat (objs st))
                    (trace st ++ [EvDtor 7; EvDtor 8; EvDelete 2%nat])).
Proof.
  intros st.
  assert (vec_at st 1%nat 2 [7; 8]) as H1 by vec_at_block 2%nat.
  rewrite (@X3_dtor_releases_everything Z st 1%nat 2 [7; 8] H1).
  vm_compute. reflexivity.
Defined.

(** Property X4.  Copy-constructing a vector and destroying the copy
    leaves the heap and all vectors exactly as they were: every
    element copied is destroyed and the block allocated is released. *)
Theorem X4_copy_then_destroy {T : Type} `{Elem T} `{Allocator}
    (st : state T) (this other : ref) (rcap : Z) (ys zs : list T) :
  vec_at st other rcap ys -> objs st !! this = None ->
  Forall2 (fun y z => copy_ctor y = Some z) ys zs ->
  (ys <> [] -> Z.of_nat (length ys) * sizeof < size_t_mod /\
               can_allocate (Z.of_nat (length ys) * sizeof) = true) ->
  run (Vector.ctor_copy this other ;;; Vector.dtor this) st
  = (Ok tt,
     mkState (heap st) (objs st)
       (trace st ++
        match ys with
        | [] => []
        | _ => [EvNew (fresh (dom (heap st))) (Z.of_nat (length ys) * sizeof)]
                 ++ (EvCopyCtor <$> ys) ++ (EvDtor <$> zs)
                 ++ [EvDelete (fresh (dom (heap st)))]
        end)).
Proof. apply copy_then_destroy. Qed.

(** Property X4 at the vector [{7, 8}]. *)
Lemma X4_witness :
  let st := Scenario.st2 in
  run (Vector.ctor_copy (H0:=unbounded) 5%nat 1%nat ;;; Vector.dtor 5%nat) st
  = (Ok tt,
     mkState (heap st) (objs st)
       (trace st ++ [EvNew 3%nat 8; EvCopyCtor 7; EvCopyCtor 8; EvDtor 7; EvDtor 8;
                     EvDelete 3%nat])).
Proof.
  intros st.
  assert (vec_at st 1%nat 2 [7; 8]) as H1 by vec_at_block 2%nat.
  rewrite (@X4_copy_then_destroy Z int_elem unbounded st 5%nat 1%nat 2 [7; 8] [7; 8] H1).
  - vm_compute. reflexivity.
  - vm_compute. reflexivity.
  - repeat constructor.
  - intros _. split; [by vm_compute|reflexivity].
Defined.

(** Property X5.  [Swap] exchanges the contents of two different
    vectors: each ends with the other's elements, capacity and block.
    No element is touched: the heap and the trace are unchanged, and so
    is every other vector. *)
Theorem X5_Swap_exchanges {T : Type}
    (st : state T) (this other : ref) (c1 c2 : Z) (xs ys : list T) :
  this <> other -> vec_at st this c1 xs -> vec_at st other c2 ys ->
  exists st',
    run (Vector.Swap this other) st = (Ok tt, st') /\
    vec_at st' this c2 ys /\ vec_at st' other c1 xs /\
    block_addr st' this = block_addr st other /\
    block_addr st' other = block_addr st this /\
    heap st' = heap st /\ trace st' = trace st /\
    (forall r, r <> this -> r <> other -> objs st' !! r = objs st !! r).
Proof. apply Swap_spec. Qed.

(** Property X5 at the vectors [{1, 2, 3}] and [{7, 8}]. *)
Lemma X5_witness :
  let st := Scenario.st2 in
  exists st',
    run (Vector.Swap 0%nat 1%nat) st = (Ok tt, st') /\
    vec_at st' 0%nat 2 [7; 8] /\ vec_at st' 1%nat 4 [1; 2; 3] /\
    heap st' = heap st /\ trace st' = trace st.
Proof.
  intros st.
  assert (vec_at st 0%nat 4 [1; 2; 3]) as H0 by vec_at_block 0%nat.
  assert (vec_at st 1%nat 2 [7; 8]) as H1 by vec_at_block 2%nat.
  destruct (@X5_Swap_exchanges Z st 0%nat 1%nat 4 2 [1; 2; 3] [7; 8]
              ltac:(lia) H0 H1) as (st' & Hrun & Hv1 & Hv2 & _ & _ & Hh & Htr & _).
  exists st'. repeat split; assumption.
Defined.

(** Property X6.  [Swap] is an involution: swapping the same two
    vectors twice restores the state exactly.  This includes swapping a
    vector with itself, which alone already changes nothing. *)
Theorem X6_Swap_twice {T : Type}
    (st : state T) (this other : ref) (a b : Vector) :
  objs st !! this = Some a -> objs st !! other = Some b ->
  run (Vector.Swap this other ;;; Vector.Swap this other) st = (Ok tt, st) /\
  (this = other -> run (Vector.Swap this other) st = (Ok tt, st)).
Proof.
  intros Ha Hb. split.
  - by eapply Swap_twice.
  - intros <-. by eapply Swap_self.
Qed.

(** Property X6 at the vectors [{1, 2, 3}] and [{7, 8}]. *)
Lemma X6_witness :
  let st := Scenario.st2 in
  run (Vector.Swap 0%nat 1%nat ;;; Vector.Swap 0%nat 1%nat) st
  = (Ok tt, st) /\
  run (Vector.Swap 1%nat 1%nat) st = (Ok tt, st).
Proof.
  intros st. split.
  - eapply (@X6_Swap_twice Z st 0%nat 1%nat); vm_compute; reflexivity.
  - eapply (@X6_Swap_twice Z st 1%nat 1%nat); [vm_compute; reflexivity..|reflexivity].
Defined.

(** Property X7.  [Vector(size_t n)] builds [n] value-initialised
    elements in storage for exactly [n]; for [n = 0] nothing is
    allocated.  No existing block or vector changes. *)
Theorem X7_ctor_size_value_initialises {T : Type} `{Elem T} `{Allocator}
    (st : state T) (this : ref) (n : Z) (d : T) :
  value_ctor = Some d -> 0 <= n < size_t_mod ->
  (n <> 0 -> n * sizeof < size_t_mod /\ can_allocate (n * sizeof) = true) ->
  exists st',
    run (Vector.ctor_size this n) st = (Ok tt, st') /\
    vec_at st' this n (replicate (Z.to_nat n) d) /\
    (forall r, r <> this -> objs st' !! r = objs st !! r) /\
    (forall c l, heap st !! c = Some l -> heap st' !! c = Some l) /\
    trace st' = trace st
      ++ (if n =? 0 then [] else [EvNew (fresh (dom (heap st))) (n * sizeof)])
      ++ replicate (Z.to_nat n) (EvValueCtor d).
Proof. apply ctor_size_ok. Qed.

(** Property X7 for [Vector<int> v(3)] and [Vector<int> v(0)]. *)
Lemma X7_witness :
  (exists st',
     run (Vector.ctor_size (H:=int_elem) (H0:=unbounded) 0%nat 3) empty_state = (Ok tt, st') /\
     vec_at st' 0%nat 3 [0; 0; 0] /\
     trace st' = [EvNew 0%nat 12; EvValueCtor 0; EvValueCtor 0; EvValueCtor 0]) /\
  (exists st',
     run (Vector.ctor_size (H:=int_elem) (H0:=unbounded) 0%nat 0) empty_state = (Ok tt, st') /\
     vec_at st' 0%nat 0 [] /\ trace st' = []).
Proof.
  split.
  - destruct (@X7_ctor_size_value_initialises Z int_elem unbounded empty_state 0%nat 3 0
                eq_refl ltac:(by vm_compute))
      as (st' & Hrun & Hv & _ & _ & Htr).
    + intros _. split; [by vm_compute|reflexivity].
    + exists st'. split; [exact Hrun|]. split; [exact Hv|]. rewrite Htr. reflexivity.
  - destruct (@X7_ctor_size_value_initialises Z int_elem unbounded empty_state 0%nat 0 0
                eq_refl ltac:(by vm_compute))
      as (st' & Hrun & Hv & _ & _ & Htr).
    + intros Hne. by destruct Hne.
    + exists st'. split; [exact Hrun|]. split; [exact Hv|]. rewrite Htr. reflexivity.
Defined.

(** Property X8.  When the default constructor of the element type
    throws, [Vector(size_t n)] with [n > 0] releases the block it has
    just allocated and lets the exception propagate: the heap and the
    vectors are unchanged and no object exists at [this]. *)
Theorem X8_ctor_size_rolls_back {T : Type} `{Elem T} `{Allocator}
    (st : state T) (this : ref) (n : Z) :
  value_ctor = None -> 0 < n -> n * sizeof < size_t_mod -> can_allocate (n * sizeof) = true ->
  run (Vector.ctor_size this n) st
  = (Throw elem_exn,
     mkState (heap st) (objs st)
             (trace st ++ [EvNew (fresh (dom (heap st))) (n * sizeof);
                           EvDelete (fresh (dom (heap st)))])).
Proof. apply ctor_size_throws. Qed.

(** Property X8 for three elements of the class whose default
    constructor throws. *)
Lemma X8_witness :
  run (Vector.ctor_size (H:=picky_elem) (H0:=unbounded) 0%nat 3) empty_state
  = (Throw elem_exn, mkState ∅ ∅ [EvNew 0%nat 12; EvDelete 0%nat]).
Proof.
  rewrite (@X8_ctor_size_rolls_back Z picky_elem unbounded empty_state 0%nat 3 eq_refl).
  - reflexivity.
  - lia.
  - by vm_compute.
  - reflexivity.
Defined.

(** Property X9.  [Resize(n)] with [n <= size] keeps the first [n]
    elements, destroys the others front to back, and keeps the capacity
    and the block; no other vector changes.  [Resize(size)] changes
    nothing at all. *)
Theorem X9_Resize_shrinks {T : Type} `{Elem T} `{Allocator}
    (st : state T) (this : ref) (cap : Z) (xs : list T) (n : nat) :
  vec_at st this cap xs -> (n <= length xs)%nat ->
  exists st',
    run (Vector.Resize this (Z.of_nat n)) st = (Ok tt, st') /\
    vec_at st' this cap (take n xs) /\
    block_addr st' this = block_addr st this /\
    trace st' = trace st ++ (EvDtor <$> drop n xs) /\
    (forall r, r <> this -> objs st' !! r = objs st !! r) /\
    (n = length xs -> st' = st).
Proof. apply Resize_shrink. Qed.

(** Property X9 at the vector [{1, 2, 3}]: [Resize(1)] and
    [Resize(3)]. *)
Lemma X9_witness :
  let st := Scenario.st2 in
  (exists st',
     run (Vector.Resize (H:=int_elem) (H0:=unbounded) 0%nat 1) st = (Ok tt, st') /\
     vec_at st' 0%nat 4 [1] /\ trace st' = trace st ++ [EvDtor 2; EvDtor 3]) /\
  run (Vector.Resize (H:=int_elem) (H0:=unbounded) 0%nat 3) st = (Ok tt, st).
Proof.
  intros st.
  assert (vec_at st 0%nat 4 [1; 2; 3]) as H0 by vec_at_block 0%nat.
  split.
  - destruct (@X9_Resize_shrinks Z int_elem unbounded st 0%nat 4 [1; 2; 3] 1 H0
                ltac:(simpl; lia)) as (st' & Hrun & Hv & _ & Htr & _).
    exists st'. split; [exact Hrun|]. split; [exact Hv|exact Htr].
  - destruct (@X9_Resize_shrinks Z int_elem unbounded st 0%nat 4 [1; 2; 3] 3 H0
                ltac:(simpl; lia)) as (st' & Hrun & _ & _ & _ & _ & Hsame).
    rewrite (Hsame eq_refl) in Hrun. exact Hrun.
Defined.

(** Property X10.  [Resize(n)] with [n > size] appends [n - size]
    value-initialised elements.  Within the capacity the block and the
    capacity stay and nothing else happens; beyond the capacity the
    elements are relocated into storage for exactly [n] (the capacity
    is not doubled). *)
Theorem X10_Resize_grows {T : Type} `{Elem T} `{Allocator}
    (st : state T) (this : ref) (cap : Z) (xs : list T) (n : Z) (d : T) :
  vec_at st this cap xs -> Z.of_nat (length xs) < n -> value_ctor = Some d ->
  (n <= cap ->
   exists st',
     run (Vector.Resize this n) st = (Ok tt, st') /\
     vec_at st' this cap (xs ++ replicate (Z.to_nat n - length xs) d) /\
     block_addr st' this = block_addr st this /\
     trace st' = trace st ++ replicate (Z.to_nat n - length xs) (EvValueCtor d)) /\
  (cap < n -> n * sizeof < size_t_mod -> can_allocate (n * sizeof) = true ->
   forall zs rs, relocated xs zs rs ->
     exists st',
       run (Vector.Resize this n) st = (Ok tt, st') /\
       vec_at st' this n (zs ++ replicate (Z.to_nat n - length xs) d)).
Proof.
  intros Hvec Hn Hd. split.
  - intros Hle. by apply Resize_grow_in_place.
  - intros Hgt Hlt Hcan zs rs Hrel. by eapply Resize_grow_realloc.
Qed.

(** Property X10 at the vectors [{1, 2, 3}] (capacity 4) and [{7, 8}]
    (capacity 2): [Resize(4)] fills the free slot, [Resize(5)]
    reallocates to capacity 5. *)
Lemma X10_witness :
  let st := Scenario.st2 in
  (exists st',
     run (Vector.Resize (H:=int_elem) (H0:=unbounded) 0%nat 4) st = (Ok tt, st') /\
     vec_at st' 0%nat 4 [1; 2; 3; 0] /\ trace st' = trace st ++ [EvValueCtor 0]) /\
  (exists st',
     run (Vector.Resize (H:=int_elem) (H0:=unbounded) 1%nat 5) st = (Ok tt, st') /\
     vec_at st' 1%nat 5 [7; 8; 0; 0; 0]).
Proof.
  intros st.
  assert (vec_at st 0%nat 4 [1; 2; 3]) as H0 by vec_at_block 0%nat.
  assert (vec_at st 1%nat 2 [7; 8]) as H1 by vec_at_block 2%nat.
  split.
  - destruct (@X10_Resize_grows Z int_elem unbounded st 0%nat 4 [1; 2; 3] 4 0 H0
                ltac:(simpl; lia) eq_refl) as [Hin _].
    destruct (Hin ltac:(lia)) as (st' & Hrun & Hv & _ & Htr).
    exists st'. split; [exact Hrun|]. split; [exact Hv|exact Htr].
  - destruct (@X10_Resize_grows Z int_elem unbounded st 1%nat 2 [7; 8] 5 0 H1
                ltac:(simpl; lia) eq_refl) as [_ Hre].
    destruct (Hre ltac:(lia) ltac:(by vm_compute) eq_refl [7; 8] [7; 8])
      as (st' & Hrun & Hv).
    + exists [(7, 7); (8, 8)]. repeat constructor.
    + exists st'. split; [exact Hrun|exact Hv].
Defined.

(** Property X11.  When the default constructor throws, [Resize(n)]
    with [n > size] propagates the exception and the size stays.
    Within the capacity nothing has changed.  Beyond the capacity the
    reallocation has already happened: the vector is valid, with its
    elements relocated and capacity [n], so the failed call is visible
    in the capacity. *)
Theorem X11_Resize_failure_keeps_new_capacity {T : Type} `{Elem T} `{Allocator}
    (st : state T) (this : ref) (cap : Z) (xs zs rs : list T) (n : Z) :
  vec_at st this cap xs -> Z.of_nat (length xs) < n < size_t_mod ->
  value_ctor = None ->
  (cap < n -> n * sizeof < size_t_mod /\ can_allocate (n * sizeof) = true /\
              relocated xs zs rs) ->
  exists st',
    run (Vector.Resize this n) st = (Throw elem_exn, st') /\
    (n <= cap -> st' = st) /\
    (cap < n -> vec_at st' this n zs).
Proof. apply Resize_throws. Qed.

(** Property X11 at the vector [{5, 6}] with capacity 2: after the
    failed [Resize(3)] the capacity is 3. *)
Lemma X11_witness :
  let st := (run Scenario.picky_56 empty_state).2 in
  vec_at st 0%nat 2 [5; 6] /\
  exists st',
    run (Vector.Resize (H:=picky_elem) (H0:=unbounded) 0%nat 3) st = (Throw elem_exn, st') /\
    vec_at st' 0%nat 3 [5; 6].
Proof.
  intros st.
  assert (vec_at st 0%nat 2 [5; 6]) as H0 by vec_at_block 1%nat.
  split; [exact H0|].
  destruct (@X11_Resize_failure_keeps_new_capacity Z picky_elem unbounded st 0%nat 2
              [5; 6] [5; 6] [5; 6] 3 H0 ltac:(by vm_compute) eq_refl)
    as (st' & Hrun & _ & Hv).
  - intros _. split; [by vm_compute|]. split; [reflexivity|].
    exists [(5, 5); (6, 6)]. repeat constructor.
  - exists st'. split; [exact Hrun|]. apply Hv. lia.
Defined.

(** Property X12.  [Vector(std::initializer_list<T>)] builds, in
    storage for exactly the length of the list, the copies of the
    list's elements: whatever the traits of [T] say, each element is
    copy-constructed and the array behind the list is left as it
    was. *)
Theorem X12_ctor_list_copies_the_list {T : Type} `{Elem T} `{Allocator}
    (st : state T) (this : ref) (c : addr) (ys zs : list T) :
  heap st !! c = Some (Some <$> ys) -> ys <> [] ->
  Forall2 (fun y z => copy_ctor y = Some z) ys zs ->
  Z.of_nat (length ys) * sizeof < size_t_mod ->
  can_allocate (Z.of_nat (length ys) * sizeof) = true ->
  exists st',
    run (Vector.ctor_list this (mkList (Ptr c 0) (Z.of_nat (length ys)))) st = (Ok tt, st') /\
    vec_at st' this (Z.of_nat (length ys)) zs /\
    heap st' !! c = Some (Some <$> ys) /\
    trace st' = trace st
      ++ [EvNew (fresh (dom (heap st))) (Z.of_nat (length ys) * sizeof)]
      ++ (EvCopyCtor <$> ys).
Proof.
  intros Hc Hne Hcopy Hlt Hcan.
  rewrite (ctor_list_ok st this c ys zs Hc Hne Hcopy Hlt Hcan).
  pose proof (Forall2_copy_length _ _ Hcopy) as Hlen.
  pose proof (fresh_block st) as Hfresh. pose proof sizeof_pos as Hsz.
  eexists. split; [reflexivity|]. cbn [heap objs trace]. split; [|split; [|done]].
  - rewrite <- Hlen. eapply vec_at_intro; cbn [objs heap].
    + by rewrite lookup_insert_eq.
    + by rewrite lookup_insert_eq, block_of_full.
    + nia.
  - rewrite lookup_insert_ne by congruence. done.
Qed.

(** Property X12 for [Vector<Str> v{s1, s2}], [Str] having a
    [noexcept] move constructor. *)
Lemma X12_witness :
  let st := Scenario.list_array in
  exists st',
    run Scenario.str_from_list st = (Ok tt, st') /\
    vec_at st' 0%nat 2 [Scenario.s1; Scenario.s2] /\
    heap st' !! 0%nat = Some [Some Scenario.s1; Some Scenario.s2] /\
    trace st' = [EvNew 1%nat 64; EvCopyCtor Scenario.s1; EvCopyCtor Scenario.s2].
Proof.
  intros st.
  destruct (@X12_ctor_list_copies_the_list Str str_elem unbounded st 0%nat 0%nat
              [Scenario.s1; Scenario.s2] [Scenario.s1; Scenario.s2])
    as (st' & Hrun & Hv & Hc & Htr).
  - reflexivity.
  - discriminate.
  - repeat constructor.
  - by vm_compute.
  - reflexivity.
  - exists st'. split; [exact Hrun|]. split; [exact Hv|]. split; [exact Hc|].
    rewrite Htr. reflexivity.
Defined.

(** Property X13.  Element access is guarded by an assertion only;
    with assertions compiled out it is unchecked.  For [i < size],
    reading [v[i]] yields the [i]-th element and changes nothing; for
    every [i >= size] the read is undefined behaviour, whether the slot
    lies in the reserved part of the block or outside of it.  [Size]
    and [Capacity] return the length of the sequence and the capacity,
    and [end() - begin()] is the size. *)
Theorem X13_index_is_unchecked {T : Type}
    (st : state T) (this : ref) (cap : Z) (xs : list T) :
  vec_at st this cap xs ->
  (forall (i : nat) x, xs !! i = Some x ->
     run (let* p := Vector.at_ this (Z.of_nat i) in load p) st = (Ok x, st)) /\
  (forall i : nat, (length xs <= i)%nat ->
     run (let* p := Vector.at_ this (Z.of_nat i) in load p) st = (UB, st)) /\
  run (Vector.Size this) st = (Ok (Z.of_nat (length xs)), st) /\
  run (Vector.Capacity this) st = (Ok cap, st) /\
  (exists b e, run (Vector.begin this) st = (Ok b, st) /\
               run (Vector.end_ this) st = (Ok e, st) /\
               ptr_diff e b = Some (Z.of_nat (length xs))).
Proof.
  intros Hvec. split; [|split; [|split; [|split]]].
  - intros i x Hi. by eapply index_read.
  - intros i Hi. by eapply index_past_size.
  - destruct Hvec as (buf & Hthis & _). unfold Vector.Size.
    by rewrite (run_bind_ok _ _ _ _ _ (run_get_obj _ _ _ Hthis)).
  - destruct Hvec as (buf & Hthis & _). unfold Vector.Capacity.
    by rewrite (run_bind_ok _ _ _ _ _ (run_get_obj _ _ _ Hthis)).
  - destruct Hvec as (buf & Hthis & Hown).
    exists buf, (ptr_add buf (Z.of_nat (length xs))).
    rewrite (run_begin _ _ _ Hthis), (run_end _ _ _ Hthis). cbn [data_ buffer_ size_].
    split; [done|]. split; [done|].
    destruct buf as [|a off].
    + apply owns_null in Hown as [_ ->]. done.
    + cbn [ptr_add ptr_diff]. rewrite decide_True by done. f_equal. lia.
Qed.

(** Property X13 at the vector [{1, 2, 3}] with capacity 4: [v[1]] is
    2, [v[3]] is undefined. *)
Lemma X13_witness :
  let st := Scenario.st2 in
  run (let* p := Vector.at_ 0%nat 1 in load p) st = (Ok 2, st) /\
  run (let* p := Vector.at_ 0%nat 3 in load p) st = (UB, st) /\
  run (Vector.Size 0%nat) st = (Ok 3, st) /\
  run (Vector.Capacity 0%nat) st = (Ok 4, st).
Proof.
  intros st.
  assert (vec_at st 0%nat 4 [1; 2; 3]) as H0 by vec_at_block 0%nat.
  destruct (@X13_index_is_unchecked Z st 0%nat 4 [1; 2; 3] H0)
    as (Hin & Hout & Hsize & Hcap & _).
  split; [exact (Hin 1%nat 2 eq_refl)|].
  split; [apply (Hout 3%nat); simpl; lia|].
  split; [exact Hsize|exact Hcap].
Defined.

(** Property X14.  Removal is unchecked.  [PopBack] on an empty vector
    is undefined behaviour, and so is [Erase] at [end()] or at any
    position behind it, also on a vector that owns no storage.  The
    state in which the undefined behaviour occurs is the initial
    one. *)
Theorem X14_removal_is_unchecked {T : Type} `{Elem T}
    (st : state T) (this : ref) (cap : Z) (xs : list T) :
  vec_at st this cap xs ->
  (xs = [] -> run (Vector.PopBack this) st = (UB, st)) /\
  (forall a i, block_addr st this = Some a ->
     Z.of_nat (length xs) <= i < size_t_mod ->
     run (Vector.Erase this (Ptr a i)) st = (UB, st)) /\
  (block_addr st this = None -> run (Vector.Erase this nullptr) st = (UB, st)).
Proof.
  intros Hvec. split; [|split].
  - intros ->. by eapply PopBack_empty.
  - intros a i Hblock Hi. by eapply Erase_past_end.
  - intros Hblock. pose proof Hvec as Hvec'.
    destruct (vec_at_no_block _ _ _ _ Hvec Hblock) as (_ & -> & ->).
    by eapply Erase_null.
Qed.

(** Property X14 at an empty vector with capacity 4, at the vector
    [{1, 2, 3}], and at a default-constructed vector. *)
Lemma X14_witness :
  let st := (run Scenario.int_reserved empty_state).2 in
  let st1 := (run (Vector.ctor_default (T:=Z) 0%nat) empty_state).2 in
  run (Vector.PopBack 0%nat) st = (UB, st) /\
  run (Vector.Erase (H:=int_elem) 0%nat (Ptr 0%nat 3)) Scenario.st2 = (UB, Scenario.st2) /\
  run (Vector.Erase (H:=int_elem) 0%nat nullptr) st1 = (UB, st1).
Proof.
  intros st st1.
  assert (vec_at st 0%nat 4 []) as He by vec_at_block 0%nat.
  assert (vec_at Scenario.st2 0%nat 4 [1; 2; 3]) as H0 by vec_at_block 0%nat.
  assert (vec_at st1 0%nat 0 []) as Hd.
  { exists nullptr. vm_compute. repeat split; first [reflexivity | intros; discriminate]. }
  split; [|split].
  - destruct (@X14_removal_is_unchecked Z int_elem st 0%nat 4 [] He) as (Hpop & _).
    exact (Hpop eq_refl).
  - destruct (@X14_removal_is_unchecked Z int_elem Scenario.st2 0%nat 4 [1; 2; 3] H0)
      as (_ & Herase & _).
    apply Herase; [vm_compute; reflexivity|by vm_compute].
  - destruct (@X14_removal_is_unchecked Z int_elem st1 0%nat 0 [] Hd) as (_ & _ & Hnull).
    apply Hnull. vm_compute. reflexivity.
Defined.

(** Property X15.  Erasing the last element is [PopBack]: on a vector
    [xs ++ [x]], [Erase(end() - 1)] and [PopBack()] reach the same
    state, in which only [x] has been destroyed and no element has been
    moved; [Erase] returns the new [end()]. *)
Theorem X15_Erase_last_is_PopBack {T : Type} `{Elem T}
    (st : state T) (this : ref) (a : addr) (cap : Z) (xs : list T) (x : T) :
  vec_at st this cap (xs ++ [x]) -> block_addr st this = Some a ->
  exists st',
    run (Vector.Erase this (Ptr a (Z.of_nat (length xs)))) st
    = (Ok (Ptr a (Z.of_nat (length xs))), st') /\
    run (Vector.PopBack this) st = (Ok tt, st') /\
    vec_at st' this cap xs /\ block_addr st' this = Some a /\
    trace st' = trace st ++ [EvDtor x] /\
    run (Vector.end_ this) st' = (Ok (Ptr a (Z.of_nat (length xs))), st').
Proof.
  intros Hvec Hblock.
  destruct (vec_at_block_addr _ _ _ _ _ Hvec Hblock) as (Hthis & Ha & Hle).
  rewrite (Erase_last_state st this a cap xs x Hvec Hblock).
  rewrite (PopBack_state st this a cap xs x Hvec Hblock).
  eexists. split; [reflexivity|]. split; [reflexivity|].
  rewrite length_app in Hle. cbn [length] in Hle.
  match goal with
  | |- vec_at ?s _ _ _ /\ _ =>
      destruct (vec_at_intro s this a cap xs) as [Hv Hb]; cbn [heap objs]
  end.
  - by rewrite lookup_insert_eq.
  - by rewrite lookup_insert_eq.
  - lia.
  - split; [exact Hv|]. split; [exact Hb|]. split; [done|].
    erewrite run_end by (cbn [objs]; apply lookup_insert_eq).
    cbn [data_ buffer_ size_ ptr_add]. by rewrite Z.add_0_l.
Qed.

(** Property X15 at the vector [{1, 2, 3}]. *)
Lemma X15_witness :
  let st := Scenario.st2 in
  exists st',
    run (Vector.Erase (H:=int_elem) 0%nat (Ptr 0%nat 2)) st = (Ok (Ptr 0%nat 2), st') /\
    run (Vector.PopBack 0%nat) st = (Ok tt, st') /\
    vec_at st' 0%nat 4 [1; 2] /\ trace st' = trace st ++ [EvDtor 3].
Proof.
  intros st.
  assert (vec_at st 0%nat 4 ([1; 2] ++ [3])) as H0 by vec_at_block 0%nat.
  destruct (@X15_Erase_last_is_PopBack Z int_elem st 0%nat 0%nat 4 [1; 2] 3 H0)
    as (st' & He & Hp & Hv & _ & Htr & _).
  - vm_compute. reflexivity.
  - exists st'. split; [exact He|]. split; [exact Hp|]. split; [exact Hv|exact Htr].
Defined.

(** Property X16.  Appends that fit into the capacity never
    reallocate: the block stays where it is (pointers to the elements
    stay valid), nothing is allocated, relocated or destroyed, and the
    only events are the constructions of the new elements, in order.
    So after [Reserve(n)] the vector can take up to [n] elements
    without moving. *)
Theorem X16_appends_within_capacity_stay_put {T : Type} `{Elem T} `{Allocator}
    (st : state T) (this : ref) (a : addr) (cap : Z)
    (xs : list T) (args : list (init T)) (ys : list T) :
  Forall2 (fun i y => init_result i = Some y) args ys ->
  vec_at st this cap xs -> block_addr st this = Some a ->
  Z.of_nat (length xs + length ys) <= cap ->
  exists st',
    run (emplace_all this args) st = (Ok tt, st') /\
    vec_at st' this cap (xs ++ ys) /\ block_addr st' this = Some a /\
    trace st' = trace st ++ zip_with init_event args ys.
Proof. intros Hf. by apply emplace_all_in_place. Qed.

(** Property X16 for three appends after [Reserve(4)]. *)
Lemma X16_witness :
  let st := (run Scenario.int_reserved empty_state).2 in
  exists st',
    run (emplace_all (H:=int_elem) (H0:=unbounded) 0%nat [InitCopy 1; InitMove 2; InitCopy 3]) st
    = (Ok tt, st') /\
    vec_at st' 0%nat 4 [1; 2; 3] /\ block_addr st' 0%nat = Some 0%nat /\
    trace st' = trace st ++ [EvCopyCtor 1; EvMoveCtor 2; EvCopyCtor 3].
Proof.
  intros st.
  assert (vec_at st 0%nat 4 []) as He by vec_at_block 0%nat.
  destruct (@X16_appends_within_capacity_stay_put Z int_elem unbounded st 0%nat 0%nat 4 []
              [InitCopy 1; InitMove 2; InitCopy 3] [1; 2; 3])
    as (st' & Hrun & Hv & Hb & Htr).
  - repeat constructor.
  - exact He.
  - vm_compute. reflexivity.
  - simpl. lia.
  - exists st'. split; [exact Hrun|]. split; [exact Hv|]. split; [exact Hb|exact Htr].
Defined.

(** Property X17.  [EmplaceBack] when the constructor of the new
    element throws.  With spare capacity nothing has changed.  On a
    full vector the elements have already been relocated into the new
    block: that block is released without destroying them, and the
    vector is left holding what the relocation left behind, which for
    a type relocated by move are the moved-from objects.  So the strong
    guarantee holds only when relocation copies. *)
Theorem X17_EmplaceBack_failure {T : Type} `{Elem T} `{Allocator}
    (st : state T) (this : ref) (cap : Z) (xs : list T) (i : init T) :
  vec_at st this cap xs -> init_result i = None ->
  (Z.of_nat (length xs) < cap ->
   run (Vector.EmplaceBack this i) st = (Throw elem_exn, st)) /\
  (Z.of_nat (length xs) = cap ->
   grown cap cap * sizeof < size_t_mod -> can_allocate (grown cap cap * sizeof) = true ->
   forall zs rs, relocated xs zs rs ->
     exists st',
       run (Vector.EmplaceBack this i) st = (Throw elem_exn, st') /\
       vec_at st' this cap rs /\
       (relocation_moves = false -> rs = xs) /\
       objs st' = objs st /\
       heap st' !! fresh (dom (heap st)) = None /\
       trace st' = trace st
         ++ [EvNew (fresh (dom (heap st))) (grown cap cap * sizeof)]
         ++ relocation_events xs
         ++ [EvDelete (fresh (dom (heap st)))]).
Proof.
  intros Hvec Hi. split.
  - intros Hlt. by eapply EmplaceBack_throws_in_place.
  - intros Heq Hlt Hcan zs rs Hrel.
    destruct (EmplaceBack_throws_full st this cap xs zs rs i Hvec Heq Hi Hrel Hlt Hcan)
      as (st' & Hrun & Hv & Hobjs & Hfresh & Htr).
    exists st'. split; [exact Hrun|]. split; [exact Hv|].
    split; [|by split; [|split]].
    intros Hmv. unfold relocated in Hrel. rewrite Hmv in Hrel. by destruct Hrel.
Qed.

(** Property X17 at [Vector<Str>] holding [{s1, s2}]: with capacity 4
    the failed append changes nothing, with capacity 2 it leaves two
    empty strings. *)
Lemma X17_witness :
  let st := (run Scenario.str_12 empty_state).2 in
  let stf := (run Scenario.str_full empty_state).2 in
  run (Vector.EmplaceBack (H:=str_elem) (H0:=unbounded) 0%nat (InitArgs None)) st
  = (Throw elem_exn, st) /\
  exists st',
    run (Vector.EmplaceBack (H:=str_elem) (H0:=unbounded) 0%nat (InitArgs None)) stf
    = (Throw elem_exn, st') /\
    vec_at st' 0%nat 2 [[]; []] /\
    trace st' = trace stf ++ [EvNew 2%nat 128; EvMoveCtor Scenario.s1;
                              EvMoveCtor Scenario.s2; EvDelete 2%nat].
Proof.
  intros st stf.
  assert (vec_at st 0%nat 4 [Scenario.s1; Scenario.s2]) as Hv by vec_at_block 0%nat.
  assert (vec_at stf 0%nat 2 [Scenario.s1; Scenario.s2]) as Hf by vec_at_block 1%nat.
  split.
  - destruct (@X17_EmplaceBack_failure Str str_elem unbounded st 0%nat 4
                [Scenario.s1; Scenario.s2] (InitArgs None) Hv eq_refl) as [Hin _].
    apply Hin. simpl. lia.
  - destruct (@X17_EmplaceBack_failure Str str_elem unbounded stf 0%nat 2
                [Scenario.s1; Scenario.s2] (InitArgs None) Hf eq_refl) as [_ Hfull].
    destruct (Hfull eq_refl ltac:(by vm_compute) eq_refl
                [Scenario.s1; Scenario.s2] [[]; []])
      as (st' & Hrun & Hv' & _ & _ & _ & Htr).
    + exists [(Scenario.s1, []); (Scenario.s2, [])]. repeat constructor.
    + exists st'. split; [exact Hrun|]. split; [exact Hv'|].
      rewrite Htr. vm_compute. reflexivity.
Defined.

(** Property X18.  [Emplace] when the constructor of the new element
    throws gives the strong guarantee on both paths: the new element
    is constructed before any existing element is touched, so the heap
    and the vector are unchanged; on a full vector the block that was
    allocated is released again. *)
Theorem X18_Emplace_failure_changes_nothing {T : Type} `{Elem T} `{Allocator}
    (st : state T) (this : ref) (a : addr) (cap : Z) (xs : list T) (i : Z) (arg : init T) :
  vec_at st this cap xs -> block_addr st this = Some a -> init_result arg = None ->
  (Z.of_nat (length xs) = cap ->
   grown cap cap * sizeof < size_t_mod /\ can_allocate (grown cap cap * sizeof) = true) ->
  run (Vector.Emplace this (Ptr a i) arg) st
  = (Throw elem_exn,
     if Z.of_nat (length xs) =? cap
     then mkState (heap st) (objs st)
            (trace st ++ [EvNew (fresh (dom (heap st))) (grown cap cap * sizeof);
                          EvDelete (fresh (dom (heap st)))])
     else st).
Proof. apply Emplace_throws. Qed.

(** Property X18 at the full [Vector<Str>] holding [{s1, s2}]. *)
Lemma X18_witness :
  let st := (run Scenario.str_full empty_state).2 in
  run (Vector.Emplace (H:=str_elem) (H0:=unbounded) 0%nat (Ptr 1%nat 1) (InitArgs None)) st
  = (Throw elem_exn,
     mkState (heap st) (objs st) (trace st ++ [EvNew 2%nat 128; EvDelete 2%nat])).
Proof.
  intros st.
  assert (vec_at st 0%nat 2 [Scenario.s1; Scenario.s2]) as Hf by vec_at_block 1%nat.
  rewrite (@X18_Emplace_failure_changes_nothing Str str_elem unbounded st 0%nat 1%nat 2
             [Scenario.s1; Scenario.s2] 1 (InitArgs None) Hf).
  - vm_compute. reflexivity.
  - vm_compute. reflexivity.
  - reflexivity.
  - intros _. split; [by vm_compute|reflexivity].
Defined.

(** Property X19.  An append into spare capacity is undone by
    [PopBack]: the heap and all vectors are exactly what they were, and
    the new element has been constructed and destroyed once. *)
Theorem X19_append_then_PopBack {T : Type} `{Elem T} `{Allocator}
    (st : state T) (this : ref) (cap : Z) (xs : list T) (i : init T) (x : T) :
  vec_at st this cap xs -> Z.of_nat (length xs) < cap -> init_result i = Some x ->
  run (Vector.EmplaceBack this i ;;; Vector.PopBack this) st
  = (Ok tt, mkState (heap st) (objs st) (trace st ++ [init_event i x; EvDtor x])).
Proof. apply EmplaceBack_PopBack. Qed.

(** Property X19 at the vector [{1, 2, 3}] with capacity 4. *)
Lemma X19_witness :
  let st := Scenario.st2 in
  run (Vector.EmplaceBack (H:=int_elem) (H0:=unbounded) 0%nat (InitCopy 9) ;;;
       Vector.PopBack 0%nat) st
  = (Ok tt, mkState (heap st) (objs st) (trace st ++ [EvCopyCtor 9; EvDtor 9])).
Proof.
  intros st.
  assert (vec_at st 0%nat 4 [1; 2; 3]) as H0 by vec_at_block 0%nat.
  rewrite (@X19_append_then_PopBack Z int_elem unbounded st 0%nat 4 [1; 2; 3]
             (InitCopy 9) 9 H0).
  - reflexivity.
  - simpl. lia.
  - reflexivity.
Defined.

(** Property X20.  [PushBack] of a reference to an existing object,
    such as [v.PushBack(v[j])].  With spare capacity the new element is
    a copy of the object.  On a full vector the elements are relocated
    before the new element is constructed, so the new element is a copy
    of what the referenced slot holds after the relocation: for an
    element of the vector itself and a type relocated by move, that is
    the moved-from object, not the value the caller passed. *)
Theorem X20_PushBack_of_own_element {T : Type} `{Elem T} `{Allocator}
    (st : state T) (this : ref) (a : addr) (cap : Z) (xs : list T) (j : nat) :
  vec_at st this cap xs -> block_addr st this = Some a ->
  (Z.of_nat (length xs) < cap ->
   forall x y, xs !! j = Some x -> copy_ctor x = Some y ->
     exists st',
       run (Vector.PushBack_ref this (Ptr a (Z.of_nat j))) st = (Ok tt, st') /\
       vec_at st' this cap (xs ++ [y]) /\
       trace st' = trace st ++ [EvCopyCtor x]) /\
  (Z.of_nat (length xs) = cap ->
   grown cap cap * sizeof < size_t_mod -> can_allocate (grown cap cap * sizeof) = true ->
   forall zs rs r y, relocated xs zs rs -> rs !! j = Some r -> copy_ctor r = Some y ->
     exists st',
       run (Vector.PushBack_ref this (Ptr a (Z.of_nat j))) st = (Ok tt, st') /\
       vec_at st' this (grown cap cap) (zs ++ [y]) /\
       trace st' = trace st
         ++ [EvNew (fresh (dom (heap st))) (grown cap cap * sizeof)]
         ++ relocation_events xs ++ [EvCopyCtor r] ++ (EvDtor <$> rs) ++ [EvDelete a]).
Proof.
  intros Hvec Hblock.
  destruct (vec_at_block_addr _ _ _ _ _ Hvec Hblock) as (Hthis & Ha & Hle).
  split.
  - intros Hlt x y Hj Hy.
    destruct (PushBack_ref_in_place st this a cap xs a _ j x y Hvec Hblock Hlt Ha
                (block_of_lookup _ _ _ _ Hj) Hy) as (st' & Hrun & Hv & _ & Htr).
    by exists st'.
  - intros Heq Hlt Hcan zs rs r y Hrel Hj Hy.
    eapply (PushBack_ref_full st this a cap xs zs rs a _ j r y); try done.
    + apply lookup_insert_eq.
    + by apply block_of_lookup.
Qed.

(** Property X20 at [Vector<Str>] holding [{s1, s2}],
    [v.PushBack(v[0])]: with capacity 4 the result is [{s1, s2, s1}],
    with capacity 2 it is [s1], [s2] and an empty string. *)
Lemma X20_witness :
  let st := (run Scenario.str_12 empty_state).2 in
  let stf := (run Scenario.str_full empty_state).2 in
  (exists st',
     run (Vector.PushBack_ref (H:=str_elem) (H0:=unbounded) 0%nat (Ptr 0%nat 0)) st
     = (Ok tt, st') /\
     vec_at st' 0%nat 4 [Scenario.s1; Scenario.s2; Scenario.s1]) /\
  (exists st',
     run (Vector.PushBack_ref (H:=str_elem) (H0:=unbounded) 0%nat (Ptr 1%nat 0)) stf
     = (Ok tt, st') /\
     vec_at st' 0%nat 4 [Scenario.s1; Scenario.s2; []]).
Proof.
  intros st stf.
  assert (vec_at st 0%nat 4 [Scenario.s1; Scenario.s2]) as Hv by vec_at_block 0%nat.
  assert (vec_at stf 0%nat 2 [Scenario.s1; Scenario.s2]) as Hf by vec_at_block 1%nat.
  split.
  - destruct (@X20_PushBack_of_own_element Str str_elem unbounded st 0%nat 0%nat 4
                [Scenario.s1; Scenario.s2] 0%nat Hv) as [Hin _].
    { vm_compute. reflexivity. }
    destruct (Hin ltac:(simpl; lia) Scenario.s1 Scenario.s1 eq_refl eq_refl)
      as (st' & Hrun & Hv' & _).
    exists st'. split; [exact Hrun|exact Hv'].
  - destruct (@X20_PushBack_of_own_element Str str_elem unbounded stf 0%nat 1%nat 2
                [Scenario.s1; Scenario.s2] 0%nat Hf) as [_ Hfull].
    { vm_compute. reflexivity. }
    destruct (Hfull eq_refl ltac:(by vm_compute) eq_refl
                [Scenario.s1; Scenario.s2] [[]; []] [] [])
      as (st' & Hrun & Hv' & _).
    + exists [(Scenario.s1, []); (Scenario.s2, [])]. repeat constructor.
    + reflexivity.
    + reflexivity.
    + exists st'. split; [exact Hrun|exact Hv'].
Defined.

(** Property X21.  A [RawMemory] releases its block exactly once.  A
    [RawMemory] constructed for [n] elements, moved into another one
    and destroyed together with it leaves the heap as it was: the
    moved-from object owns nothing.  Move assignment between two
    different objects releases the destination's block at once, hands
    over the source's block and empties the source, so destroying both
    afterwards releases the second block once and nothing twice. *)
Theorem X21_RawMemory_releases_once {T : Type} `{Elem T} `{Allocator}
    (st : state T) (n : Z) (this rhs : ref) (a b : addr)
    (la lb : list (option T)) (ca cb : Z) :
  0 <= n ->
  (n <> 0 -> n * sizeof < size_t_mod /\ can_allocate (n * sizeof) = true) ->
  run (let* d := RawMemory.ctor n in
       let '(d', od) := RawMemory.ctor_move d in
       RawMemory.dtor od ;;; RawMemory.dtor d') st
  = (Ok tt,
     mkState (heap st) (objs st)
       (trace st ++ if n =? 0 then []
                    else [EvNew (fresh (dom (heap st))) (n * sizeof);
                          EvDelete (fresh (dom (heap st)))])) /\
  (this <> rhs -> a <> b -> heap st !! a = Some la -> heap st !! b = Some lb ->
   run (let* (d, rd) := RawMemory.operator_assign_move this rhs
                          (mkRawMemory (Ptr a 0) ca) (mkRawMemory (Ptr b 0) cb) in
        RawMemory.dtor rd ;;; RawMemory.dtor d ;;; ret (d, rd)) st
   = (Ok (mkRawMemory (Ptr b 0) cb, mkRawMemory nullptr 0),
      mkState (delete b (delete a (heap st))) (objs st)
              (trace st ++ [EvDelete a; EvDelete b]))).
Proof.
  intros Hn Halloc. split.
  - by apply RawMemory_lifecycle.
  - intros Hne Hab Ha Hb. by eapply RawMemory_move_assign.
Qed.

(** Property X21 for storage of three [int]s, and for the blocks of
    the vectors [{1, 2, 3}] and [{7, 8}]. *)
Lemma X21_witness :
  run (let* d := RawMemory.ctor (H:=int_elem) (H0:=unbounded) 3 in
       let '(d', od) := RawMemory.ctor_move d in
       RawMemory.dtor od ;;; RawMemory.dtor d') empty_state
  = (Ok tt, mkState ∅ ∅ [EvNew 0%nat 12; EvDelete 0%nat]) /\
  run (let* (d, rd) := RawMemory.operator_assign_move 0%nat 1%nat
                         (mkRawMemory (Ptr 0%nat 0) 4) (mkRawMemory (Ptr 2%nat 0) 2) in
       RawMemory.dtor rd ;;; RawMemory.dtor d ;;; ret (d, rd)) Scenario.st2
  = (Ok (mkRawMemory (Ptr 2%nat 0) 2, mkRawMemory nullptr 0),
     mkState ∅ (objs Scenario.st2) (trace Scenario.st2 ++ [EvDelete 0%nat; EvDelete 2%nat])).
Proof.
  split.
  - destruct (@X21_RawMemory_releases_once Z int_elem unbounded empty_state 3
                0%nat 1%nat 0%nat 1%nat [] [] 0 0 ltac:(lia)) as [Hlife _].
    + intros _. split; [by vm_compute|reflexivity].
    + rewrite Hlife. reflexivity.
  - destruct (@X21_RawMemory_releases_once Z int_elem unbounded Scenario.st2 0
                0%nat 1%nat 0%nat 2%nat [Some 1; Some 2; Some 3; None] [Some 7; Some 8] 4 2
                ltac:(lia)) as [_ Hassign].
    + intros Hne. by destruct Hne.
    + rewrite Hassign; [|lia|lia|vm_compute; reflexivity|vm_compute; reflexivity].
      vm_compute. reflexivity.
Defined.

(** Property X22.  After [k >= 1] appends to a default-constructed
    vector (capacity 0, no storage) the capacity is a power of two with
    [k <= capacity < 2k]: the growth rule never leaves more than half
    of the storage unused.  The appended arguments are objects outside
    the vector, and relocation transfers the value of the elements. *)
Theorem X22_capacity_is_power_of_two {T : Type} `{Elem T} `{Allocator}
    (st : state T) (this : ref) (ops : list (append T)) (xs : list T) :
  Forall2 (fun op x => append_value st op = Some x) ops xs -> xs <> [] ->
  Forall relocation_preserves xs ->
  (forall n, 0 < n <= 2 * Z.of_nat (length xs) -> can_allocate (n * sizeof) = true) ->
  2 * Z.of_nat (length xs) * sizeof < size_t_mod ->
  exists st' c (e : nat),
    run (Vector.ctor_default this ;;; run_appends this ops) st = (Ok tt, st') /\
    vec_at st' this c xs /\
    run (Vector.Capacity this) st' = (Ok c, st') /\
    c = 2 ^ Z.of_nat e /\ Z.of_nat (length xs) <= c < 2 * Z.of_nat (length xs).
Proof.
  intros Hf Hne Hp Hcan Hlt.
  destruct (appends_from_default st this ops xs Hf Hp Hcan Hlt)
    as (st' & Hrun & Hv & _ & Hc & _).
  rewrite (Forall2_length _ _ _ Hf) in Hc.
  destruct (capacity_after_pow2 (length xs)) as (e & He & Hb).
  { destruct xs; [done|simpl; lia]. }
  exists st', (capacity_after (length xs)), e. done.
Qed.

(** Property X22 for five appends to a default-constructed
    [Vector<int>]: the capacity is 8. *)
Lemma X22_witness :
  exists st',
    run (Vector.ctor_default 0%nat ;;;
         run_appends (H:=int_elem) (H0:=unbounded) 0%nat
           [PushBackCopy 1; PushBackMove 2; EmplaceBackArgs (InitArgs (Some 3));
            PushBackCopy 4; PushBackCopy 5]) empty_state = (Ok tt, st') /\
    vec_at st' 0%nat 8 [1; 2; 3; 4; 5] /\
    run (Vector.Capacity 0%nat) st' = (Ok 8, st').
Proof.
  destruct (@X22_capacity_is_power_of_two Z int_elem unbounded empty_state 0%nat
              [PushBackCopy 1; PushBackMove 2; EmplaceBackArgs (InitArgs (Some 3));
               PushBackCopy 4; PushBackCopy 5] [1; 2; 3; 4; 5])
    as (st' & c & e & Hrun & Hv & Hc & He & Hb).
  - repeat constructor.
  - discriminate.
  - repeat (constructor; [vm_compute; eexists; reflexivity|]). constructor.
  - reflexivity.
  - by vm_compute.
  - exists st'. split; [exact Hrun|].
    assert (c = 8) as <-; [|split; [exact Hv|exact Hc]].
    cbn [length] in Hb.
    destruct e as [|[|[|[|e]]]]; try (vm_compute in He; lia).
    assert (2 ^ 4 <= 2 ^ Z.of_nat (S (S (S (S e))))) by (apply Z.pow_le_mono_r; lia).
    lia.
Defined.

(** Property X23.  Copy assignment from a source longer than the
    capacity gives the strong guarantee: if copying an element throws
    while the temporary copy is built, the copies made so far are
    destroyed (front to back, as [std::uninitialized_copy_n] of
    libstdc++ does), the temporary's block is released, the exception
    propagates, and both vectors and the heap are unchanged. *)
Theorem X23_copy_assign_rolls_back {T : Type} `{Elem T} `{Allocator}
    (st : state T) (this rhs : ref) (cap rcap : Z) (xs ys : list T) (y : T)
    (ys2 zs : list T) :
  this <> rhs -> vec_at st this cap xs -> vec_at st rhs rcap (ys ++ y :: ys2) ->
  cap < Z.of_nat (length (ys ++ y :: ys2)) ->
  Forall2 (fun y z => copy_ctor y = Some z) ys zs -> copy_ctor y = None ->
  Z.of_nat (length (ys ++ y :: ys2)) * sizeof < size_t_mod ->
  can_allocate (Z.of_nat (length (ys ++ y :: ys2)) * sizeof) = true ->
  run (Vector.operator_assign this rhs) st
  = (Throw elem_exn,
     mkState (heap st) (objs st)
       (trace st
          ++ [EvNew (fresh (dom (heap st))) (Z.of_nat (length (ys ++ y :: ys2)) * sizeof)]
          ++ (EvCopyCtor <$> ys) ++ (EvDtor <$> zs)
          ++ [EvDelete (fresh (dom (heap st)))])).
Proof. apply operator_assign_throws. Qed.

(** Property X23: a default-constructed [Vector<Fragile>] is assigned
    a vector whose third element cannot be copied; the copies of the
    first two are destroyed again, the first one first. *)
Lemma X23_witness :
  let st := (run (Scenario.fragile_third_bad ;;; Vector.ctor_default 1%nat) empty_state).2 in
  run (Vector.operator_assign (H:=fragile_elem) (H0:=unbounded) 1%nat 0%nat) st
  = (Throw elem_exn,
     mkState (heap st) (objs st)
       (trace st ++ [EvNew 1%nat 48; EvCopyCtor Scenario.b_ok; EvCopyCtor Scenario.c_new;
                     EvDtor Scenario.b_ok; EvDtor Scenario.c_new; EvDelete 1%nat])).
Proof.
  intros st.
  assert (vec_at st 0%nat 3 ([Scenario.b_ok; Scenario.c_new] ++ Scenario.a_bad :: []))
    as Hv by vec_at_block 0%nat.
  assert (vec_at st 1%nat 0 []) as Hd.
  { exists nullptr. vm_compute. repeat split; first [reflexivity | intros; discriminate]. }
  rewrite (@X23_copy_assign_rolls_back Fragile fragile_elem unbounded st 1%nat 0%nat 0 3
             [] [Scenario.b_ok; Scenario.c_new] Scenario.a_bad []
             [Scenario.b_ok; Scenario.c_new] ltac:(lia) Hd Hv).
  - vm_compute. reflexivity.
  - simpl. lia.
  - repeat constructor.
  - reflexivity.
  - by vm_compute.
  - reflexivity.
Defined.



(** Property X25.  Vectors are independent: when [Reserve] reallocates
    one vector, every other vector keeps its elements, its capacity and
    its block. *)
Theorem X25_Reserve_leaves_other_vectors {T : Type} `{Elem T} `{Allocator}
    (st : state T) (this other : ref) (cap c2 : Z) (xs ys zs rs : list T) (n : Z) :
  this <> other -> vec_at st this cap xs -> vec_at st other c2 ys ->
  (forall a, block_addr st this = Some a -> block_addr st other <> Some a) ->
  cap < n -> n * sizeof < size_t_mod -> can_allocate (n * sizeof) = true ->
  relocated xs zs rs ->
  exists st',
    run (Vector.Reserve this n) st = (Ok tt, st') /\
    vec_at st' this n zs /\ vec_at st' other c2 ys /\
    block_addr st' other = block_addr st other.
Proof.
  intros Hne Hvec (buf & Hother & Hown) Hdisj Hcap Hlt Hcan Hrel.
  destruct (Reserve_grows st this cap xs zs rs n Hvec Hcap Hlt Hcan Hrel)
    as (st' & Hrun & Hv & Hobjs & Hheap).
  exists st'. split; [exact Hrun|]. split; [exact Hv|].
  assert (objs st' !! other = objs st !! other) as Ho by (apply Hobjs; congruence).
  split.
  - exists buf. rewrite Ho. split; [exact Hother|].
    destruct Hown as [Hle Hbuf]. split; [exact Hle|].
    destruct buf as [|c off]; [exact Hbuf|]. destruct Hbuf as [-> Hc].
    split; [done|]. rewrite Hheap; [exact Hc| |congruence].
    intros Hb. apply (Hdisj c Hb). unfold block_addr. by rewrite Hother.
  - unfold block_addr. by rewrite Ho.
Qed.

(** Property X25 at the vectors [{7, 8}], which is grown to capacity 6,
    and [{1, 2, 3}]. *)
Lemma X25_witness :
  let st := Scenario.st2 in
  exists st',
    run (Vector.Reserve (H:=int_elem) (H0:=unbounded) 1%nat 6) st = (Ok tt, st') /\
    vec_at st' 1%nat 6 [7; 8] /\ vec_at st' 0%nat 4 [1; 2; 3] /\
    block_addr st' 0%nat = Some 0%nat.
Proof.
  intros st.
  assert (vec_at st 0%nat 4 [1; 2; 3]) as H0 by vec_at_block 0%nat.
  assert (vec_at st 1%nat 2 [7; 8]) as H1 by vec_at_block 2%nat.
  destruct (@X25_Reserve_leaves_other_vectors Z int_elem unbounded st 1%nat 0%nat 2 4
              [7; 8] [1; 2; 3] [7; 8] [7; 8] 6 ltac:(lia) H1 H0)
    as (st' & Hrun & Hv1 & Hv0 & Hb).
  - intros a. vm_compute. intros [= <-]. discriminate.
  - lia.
  - by vm_compute.
  - reflexivity.
  - exists [(7, 7); (8, 8)]. repeat constructor.
  - exists st'. split; [exact Hrun|]. split; [exact Hv1|]. split; [exact Hv0|].
    rewrite Hb. vm_compute. reflexivity.
Defined.
